(** * Log-Zero core: Drain template tree, PII redactor, worker pool, anomaly baseline

    A shallow embedding of the Go sources

      - [internal/compression/drain/drain.go]  (package [drain])
      - the PII redactor                        (package [pii])
      - [internal/pipeline/worker.go]           (package [pipeline])
      - [cmd/anomaly/main.go]                   (the anomaly service)

    followed by the properties of the specification that concern them and
    by further properties of the same code (X1, X2, ...).

    Conventions.  Go strings are byte sequences and are modelled by [string]
    (a list of 8-bit [ascii] characters).  Go maps are [gmap]s.  Pointers to
    clusters are indices into an explicit heap, because a cluster is shared
    between the tree's leaves and the [clusters] index of the tree.  [int] and
    [int64] values are [Z]; where the code can overflow ([Size++]) the
    wrap-around is written out.  [float64] values are primitive IEEE-754
    binary64 floats, and their operations and comparisons are those of the
    primitive floats. *)

From Stdlib Require Import ZArith Ascii String List Bool Lia.
From Stdlib Require Import Numbers.DecimalString.
From Stdlib Require PrimFloat Uint63 DecimalPos DecimalZ Floats.
From stdpp Require Import base option list gmap strings.

Set Warnings "-register-all".

Open Scope string_scope.
Open Scope Z_scope.

(* ===================================================================== *)
(** * Outcomes of a call *)
(* ===================================================================== *)

(** A Go call either returns, or panics (index out of range, nil
    dereference, send on a closed channel).  The recursive functions of the
    embedding are defined with a fuel counter; [OutOfFuel] is the embedding's
    own third outcome and is shown unreachable for the fuel the callers give. *)
Inductive outcome (A : Type) : Type :=
| Done (a : A)
| Panic
| OutOfFuel.
Arguments Done {A} a.
Arguments Panic {A}.
Arguments OutOfFuel {A}.

Definition obind {A B : Type} (m : outcome A) (f : A → outcome B) : outcome B :=
  match m with
  | Done a => f a
  | Panic => Panic
  | OutOfFuel => OutOfFuel
  end.

Notation "x ←! m ; k" := (obind m (fun x => k))
  (at level 100, m at next level, right associativity, only parsing).

(* ===================================================================== *)
(** * Go's [strings] and [fmt] helpers *)
(* ===================================================================== *)

Module GoStrings.

Definition byte_of (c : ascii) : N := N_of_ascii c.

(** [d] renders [%d]. *)
Definition itoa (n : Z) : string := NilZero.string_of_int (Z.to_int n).

Definition len (s : string) : Z := Z.of_nat (String.length s).

(** Width in bytes of the white-space rune that starts [s], 0 when [s] does
    not start with one.  [unicode.IsSpace] holds of U+0009..U+000D, U+0020,
    U+0085, U+00A0, U+1680, U+2000..U+200A, U+2028, U+2029, U+202F, U+205F
    and U+3000; the table lists their UTF-8 encodings. *)
Definition space_width (s : string) : nat :=
  match s with
  | EmptyString => 0%nat
  | String c0 r0 =>
    let b0 := byte_of c0 in
    if ((9 <=? b0) && (b0 <=? 13) || (b0 =? 32))%N then 1%nat
    else match r0 with
    | EmptyString => 0%nat
    | String c1 r1 =>
      let b1 := byte_of c1 in
      if ((b0 =? 194) && ((b1 =? 133) || (b1 =? 160)))%N then 2%nat
      else match r1 with
      | EmptyString => 0%nat
      | String c2 _ =>
        let b2 := byte_of c2 in
        if ((b0 =? 225) && (b1 =? 154) && (b2 =? 128)
            || (b0 =? 226) && (b1 =? 128)
               && ((128 <=? b2) && (b2 <=? 138) || (b2 =? 168) || (b2 =? 169) || (b2 =? 175))
            || (b0 =? 226) && (b1 =? 129) && (b2 =? 159)
            || (b0 =? 227) && (b1 =? 128) && (b2 =? 128))%N
        then 3%nat else 0%nat
      end
    end
  end.

Definition flush (cur : string) : list string :=
  match cur with EmptyString => [] | _ => [cur] end.

(** [skip] counts the remaining bytes of a white-space rune already
    recognised; [cur] is the field being read. *)
Fixpoint Fields_go (s : string) (skip : nat) (cur : string) : list string :=
  match s with
  | EmptyString => flush cur
  | String c s' =>
    match skip with
    | S k => Fields_go s' k cur
    | O =>
      match space_width s with
      | O => Fields_go s' 0 (cur ++ String c EmptyString)
      | S k => flush cur ++ Fields_go s' k EmptyString
      end
    end
  end.

(** [strings.Fields]: the maximal runs of non-white-space. *)
Definition Fields (s : string) : list string := Fields_go s 0 EmptyString.

(** [strings.Join]. *)
Fixpoint Join (elems : list string) (sep : string) : string :=
  match elems with
  | [] => EmptyString
  | [x] => x
  | x :: rest => x ++ sep ++ Join rest sep
  end.

(** [strings.Repeat]: a panic for a negative count. *)
Definition Repeat (s : string) (count : Z) : outcome string :=
  if count <? 0 then Panic
  else Done (fold_right String.append "" (replicate (Z.to_nat count) s)).

(** [strings.Split(s, sep)] for a separator of one byte: the pieces of [s]
    between the occurrences of [sep], one more than there are
    occurrences. *)
Fixpoint Split_go (s : string) (sep : ascii) (cur : string) : list string :=
  match s with
  | EmptyString => [cur]
  | String c s' =>
    if Ascii.eqb c sep then cur :: Split_go s' sep ""
    else Split_go s' sep (cur ++ String c "")
  end.

Definition Split (s : string) (sep : ascii) : list string := Split_go s sep "".

(** [s[:n]]: a panic outside [0 <= n <= len(s)]. *)
Definition slice_to (s : string) (n : Z) : outcome string :=
  if (0 <=? n) && (n <=? len s) then Done (substring 0 (Z.to_nat n) s) else Panic.

(** [s[i]]: a panic outside [0 <= i < len(s)]. *)
Definition byte_at (s : string) (i : Z) : outcome ascii :=
  if (0 <=? i) && (i <? len s) then
    match String.get (Z.to_nat i) s with
    | Some b => Done b
    | None => Panic
    end
  else Panic.

(** [string(b)] for a byte [b]: the UTF-8 encoding of the code point
    [b], two bytes from U+0080 on. *)
Definition string_of_byte (b : ascii) : string :=
  let n := N_of_ascii b in
  if (n <? 128)%N then String b ""
  else String (ascii_of_N (192 + n / 64)) (String (ascii_of_N (128 + n mod 64)) "").

End GoStrings.

(* ===================================================================== *)
(** * The fragment of Go's [regexp] that the patterns of the sources use *)
(* ===================================================================== *)

Module Regex.

(** Character classes are predicates on bytes.  Every repetition in the
    patterns of the sources is over a class or over a group that is
    repeated a fixed number of times, so the syntax has class repetition,
    sequence, the greedy option [r?] and the ASCII word boundary. *)
Inductive re : Type :=
| Eps
| Cls (p : ascii → bool)
| Rep (p : ascii → bool) (lo : nat) (hi : option nat)
| Seq (a b : re)
| Opt (a : re)
| WordB.

Definition in_range (lo hi : string) (c : ascii) : bool :=
  match lo, hi with
  | String l _, String h _ =>
    ((N_of_ascii l <=? N_of_ascii c) && (N_of_ascii c <=? N_of_ascii h))%N
  | _, _ => false
  end.

Fixpoint one_of (cs : string) (c : ascii) : bool :=
  match cs with
  | EmptyString => false
  | String x r => Ascii.eqb x c || one_of r c
  end.

Definition digit : ascii → bool := in_range "0" "9".
Definition alpha (c : ascii) : bool := in_range "a" "z" c || in_range "A" "Z" c.
Definition alnum (c : ascii) : bool := alpha c || digit c.
Definition hexdigit (c : ascii) : bool :=
  digit c || in_range "a" "f" c || in_range "A" "F" c.
(** [\w] and [\s] of RE2: ASCII only. *)
Definition word (c : ascii) : bool := alnum c || one_of "_" c.
Definition space (c : ascii) : bool :=
  let b := N_of_ascii c in
  ((b =? 9) || (b =? 10) || (b =? 12) || (b =? 13) || (b =? 32))%N.

Definition lit (c : string) : re := Cls (one_of c).

Fixpoint seqs (rs : list re) : re :=
  match rs with
  | [] => Eps
  | [r] => r
  | r :: rest => Seq r (seqs rest)
  end.

Definition is_word (c : option ascii) : bool :=
  match c with Some x => word x | None => false end.

Definition head (s : string) : option ascii :=
  match s with String c _ => Some c | EmptyString => None end.

Section Match.
Context {A : Type}.

(** Greedy repetition of a class: take one more character when the class
    and the upper bound allow it, and fall back to stopping here. *)
Fixpoint rep (p : ascii → bool) (lo : nat) (hi : option nat)
         (prev : option ascii) (s : string)
         (k : option ascii → string → option A) : option A :=
  let stop := match lo with O => k prev s | S _ => None end in
  match s with
  | EmptyString => stop
  | String c s' =>
    if p c && negb (bool_decide (hi = Some 0%nat)) then
      match rep p (Nat.pred lo) (Nat.pred <$> hi) (Some c) s' k with
      | Some r => Some r
      | None => stop
      end
    else stop
  end.

(** Backtracking matcher in continuation-passing style; [prev] is the
    byte before the current position (for [\b]).  The first success in
    the order tried is the leftmost-first match of RE2. *)
Fixpoint run (r : re) (prev : option ascii) (s : string)
         (k : option ascii → string → option A) : option A :=
  match r with
  | Eps => k prev s
  | Cls p =>
    match s with
    | String c s' => if p c then k (Some c) s' else None
    | EmptyString => None
    end
  | Rep p lo hi => rep p lo hi prev s k
  | Seq a b => run a prev s (fun prev' s' => run b prev' s' k)
  | Opt a =>
    match run a prev s k with
    | Some x => Some x
    | None => k prev s
    end
  | WordB =>
    if xorb (is_word prev) (is_word (head s)) then k prev s else None
  end.
End Match.

(** The rest of the input after the match that starts here, if any. *)
Definition match_here (r : re) (prev : option ascii) (s : string) : option string :=
  run r prev s (fun _ rest => Some rest).

Fixpoint search (r : re) (prev : option ascii) (s : string) : bool :=
  match match_here r prev s with
  | Some _ => true
  | None =>
    match s with
    | EmptyString => false
    | String c s' => search r (Some c) s'
    end
  end.

(** [Regexp.MatchString]: some substring matches. *)
Definition MatchString (r : re) (s : string) : bool := search r None s.

(** [skip] counts the bytes of the current match still to be dropped. *)
Fixpoint replace_go (r : re) (repl : string) (prev : option ascii)
         (s : string) (skip : nat) : string :=
  match s with
  | EmptyString => EmptyString
  | String c s' =>
    match skip with
    | S k => replace_go r repl (Some c) s' k
    | O =>
      match match_here r prev s with
      | Some rest =>
        match (String.length s - String.length rest)%nat with
        | O => repl ++ String c (replace_go r repl (Some c) s' 0)
        | S k => repl ++ replace_go r repl (Some c) s' k
        end
      | None => String c (replace_go r repl (Some c) s' 0)
      end
    end
  end.

(** [Regexp.ReplaceAllString] for a replacement text without [$]: every
    leftmost non-overlapping match is replaced.  None of the patterns below
    matches the empty string, so the end of the input needs no case. *)
Definition ReplaceAllString (r : re) (src repl : string) : string :=
  replace_go r repl None src 0.

End Regex.


(* ===================================================================== *)
(** * [hash/fnv] and the [%x] verb *)
(* ===================================================================== *)

Module Fnv.

Definition offset64 : Z := 14695981039346656037.
Definition prime64 : Z := 1099511628211.
Definition two64 : Z := 2 ^ 64.

(** One step of FNV-1a on 64 bits: xor the byte in, then multiply by the
    prime, modulo [2^64]. *)
Definition step (h : Z) (c : ascii) : Z :=
  (Z.lxor h (Z.of_N (N_of_ascii c)) * prime64) mod two64.

Fixpoint write (h : Z) (s : string) : Z :=
  match s with
  | EmptyString => h
  | String c r => write (step h c) r
  end.

(** [h := fnv.New64a(); h.Write(s); h.Sum64()]. *)
Definition sum64a (s : string) : Z := write offset64 s.

Definition hexchar (d : Z) : ascii :=
  match String.get (Z.to_nat d) "0123456789abcdef" with
  | Some c => c
  | None => "0"%char
  end.

Fixpoint hex_go (fuel : nat) (n : Z) (acc : string) : string :=
  match fuel with
  | O => acc
  | S f =>
    let acc' := String (hexchar (n mod 16)) acc in
    if n <? 16 then acc' else hex_go f (n / 16) acc'
  end.

(** [fmt.Sprintf("%x", n)] for a [uint64]: lower case, no leading zero, at
    most sixteen digits. *)
Definition hex (n : Z) : string := hex_go 16 n EmptyString.

(** The value a string of hexadecimal digits denotes. *)
Definition hexval (c : ascii) : option Z :=
  let b := Z.of_N (N_of_ascii c) in
  if (48 <=? b) && (b <=? 57) then Some (b - 48)
  else if (97 <=? b) && (b <=? 102) then Some (b - 87)
  else None.

Fixpoint unhex (acc : Z) (s : string) : option Z :=
  match s with
  | EmptyString => Some acc
  | String c r =>
    match hexval c with
    | Some d => unhex (16 * acc + d) r
    | None => None
    end
  end.

End Fnv.

(* ===================================================================== *)
(** * Package [drain] *)
(* ===================================================================== *)

Module Drain.
Import GoStrings.
Import PrimFloat.

(** A cluster pointer is an index into the heap of the tree. *)
Abbreviation ptr := nat (only parsing).

(** [LogCluster].  Its mutex is not modelled: every update of a cluster
    happens inside [Parse], which holds the write lock of the tree from its
    first to its last statement, so the calls run one after the other.
    [SampleLogs] is the contents of the slice; its capacity (5) is not
    modelled. *)
Record LogCluster : Type := mkLogCluster {
  ID : string;
  Template : string;
  Tokens : list string;
  Size : Z;
  FirstSeen : Z;
  LastSeen : Z;
  SampleLogs : list string
}.

(** [ClusterNode]: the children are a Go map, the clusters a slice of
    pointers. *)
Inductive ClusterNode : Type :=
| mkClusterNode (KeyToChildNode : gmap string ClusterNode)
                (Clusters : list ptr) (Depth : Z).

Definition KeyToChildNode (n : ClusterNode) : gmap string ClusterNode :=
  match n with mkClusterNode ch _ _ => ch end.
Definition Clusters (n : ClusterNode) : list ptr :=
  match n with mkClusterNode _ cs _ => cs end.
Definition Depth (n : ClusterNode) : Z :=
  match n with mkClusterNode _ _ d => d end.

(** [ParseResult]; its field [Template] is [ResTemplate] here, the name
    being taken by the field of [LogCluster]. *)
Record ParseResult : Type := mkParseResult {
  TemplateID : string;
  ResTemplate : string;
  Variables : gmap string string;
  IsNew : bool
}.

(** What [Parse] returns: [(result, nil)] or [(nil, err)]. *)
Inductive ParseReturn : Type :=
| ParseOk (r : ParseResult)
| ParseErr (msg : string).

Record Config : Type := mkConfig {
  MaxDepth : Z;
  SimThreshold : PrimFloat.float;
  MaxChildren : Z;
  MaxClusters : Z;
  MaxSampleLogs : Z;
  ExtraDelimiter : string
}.

(** [DrainTree].  [heap] is the store the cluster pointers of [root] and of
    [clusters] point into; a new cluster gets the next free index. *)
Record DrainTree : Type := mkDrainTree {
  root : ClusterNode;
  clusters : gmap string ptr;
  heap : list LogCluster;
  maxDepth : Z;
  simThreshold : PrimFloat.float;
  maxChildren : Z;
  maxClusters : Z
}.

Definition DefaultConfig : Config :=
  {| MaxDepth := 4; SimThreshold := 0.5%float; MaxChildren := 100;
     MaxClusters := 20; MaxSampleLogs := 5; ExtraDelimiter := "" |}.

Definition NewDrainTree (config : Config) : DrainTree :=
  let maxDepth := if MaxDepth config =? 0 then 4 else MaxDepth config in
  let simThreshold :=
    if (SimThreshold config =? 0)%float then 0.5%float else SimThreshold config in
  let maxChildren := if MaxChildren config =? 0 then 100 else MaxChildren config in
  let maxClusters := if MaxClusters config =? 0 then 20 else MaxClusters config in
  {| root := mkClusterNode ∅ [] 0;
     clusters := ∅;
     heap := [];
     maxDepth := maxDepth;
     simThreshold := simThreshold;
     maxChildren := maxChildren;
     maxClusters := maxClusters |}.

(** [compilePatterns]: the seven expressions, in the order of the source. *)
Definition compilePatterns : list Regex.re :=
  let d13 := Regex.Rep Regex.digit 1 (Some 3%nat) in
  let hexn n := Regex.Rep Regex.hexdigit n (Some n) in
  let dot := Regex.lit "." in
  let dash := Regex.lit "-" in
  let nonspace := Regex.Rep (fun c => negb (Regex.space c)) 1 None in
  let local := fun c => Regex.alnum c || Regex.one_of "._%+-" c in
  let domain := fun c => Regex.alnum c || Regex.one_of ".-" c in
  [ (* \b\d{1,3}\.\d{1,3}\.\d{1,3}\.\d{1,3}\b *)
    Regex.seqs [Regex.WordB; d13; dot; d13; dot; d13; dot; d13; Regex.WordB];
    (* \b[0-9a-fA-F]{8}-[0-9a-fA-F]{4}-[0-9a-fA-F]{4}-[0-9a-fA-F]{4}-[0-9a-fA-F]{12}\b *)
    Regex.seqs [Regex.WordB; hexn 8%nat; dash; hexn 4%nat; dash; hexn 4%nat; dash;
                hexn 4%nat; dash; hexn 12%nat; Regex.WordB];
    (* \b[0-9a-fA-F]{8,}\b *)
    Regex.seqs [Regex.WordB; Regex.Rep Regex.hexdigit 8 None; Regex.WordB];
    (* \b\d+\b *)
    Regex.seqs [Regex.WordB; Regex.Rep Regex.digit 1 None; Regex.WordB];
    (* /[^\s]+ *)
    Regex.seqs [Regex.lit "/"; nonspace];
    (* https?://[^\s]+ *)
    Regex.seqs [Regex.lit "h"; Regex.lit "t"; Regex.lit "t"; Regex.lit "p";
                Regex.Opt (Regex.lit "s"); Regex.lit ":"; Regex.lit "/";
                Regex.lit "/"; nonspace];
    (* [a-zA-Z0-9._%+-]+@[a-zA-Z0-9.-]+\.[a-zA-Z]{2,} *)
    Regex.seqs [Regex.Rep local 1 None; Regex.lit "@"; Regex.Rep domain 1 None;
                dot; Regex.Rep Regex.alpha 2 None] ].

Definition wildcard : string := "<*>".

Definition wrap64 (z : Z) : Z := (z + 2 ^ 63) mod 2 ^ 64 - 2 ^ 63.

Definition slen {A : Type} (l : list A) : Z := Z.of_nat (List.length l).

(** [s[i]] on a slice: a panic outside [0 <= i < len(s)]. *)
Definition index {A : Type} (s : list A) (i : Z) : outcome A :=
  if (0 <=? i) && (i <? slen s) then
    match s !! Z.to_nat i with
    | Some x => Done x
    | None => Panic
    end
  else Panic.

(** Reading through a cluster pointer. *)
Definition deref (h : list LogCluster) (p : ptr) : outcome (ptr * LogCluster) :=
  match h !! p with
  | Some c => Done (p, c)
  | None => Panic
  end.

Fixpoint derefs (h : list LogCluster) (ps : list ptr)
  : outcome (list (ptr * LogCluster)) :=
  match ps with
  | [] => Done []
  | p :: rest =>
    c ←! deref h p;
    cs ←! derefs h rest;
    Done (c :: cs)
  end.

Definition tokenize (content : string) : list string := Fields content.

Definition streq (a b : string) : bool := bool_decide (a = b).

(** The loop of [calculateSimilarity]; both slices have the same length
    when it runs. *)
Fixpoint count_matches (template log : list string) : Z :=
  match template, log with
  | t :: ts, l :: ls =>
    (if streq t l || streq t wildcard then 1 else 0) + count_matches ts ls
  | _, _ => 0
  end.

(** [float64(n)] for an [int] or an [int64]: the binary64 value nearest to
    [n], ties to even, as the standard library specifies the conversion of
    the primitive floats ([binary_normalize]).  For [0 <= n < 2^63] it is the
    primitive conversion [PrimFloat.of_uint63] itself
    ([Float64.float_of_int_uint63] below). *)
Definition float_of_int (n : Z) : PrimFloat.float :=
  FloatOps.SF2Prim (SpecFloat.binary_normalize FloatOps.prec FloatOps.emax n 0 false).

(** [calculateSimilarity]: [0.0] for slices of different lengths, otherwise
    the binary64 quotient [float64(matches) / float64(len(template))], which
    is NaN for two empty slices. *)
Definition calculateSimilarity (template log : list string) : PrimFloat.float :=
  if negb (slen template =? slen log) then 0%float
  else (float_of_int (count_matches template log) / float_of_int (slen template))%float.

(** One turn of the loop of [findBestMatch]:
    [if sim > maxSim && sim >= dt.simThreshold]. *)
Definition best_step (simThreshold : PrimFloat.float) (tokens : list string)
           (st : option (ptr * LogCluster) * PrimFloat.float) (pc : ptr * LogCluster)
  : option (ptr * LogCluster) * PrimFloat.float :=
  let '(bestMatch, maxSim) := st in
  if negb (slen (Tokens pc.2) =? slen tokens) then st
  else
    let sim := calculateSimilarity (Tokens pc.2) tokens in
    if (maxSim <? sim)%float && (simThreshold <=? sim)%float
    then (Some pc, sim) else st.

(** [findBestMatch]: the loop carries [bestMatch] and [maxSim], which starts
    at [0.0]. *)
Definition findBestMatch (simThreshold : PrimFloat.float) (cs : list (ptr * LogCluster))
           (tokens : list string) : option (ptr * LogCluster) :=
  (fold_left (best_step simThreshold tokens) cs (None, 0%float)).1.

Definition generateClusterID (tokens : list string) : string :=
  "tmpl_" ++ Fnv.hex (Fnv.sum64a (Join tokens " ")).

Definition createTemplate (tokens : list string) : string := Join tokens " ".

Definition node_append (node : ClusterNode) (p : ptr) : ClusterNode :=
  mkClusterNode (KeyToChildNode node) (Clusters node ++ [p]) (Depth node).

Definition node_set_child (node : ClusterNode) (key : string)
           (child : ClusterNode) : ClusterNode :=
  mkClusterNode (<[key := child]> (KeyToChildNode node)) (Clusters node) (Depth node).

(** [addToTree].  The Go code mutates the nodes in place; here the updated
    node is returned and stored back under its key. *)
Fixpoint addToTree_fuel (fuel : nat) (maxDepth : Z) (node : ClusterNode)
         (cluster : ptr) (tokens : list string) (depth : Z)
  : outcome ClusterNode :=
  match fuel with
  | O => OutOfFuel
  | S fuel' =>
    if (depth >=? maxDepth) || (depth >? slen tokens) then
      Done (node_append node cluster)
    else
      let descend (key : string) :=
        let childNode :=
          match KeyToChildNode node !! key with
          | Some childNode => childNode
          | None => mkClusterNode ∅ [] depth
          end in
        child' ←! addToTree_fuel fuel' maxDepth childNode cluster tokens (depth + 1);
        Done (node_set_child node key child') in
      if depth =? 1 then descend ("len_" ++ itoa (slen tokens))
      else
        let tokenIdx := depth - 2 in
        if tokenIdx <? slen tokens then
          key ←! index tokens tokenIdx;
          descend key
        else Done (node_append node cluster)
  end.

(** The recursion of [addToTree] and of [treeSearch] stops at the latest at
    [depth = len(tokens) + 1]. *)
Definition fuel_for (tokens : list string) : nat := S (List.length tokens).

Definition addToTree (dt : DrainTree) (node : ClusterNode) (cluster : ptr)
           (tokens : list string) (depth : Z) : outcome ClusterNode :=
  addToTree_fuel (fuel_for tokens) (maxDepth dt) node cluster tokens depth.

(** [treeSearch]. *)
Fixpoint treeSearch_fuel (fuel : nat) (dt : DrainTree) (node : ClusterNode)
         (tokens : list string) (depth : Z)
  : outcome (option (ptr * LogCluster)) :=
  match fuel with
  | O => OutOfFuel
  | S fuel' =>
    let here :=
      cs ←! derefs (heap dt) (Clusters node);
      Done (findBestMatch (simThreshold dt) cs tokens) in
    if (depth >=? maxDepth dt) || (depth >? slen tokens) then here
    else if depth =? 1 then
      match KeyToChildNode node !! ("len_" ++ itoa (slen tokens)) with
      | Some childNode => treeSearch_fuel fuel' dt childNode tokens (depth + 1)
      | None => Done None
      end
    else
      let tokenIdx := depth - 2 in
      if tokenIdx <? slen tokens then
        key ←! index tokens tokenIdx;
        match KeyToChildNode node !! key with
        | Some childNode => treeSearch_fuel fuel' dt childNode tokens (depth + 1)
        | None =>
          match KeyToChildNode node !! wildcard with
          | Some wildcardNode =>
            treeSearch_fuel fuel' dt wildcardNode tokens (depth + 1)
          | None => here
          end
        end
      else here
  end.

Definition treeSearch (dt : DrainTree) (node : ClusterNode)
           (tokens : list string) (depth : Z)
  : outcome (option (ptr * LogCluster)) :=
  treeSearch_fuel (fuel_for tokens) dt node tokens depth.

(** [createCluster]: the new cluster is allocated at the next free index,
    entered under its id and added to the tree. *)
Definition createCluster (dt : DrainTree) (tokens : list string) (timestamp : Z)
  : outcome (DrainTree * (ptr * LogCluster)) :=
  let id := generateClusterID tokens in
  let template := createTemplate tokens in
  let cluster :=
    {| ID := id; Template := template; Tokens := tokens; Size := 1;
       FirstSeen := timestamp; LastSeen := timestamp; SampleLogs := [] |} in
  let p := List.length (heap dt) in
  let dt1 :=
    {| root := root dt; clusters := <[id := p]> (clusters dt);
       heap := heap dt ++ [cluster]; maxDepth := maxDepth dt;
       simThreshold := simThreshold dt; maxChildren := maxChildren dt;
       maxClusters := maxClusters dt |} in
  root' ←! addToTree dt1 (root dt1) p tokens 1;
  Done ({| root := root'; clusters := clusters dt1; heap := heap dt1;
           maxDepth := maxDepth dt1; simThreshold := simThreshold dt1;
           maxChildren := maxChildren dt1; maxClusters := maxClusters dt1 |},
        (p, cluster)).

(** [updateCluster], as a function on the cluster it locks. *)
Definition updateCluster (cluster : LogCluster) (tokens : list string)
           (timestamp : Z) : LogCluster :=
  let newTokens :=
    imap (fun i t =>
            match tokens !! i with
            | Some u => if negb (streq t u) then wildcard else t
            | None => t
            end) (Tokens cluster) in
  {| ID := ID cluster;
     Template := Join newTokens " ";
     Tokens := newTokens;
     Size := wrap64 (Size cluster + 1);
     FirstSeen := FirstSeen cluster;
     LastSeen := timestamp;
     SampleLogs := SampleLogs cluster |}.

Definition store (dt : DrainTree) (p : ptr) (c : LogCluster) : DrainTree :=
  {| root := root dt; clusters := clusters dt; heap := <[p := c]> (heap dt);
     maxDepth := maxDepth dt; simThreshold := simThreshold dt;
     maxChildren := maxChildren dt; maxClusters := maxClusters dt |}.

Definition extract_step (logTokens : list string)
           (st : Z * gmap string string) (it : nat * string)
  : Z * gmap string string :=
  let '(varCounter, variables) := st in
  let '(i, token) := it in
  match logTokens !! i with
  | Some v =>
    if streq token wildcard
    then (varCounter + 1, <["var_" ++ itoa varCounter := v]> variables)
    else st
  | None => st
  end.

(** [extractVariables]. *)
Definition extractVariables (template logContent : string) : gmap string string :=
  let templateTokens := Fields template in
  let logTokens := Fields logContent in
  (fold_left (extract_step logTokens)
             (imap (fun i t => (i, t)) templateTokens) (0, ∅)).2.

Section WithParseFloat.

(** Whether [strconv.ParseFloat(token, 64)] returns a nil error.  The
    function belongs to Go's library, not to this repository; the embedding
    takes it as a parameter. *)
Variable parseFloatOk : string → bool.

Definition isVariable (token : string) : bool :=
  if parseFloatOk token then true
  else existsb (fun pattern => Regex.MatchString pattern token) compilePatterns.

Definition preprocessTokens (tokens : list string) : list string :=
  map (fun token => if isVariable token then wildcard else token) tokens.

(** [Parse]. *)
Definition Parse (dt : DrainTree) (logContent : string) (timestamp : Z)
  : outcome (DrainTree * ParseReturn) :=
  let tokens := tokenize logContent in
  if slen tokens =? 0 then Done (dt, ParseErr "empty log content")
  else
    let processedTokens := preprocessTokens tokens in
    found ←! treeSearch dt (root dt) processedTokens 1;
    r ←! match found with
         | None =>
           r ←! createCluster dt processedTokens timestamp;
           Done (r.1, r.2.2, true)
         | Some (p, cluster) =>
           let cluster' := updateCluster cluster processedTokens timestamp in
           Done (store dt p cluster', cluster', false)
         end;
    let '(dt', cluster, isNew) := r in
    let variables := extractVariables (Template cluster) logContent in
    Done (dt', ParseOk {| TemplateID := ID cluster;
                          ResTemplate := Template cluster;
                          Variables := variables;
                          IsNew := isNew |}).

(** A run of [Parse] calls on one tree: the tree after the last call and
    what each call returned. *)
Fixpoint parse_all (dt : DrainTree) (calls : list (string * Z))
  : outcome (DrainTree * list ParseReturn) :=
  match calls with
  | [] => Done (dt, [])
  | (line, ts) :: rest =>
    r ←! Parse dt line ts;
    rs ←! parse_all r.1 rest;
    Done (rs.1, r.2 :: rs.2)
  end.

End WithParseFloat.

Definition GetCluster (dt : DrainTree) (id : string) : option LogCluster :=
  p ← clusters dt !! id; heap dt !! p.

Definition ClusterCount (dt : DrainTree) : Z := Z.of_nat (size (clusters dt)).

Record Stats : Type := mkStats {
  TotalClusters : Z;
  TotalLogs : Z;
  AverageSize : PrimFloat.float
}.

(** [GetAllClusters], for the order [order] in which the loop visits the
    entries of [dt.clusters]. *)
Definition GetAllClusters (dt : DrainTree) (order : list (string * ptr))
  : outcome (list LogCluster) :=
  cs ←! derefs (heap dt) (order.*2);
  Done (cs.*2).

(** [GetStats], for the order [order] of its loop; [totalLogs] is an
    [int64] and wraps around. *)
Definition GetStats (dt : DrainTree) (order : list (string * ptr)) : outcome Stats :=
  cs ←! derefs (heap dt) (order.*2);
  let totalLogs := fold_left (fun totalLogs pc => wrap64 (totalLogs + Size pc.2)) cs 0 in
  let n := Z.of_nat (size (clusters dt)) in
  let avgSize :=
    if 0 <? n then PrimFloat.div (float_of_int totalLogs) (float_of_int n)
    else PrimFloat.zero in
  Done {| TotalClusters := n; TotalLogs := totalLogs; AverageSize := avgSize |}.

End Drain.


(* ===================================================================== *)
(** * Package [pii] *)
(* ===================================================================== *)

Module Pii.

Record Redactor : Type := mkRedactor {
  patterns : gmap string Regex.re;
  enabled : bool
}.

(** [CustomPatterns] holds the custom expressions that compile; the ones
    that do not are dropped by [NewRedactor]. *)
Record RedactorConfig : Type := mkRedactorConfig {
  RedactEmails : bool;
  RedactPhones : bool;
  RedactSSN : bool;
  RedactCreditCards : bool;
  RedactIPv4 : bool;
  RedactIPv6 : bool;
  CustomPatterns : gmap string Regex.re
}.

Definition DefaultRedactorConfig : RedactorConfig :=
  {| RedactEmails := true; RedactPhones := true; RedactSSN := true;
     RedactCreditCards := true; RedactIPv4 := false; RedactIPv6 := false;
     CustomPatterns := ∅ |}.

Definition d (n : nat) : Regex.re := Regex.Rep Regex.digit n (Some n).

(** [[a-zA-Z0-9._%+-]+@[a-zA-Z0-9.-]+\.[a-zA-Z]{2,}] *)
Definition email_re : Regex.re :=
  let local := fun c => Regex.alnum c || Regex.one_of "._%+-" c in
  let domain := fun c => Regex.alnum c || Regex.one_of ".-" c in
  Regex.seqs [Regex.Rep local 1 None; Regex.lit "@"; Regex.Rep domain 1 None;
              Regex.lit "."; Regex.Rep Regex.alpha 2 None].

(** [\b(?:\+?1[-.\s]?)?\(?\d{3}\)?[-.\s]?\d{3}[-.\s]?\d{4}\b] *)
Definition phone_re : Regex.re :=
  let sep := Regex.Opt (Regex.Cls (fun c => Regex.one_of "-." c || Regex.space c)) in
  Regex.seqs [Regex.WordB;
              Regex.Opt (Regex.seqs [Regex.Opt (Regex.lit "+"); Regex.lit "1"; sep]);
              Regex.Opt (Regex.lit "("); d 3; Regex.Opt (Regex.lit ")"); sep;
              d 3; sep; d 4; Regex.WordB].

(** [\b\d{3}-\d{2}-\d{4}\b] *)
Definition ssn_re : Regex.re :=
  Regex.seqs [Regex.WordB; d 3; Regex.lit "-"; d 2; Regex.lit "-"; d 4; Regex.WordB].

(** [\b(?:\d{4}[-\s]?){3}\d{4}\b] *)
Definition credit_card_re : Regex.re :=
  let grp := Regex.Seq (d 4)
    (Regex.Opt (Regex.Cls (fun c => Regex.one_of "-" c || Regex.space c))) in
  Regex.seqs [Regex.WordB; grp; grp; grp; d 4; Regex.WordB].

(** [\b\d{1,3}\.\d{1,3}\.\d{1,3}\.\d{1,3}\b] *)
Definition ipv4_re : Regex.re :=
  let d13 := Regex.Rep Regex.digit 1 (Some 3%nat) in
  let dot := Regex.lit "." in
  Regex.seqs [Regex.WordB; d13; dot; d13; dot; d13; dot; d13; Regex.WordB].

(** [\b(?:[0-9a-fA-F]{1,4}:){7}[0-9a-fA-F]{1,4}\b] *)
Definition ipv6_re : Regex.re :=
  let h14 := Regex.Rep Regex.hexdigit 1 (Some 4%nat) in
  let grp := Regex.Seq h14 (Regex.lit ":") in
  Regex.seqs [Regex.WordB; grp; grp; grp; grp; grp; grp; grp; h14; Regex.WordB].

Definition put_if (b : bool) (k : string) (r : Regex.re)
           (m : gmap string Regex.re) : gmap string Regex.re :=
  if b then <[k := r]> m else m.

(** [NewRedactor]: the built-in entries first, then the custom ones, which
    overwrite a built-in entry of the same name. *)
Definition NewRedactor (config : RedactorConfig) : Redactor :=
  let patterns :=
    put_if (RedactIPv6 config) "ipv6" ipv6_re
    (put_if (RedactIPv4 config) "ipv4" ipv4_re
    (put_if (RedactCreditCards config) "credit_card" credit_card_re
    (put_if (RedactSSN config) "ssn" ssn_re
    (put_if (RedactPhones config) "phone" phone_re
    (put_if (RedactEmails config) "email" email_re ∅))))) in
  {| patterns := CustomPatterns config ∪ patterns; enabled := true |}.

Definition placeholders : gmap string string :=
  <["email" := "[EMAIL_REDACTED]"]>
  (<["phone" := "[PHONE_REDACTED]"]>
  (<["ssn" := "[SSN_REDACTED]"]>
  (<["credit_card" := "[CC_REDACTED]"]>
  (<["ipv4" := "[IPV4_REDACTED]"]>
  (<["ipv6" := "[IPV6_REDACTED]"]> ∅))))).

(** The orders in which a [range] over the map may visit its keys.  Go
    leaves the order unspecified and its runtime randomises it, so a call
    of [Redact] is determined only once the order is given. *)
Definition iteration_order {A : Type} (m : gmap string A) (order : list string) : Prop :=
  order ≡ₚ (map_to_list m).*1.

Definition redact_step (r : Redactor) (result : string) (piiType : string) : string :=
  match patterns r !! piiType with
  | Some pattern =>
    let placeholder := default "" (placeholders !! piiType) in
    let placeholder :=
      if bool_decide (placeholder = "") then "[REDACTED]" else placeholder in
    Regex.ReplaceAllString pattern result placeholder
  | None => result
  end.

(** [Redact], for the order [order] of the loop over [r.patterns]. *)
Definition Redact (r : Redactor) (order : list string) (text : string) : string :=
  if negb (enabled r) then text
  else fold_left (redact_step r) order text.

(** [DetectPII], for the order [order] of its loop. *)
Definition DetectPII (r : Redactor) (order : list string) (text : string) : list string :=
  List.filter (fun piiType =>
                 match patterns r !! piiType with
                 | Some pattern => Regex.MatchString pattern text
                 | None => false
                 end) order.

(** [RedactVariables]; [orders key] is the order of the loop of the
    [Redact] call on the value of [key]. *)
Definition RedactVariables (r : Redactor) (orders : string → list string)
           (variables : gmap string string) : gmap string string :=
  if negb (enabled r) then variables
  else map_imap (fun key value => Some (Redact r (orders key) value)) variables.

Definition Enable (r : Redactor) : Redactor :=
  {| patterns := patterns r; enabled := true |}.

Definition Disable (r : Redactor) : Redactor :=
  {| patterns := patterns r; enabled := false |}.

Definition IsEnabled (r : Redactor) : bool := enabled r.

(** [Mask]. *)
Definition Mask (text : string) (visibleChars : Z) : outcome string :=
  if GoStrings.len text <=? visibleChars then GoStrings.Repeat "*" (GoStrings.len text)
  else
    visible ←! GoStrings.slice_to text visibleChars;
    masked ←! GoStrings.Repeat "*" (GoStrings.len text - visibleChars);
    Done (visible ++ masked).

(** [MaskEmail]. *)
Definition MaskEmail (email : string) : outcome string :=
  match GoStrings.Split email "@" with
  | [localPart; domain] =>
    if GoStrings.len localPart <=? 1 then Done (localPart ++ "@" ++ domain)
    else
      b ←! GoStrings.byte_at localPart 0;
      stars ←! GoStrings.Repeat "*" (GoStrings.len localPart - 1);
      let masked := GoStrings.string_of_byte b ++ stars in
      Done (masked ++ "@" ++ domain)
  | _ => Done "[INVALID_EMAIL]"
  end.

End Pii.


(* ===================================================================== *)
(** * Package [pipeline]: the worker pool *)
(* ===================================================================== *)

Module Pool.

Record Message : Type := mkMessage {
  MsgID : string;
  Content : string;
  Source : string
}.

Record Result : Type := mkResult {
  MessageID : string;
  Success : bool
}.

(** A worker goroutine is at its [select], inside the handler with a
    message, or has returned. *)
Inductive worker_state : Type :=
| Idle
| Busy (msg : Message)
| Exited.

(** [WorkerPool] with its [PoolMetrics].  [tasks] and [results] are the
    buffered channels (oldest element first); a [*Message] may be nil.
    [tasksClosed] and [ctxDone] record [close(wp.tasks)] and the
    cancellation of [wp.ctx].  The three counters are [int64] values. *)
Record WorkerPool : Type := mkWorkerPool {
  tasks : list (option Message);
  tasksClosed : bool;
  results : list Result;
  resultsClosed : bool;
  workers : Z;
  running : list worker_state;
  ctxDone : bool;
  bufferSize : Z;
  Processed : Z;
  Errors : Z;
  Dropped : Z
}.

Record PoolConfig : Type := mkPoolConfig {
  Workers : Z;
  BufferSize : Z
}.

Definition DefaultPoolConfig : PoolConfig := {| Workers := 100; BufferSize := 10000 |}.

Definition NewWorkerPool (config : PoolConfig) : WorkerPool :=
  let workers := if Workers config <=? 0 then 100 else Workers config in
  let bufferSize := if BufferSize config <=? 0 then 10000 else BufferSize config in
  {| tasks := []; tasksClosed := false; results := []; resultsClosed := false;
     workers := workers; running := []; ctxDone := false;
     bufferSize := bufferSize; Processed := 0; Errors := 0; Dropped := 0 |}.

Definition set_running (wp : WorkerPool) (ws : list worker_state) : WorkerPool :=
  {| tasks := tasks wp; tasksClosed := tasksClosed wp; results := results wp;
     resultsClosed := resultsClosed wp; workers := workers wp; running := ws;
     ctxDone := ctxDone wp; bufferSize := bufferSize wp;
     Processed := Processed wp; Errors := Errors wp; Dropped := Dropped wp |}.

Definition set_tasks (wp : WorkerPool) (q : list (option Message)) : WorkerPool :=
  {| tasks := q; tasksClosed := tasksClosed wp; results := results wp;
     resultsClosed := resultsClosed wp; workers := workers wp;
     running := running wp; ctxDone := ctxDone wp; bufferSize := bufferSize wp;
     Processed := Processed wp; Errors := Errors wp; Dropped := Dropped wp |}.

Definition set_results (wp : WorkerPool) (q : list Result) : WorkerPool :=
  {| tasks := tasks wp; tasksClosed := tasksClosed wp; results := q;
     resultsClosed := resultsClosed wp; workers := workers wp;
     running := running wp; ctxDone := ctxDone wp; bufferSize := bufferSize wp;
     Processed := Processed wp; Errors := Errors wp; Dropped := Dropped wp |}.

Definition set_metrics (wp : WorkerPool) (p e dr : Z) : WorkerPool :=
  {| tasks := tasks wp; tasksClosed := tasksClosed wp; results := results wp;
     resultsClosed := resultsClosed wp; workers := workers wp;
     running := running wp; ctxDone := ctxDone wp; bufferSize := bufferSize wp;
     Processed := p; Errors := e; Dropped := dr |}.

(** [Start]: one goroutine per worker, each at its [select]. *)
Definition Start (wp : WorkerPool) : WorkerPool :=
  set_running wp (running wp ++ replicate (Z.to_nat (workers wp)) Idle)%list.

Definition qlen {A : Type} (q : list A) : Z := Z.of_nat (List.length q).

(** [n++] on an [int64]: it wraps around. *)
Definition incr64 (n : Z) : Z := Drain.wrap64 (n + 1).

(** The case a [select] statement takes.  Go chooses among the cases that
    can proceed, and takes [default] only when none can.  A send can proceed
    when the buffer has room, and also when the channel is closed: it then
    panics.  A receive from the [Done] channel of a context can proceed once
    the context is cancelled. *)
Inductive select_case : Type :=
| CaseSend
| CaseDone
| CaseDefault.

Definition send_ready (wp : WorkerPool) : bool :=
  tasksClosed wp || (qlen (tasks wp) <? bufferSize wp).

(** [Submit], for the case [c] its [select] takes; [None] when [c] cannot
    be taken in [wp]. *)
Definition Submit (wp : WorkerPool) (msg : option Message) (c : select_case)
  : option (outcome (WorkerPool * bool)) :=
  match c with
  | CaseSend =>
    if tasksClosed wp then Some Panic
    else if qlen (tasks wp) <? bufferSize wp
    then Some (Done (set_tasks wp (tasks wp ++ [msg])%list, true))
    else None
  | CaseDone =>
    if ctxDone wp then Some (Done (wp, false)) else None
  | CaseDefault =>
    if send_ready wp || ctxDone wp then None
    else Some (Done (set_metrics wp (Processed wp) (Errors wp) (incr64 (Dropped wp)),
                     false))
  end.

(** [SubmitBlocking] has the same two cases and no [default]. *)
Definition SubmitBlocking (wp : WorkerPool) (msg : option Message) (c : select_case)
  : option (outcome (WorkerPool * bool)) :=
  match c with
  | CaseDefault => None
  | _ => Submit wp msg c
  end.

(** The steps of the goroutines that share the pool: a call of [Submit]
    with the case taken, the steps of worker [i] (receive a task, return
    from the handler with or without an error, observe the cancellation),
    a receive from [wp.results], the two phases of [Stop]: [wp.cancel()],
    and, once [wp.wg.Wait()] has returned, the two [close] calls, and a
    call of [SubmitBlocking] with the case taken.

    A call of [Batch] is made of these steps: one [SubmitBlocking] call for
    each message, then at most [len(messages)] receives from [wp.results],
    between which the other goroutines take their steps; its timeout and
    the local [resultChan] do not touch the pool.  A receive from the closed
    and empty [wp.results] returns nil at once and changes nothing; it is
    not a step. *)
Inductive event : Type :=
| EvSubmit (msg : option Message) (c : select_case)
| EvReceive (i : nat)
| EvHandled (i : nat) (ok : bool)
| EvExit (i : nat)
| EvReadResult
| EvCancel
| EvClose
| EvSubmitBlocking (msg : option Message) (c : select_case).

(** A pool together with the history the properties speak about: the
    number of [Submit] and [SubmitBlocking] calls that returned, how many
    of them returned true, and whether the program panicked. *)
Record Run : Type := mkRun {
  pool : WorkerPool;
  submits : Z;
  accepted : Z;
  panicked : bool
}.

Definition all_exited (ws : list worker_state) : bool :=
  forallb (fun w => match w with Exited => true | _ => false end) ws.

Definition with_pool (r : Run) (wp : WorkerPool) : Run :=
  {| pool := wp; submits := submits r; accepted := accepted r; panicked := panicked r |}.

(** One step; [None] when the step cannot happen in this state.  After a
    panic the program has stopped.  A handler that returns without an error
    is followed by [Processed++] and by the division
    [totalTime / time.Duration(Processed)], which panics when the counter
    has wrapped around to 0. *)
Definition exec (r : Run) (e : event) : option Run :=
  let wp := pool r in
  if panicked r then None else
  match e with
  | EvSubmit msg c =>
    match Submit wp msg c with
    | Some (Done (wp', ret)) =>
      Some {| pool := wp'; submits := submits r + 1;
              accepted := if ret then accepted r + 1 else accepted r;
              panicked := false |}
    | Some _ =>
      Some {| pool := wp; submits := submits r; accepted := accepted r;
              panicked := true |}
    | None => None
    end
  | EvReceive i =>
    match running wp !! i, tasks wp with
    | Some Idle, Some msg :: q =>
      Some (with_pool r (set_running (set_tasks wp q) (<[i := Busy msg]> (running wp))))
    | Some Idle, None :: q => Some (with_pool r (set_tasks wp q))
    | _, _ => None
    end
  | EvHandled i ok =>
    match running wp !! i with
    | Some (Busy msg) =>
      if ok && (incr64 (Processed wp) =? 0) then
        Some {| pool := set_metrics wp (incr64 (Processed wp)) (Errors wp) (Dropped wp);
                submits := submits r; accepted := accepted r; panicked := true |}
      else
      let wp1 :=
        if ok then set_metrics wp (incr64 (Processed wp)) (Errors wp) (Dropped wp)
        else set_metrics wp (Processed wp) (incr64 (Errors wp)) (Dropped wp) in
      let result := {| MessageID := MsgID msg; Success := ok |} in
      let wp2 :=
        if qlen (results wp1) <? bufferSize wp1
        then set_results wp1 (results wp1 ++ [result])%list else wp1 in
      Some (with_pool r (set_running wp2 (<[i := Idle]> (running wp2))))
    | _ => None
    end
  | EvExit i =>
    match running wp !! i with
    | Some Idle =>
      if ctxDone wp
      then Some (with_pool r (set_running wp (<[i := Exited]> (running wp))))
      else None
    | _ => None
    end
  | EvReadResult =>
    match results wp with
    | _ :: q => Some (with_pool r (set_results wp q))
    | [] => None
    end
  | EvCancel =>
    Some (with_pool r
      {| tasks := tasks wp; tasksClosed := tasksClosed wp; results := results wp;
         resultsClosed := resultsClosed wp; workers := workers wp;
         running := running wp; ctxDone := true; bufferSize := bufferSize wp;
         Processed := Processed wp; Errors := Errors wp; Dropped := Dropped wp |})
  | EvClose =>
    if ctxDone wp && all_exited (running wp) && negb (tasksClosed wp) then
      Some (with_pool r
        {| tasks := tasks wp; tasksClosed := true; results := results wp;
           resultsClosed := true; workers := workers wp;
           running := running wp; ctxDone := true; bufferSize := bufferSize wp;
           Processed := Processed wp; Errors := Errors wp; Dropped := Dropped wp |})
    else None
  | EvSubmitBlocking msg c =>
    match SubmitBlocking wp msg c with
    | Some (Done (wp', ret)) =>
      Some {| pool := wp'; submits := submits r + 1;
              accepted := if ret then accepted r + 1 else accepted r;
              panicked := false |}
    | Some _ =>
      Some {| pool := wp; submits := submits r; accepted := accepted r;
              panicked := true |}
    | None => None
    end
  end.

Fixpoint execs (r : Run) (es : list event) : option Run :=
  match es with
  | [] => Some r
  | e :: rest =>
    match exec r e with
    | Some r' => execs r' rest
    | None => None
    end
  end.

(** A started pool on which nothing has been submitted yet. *)
Definition fresh (config : PoolConfig) : Run :=
  {| pool := Start (NewWorkerPool config); submits := 0; accepted := 0;
     panicked := false |}.

(** [Stop()] has completed: the context is cancelled and the channels are
    closed. *)
Definition stopped (wp : WorkerPool) : Prop :=
  ctxDone wp = true ∧ tasksClosed wp = true.

(** The steps of a call of [Stop()] on a pool whose [n] workers are idle:
    [wp.cancel()], the return of each worker, after which [wp.wg.Wait()]
    returns, and the two [close] calls. *)
Definition Stop_steps (n : nat) : list event :=
  EvCancel :: (EvExit <$> seq 0 n) ++ [EvClose].

Definition busy (ws : list worker_state) : Z :=
  qlen (List.filter (fun w => match w with Busy _ => true | _ => false end) ws).

(** [QueueSize]. *)
Definition QueueSize (wp : WorkerPool) : Z := qlen (tasks wp).

End Pool.


(* ===================================================================== *)
(** * The anomaly service ([cmd/anomaly]) *)
(* ===================================================================== *)

Module Anomaly.
Import PrimFloat.

(** [float64(n)] for a length or a counter. *)
Definition float_of_Z (n : Z) : float := of_uint63 (Uint63.of_Z n).

(** [time.Time] and [time.Duration] are nanosecond counts. *)
Record TimePoint : Type := mkTimePoint {
  Timestamp : Z;
  Value : float
}.

Record Baseline : Type := mkBaseline {
  Mean : float;
  StdDev : float;
  Count : Z
}.

(** [Alert] without its random [ID]; [Type] and [Value] are [Type_] and
    [AlertValue] here. *)
Record Alert : Type := mkAlert {
  Type_ : string;
  Severity : string;
  Title : string;
  Description : string;
  TemplateID : string;
  Source : string;
  AlertValue : float;
  Threshold : float;
  DetectedAt : Z
}.

Record Config : Type := mkConfig {
  AnomalyWindow : Z;
  ErrorThreshold : float;
  VolumeThreshold : float
}.

(** [AnomalyService] with its [MetricsStore]; [alertChan] is the buffered
    channel of capacity 100, oldest alert first. *)
Record AnomalyService : Type := mkAnomalyService {
  config : Config;
  errorCounts : gmap string (list TimePoint);
  volumeCounts : gmap string (list TimePoint);
  baselines : gmap string Baseline;
  alertChan : list Alert
}.

Definition NewAnomalyService (config : Config) : AnomalyService :=
  {| config := config; errorCounts := ∅; volumeCounts := ∅; baselines := ∅;
     alertChan := [] |}.

Definition minute : Z := 60 * 1000000000.

Definition calculateBaseline (points : list TimePoint) : Baseline :=
  if Z.of_nat (List.length points) =? 0 then
    {| Mean := 0; StdDev := 1; Count := 0 |}
  else
    let n := float_of_Z (Z.of_nat (List.length points)) in
    let sum := fold_left (fun sum p => (sum + Value p)%float) points 0%float in
    let mean := (sum / n)%float in
    let sumSquares :=
      fold_left (fun sumSquares p =>
                   let diff := (Value p - mean)%float in
                   (sumSquares + diff * diff)%float) points 0%float in
    let stdDev := sqrt (sumSquares / n) in
    let stdDev := if (stdDev =? 0)%float then 1%float else stdDev in
    {| Mean := mean; StdDev := stdDev; Count := Z.of_nat (List.length points) |}.

Definition getSeverity (zScore : float) : string :=
  if (5 <? zScore)%float then "critical"
  else if (4 <? zScore)%float then "high"
  else if (3 <? zScore)%float then "medium"
  else "low".

(** The non-blocking send on [alertChan]. *)
Definition send_alert (s : AnomalyService) (a : Alert) : AnomalyService :=
  if Z.of_nat (List.length (alertChan s)) <? 100 then
    {| config := config s; errorCounts := errorCounts s;
       volumeCounts := volumeCounts s; baselines := baselines s;
       alertChan := (alertChan s ++ [a])%list |}
  else s.

(** The baseline of [key]: the cached one, or the one computed from
    [points] and cached now. *)
Definition baseline_of (s : AnomalyService) (key : string)
           (points : list TimePoint) : AnomalyService * Baseline :=
  match baselines s !! key with
  | Some baseline => (s, baseline)
  | None =>
    let baseline := calculateBaseline points in
    ({| config := config s; errorCounts := errorCounts s;
        volumeCounts := volumeCounts s;
        baselines := <[key := baseline]> (baselines s);
        alertChan := alertChan s |}, baseline)
  end.

(** [checkErrorAnomaly]; [now] is what [time.Now()] reads during the
    call. *)
Definition checkErrorAnomaly (s : AnomalyService) (templateID : string) (now : Z)
  : AnomalyService :=
  let points := default [] (errorCounts s !! templateID) in
  if Z.of_nat (List.length points) <? 10 then s
  else
    let cutoff := now - 5 * minute in
    let recentCount :=
      fold_left (fun acc p => if cutoff <? Timestamp p then (acc + Value p)%float else acc)
                points 0%float in
    let '(s1, baseline) := baseline_of s ("error:" ++ templateID) points in
    if (0 <? StdDev baseline)%float then
      let zScore := ((recentCount - Mean baseline) / StdDev baseline)%float in
      if (ErrorThreshold (config s1) <? zScore)%float then
        send_alert s1
          {| Type_ := "error_spike"; Severity := getSeverity zScore;
             Title := "Error Rate Spike Detected";
             Description := "Error rate for template significantly above baseline";
             TemplateID := templateID; Source := "";
             AlertValue := recentCount;
             Threshold := (Mean baseline + StdDev baseline * ErrorThreshold (config s1))%float;
             DetectedAt := now |}
      else s1
    else s1.

(** [checkVolumeAnomaly]. *)
Definition checkVolumeAnomaly (s : AnomalyService) (source : string) (now : Z)
  : AnomalyService :=
  let points := default [] (volumeCounts s !! source) in
  if Z.of_nat (List.length points) <? 10 then s
  else
    let cutoff := now - 5 * minute in
    let '(recentVolume, count) :=
      fold_left (fun (acc : float * Z) p =>
                   if cutoff <? Timestamp p
                   then ((acc.1 + Value p)%float, acc.2 + 1) else acc)
                points (0%float, 0) in
    let recentVolume :=
      if 0 <? count then (recentVolume / float_of_Z count)%float else recentVolume in
    let '(s1, baseline) := baseline_of s ("volume:" ++ source) points in
    if (0 <? StdDev baseline)%float then
      let zScore := abs ((recentVolume - Mean baseline) / StdDev baseline) in
      if (VolumeThreshold (config s1) <? zScore)%float then
        send_alert s1
          {| Type_ := if (recentVolume <? Mean baseline)%float
                      then "volume_drop" else "volume_spike";
             Severity := getSeverity zScore;
             Title := "Log Volume Anomaly Detected";
             Description := "Log volume significantly different from baseline";
             TemplateID := ""; Source := source;
             AlertValue := recentVolume;
             Threshold := Mean baseline;
             DetectedAt := now |}
      else s1
    else s1.

Definition RecordError (s : AnomalyService) (templateID : string)
           (timestamp now : Z) : AnomalyService :=
  let points := (default [] (errorCounts s !! templateID)
                   ++ [{| Timestamp := timestamp; Value := 1 |}])%list in
  checkErrorAnomaly
    {| config := config s;
       errorCounts := <[templateID := points]> (errorCounts s);
       volumeCounts := volumeCounts s; baselines := baselines s;
       alertChan := alertChan s |} templateID now.

Definition RecordVolume (s : AnomalyService) (source : string) (count : float)
           (timestamp now : Z) : AnomalyService :=
  let points := (default [] (volumeCounts s !! source)
                   ++ [{| Timestamp := timestamp; Value := count |}])%list in
  checkVolumeAnomaly
    {| config := config s; errorCounts := errorCounts s;
       volumeCounts := <[source := points]> (volumeCounts s);
       baselines := baselines s; alertChan := alertChan s |} source now.

(** A receive from [alertChan]: one turn of the loop of
    [StartAlertProcessor], which logs the alert and drops it, or a receive
    by a holder of the channel that [GetAlerts] returns.  It takes the
    oldest alert; on an empty channel the receiver waits and nothing
    changes. *)
Definition receive_alert (s : AnomalyService) : AnomalyService :=
  {| config := config s; errorCounts := errorCounts s;
     volumeCounts := volumeCounts s; baselines := baselines s;
     alertChan := tail (alertChan s) |}.

(** The steps of a running service: the calls it receives, and the
    receives from [alertChan]. *)
Inductive call : Type :=
| CallRecordError (templateID : string) (timestamp now : Z)
| CallRecordVolume (source : string) (count : float) (timestamp now : Z)
| CallReceiveAlert.

Definition apply_call (s : AnomalyService) (c : call) : AnomalyService :=
  match c with
  | CallRecordError templateID timestamp now => RecordError s templateID timestamp now
  | CallRecordVolume source count timestamp now =>
    RecordVolume s source count timestamp now
  | CallReceiveAlert => receive_alert s
  end.

Definition serve (config : Config) (calls : list call) : AnomalyService :=
  fold_left apply_call calls (NewAnomalyService config).

End Anomaly.


(* ===================================================================== *)
(** * Properties of the Drain tree *)
(* ===================================================================== *)

Import Drain.

(** ** Outcomes *)

Lemma obind_Done {A B : Type} (m : outcome A) (f : A → outcome B) (b : B) :
  obind m f = Done b → ∃ a, m = Done a ∧ f a = Done b.
Proof. destruct m; simpl; intros H; try discriminate. eauto. Qed.

Ltac inv_bind H :=
  let a := fresh "a" in
  let Ha := fresh "Ha" in
  apply obind_Done in H; destruct H as (a & Ha & H).

(** ** Nodes below a node, and trees whose cluster pointers are allocated *)

Inductive reach : ClusterNode → ClusterNode → Prop :=
| reach_here (n : ClusterNode) : reach n n
| reach_child (n c m : ClusterNode) (k : string) :
    KeyToChildNode n !! k = Some c → reach c m → reach n m.

Definition node_ok (h : nat) (n : ClusterNode) : Prop :=
  ∀ m, reach n m → Forall (fun p => (p < h)%nat) (Clusters m).

(** Every cluster pointer stored in the tree points into the heap. *)
Definition wf (dt : DrainTree) : Prop :=
  node_ok (List.length (heap dt)) (root dt).

Lemma node_ok_child h n k c :
  node_ok h n → KeyToChildNode n !! k = Some c → node_ok h c.
Proof. intros Hn Hk m Hm. apply Hn. by eapply reach_child. Qed.

Lemma node_ok_mono h h' n : node_ok h n → (h ≤ h')%nat → node_ok h' n.
Proof.
  intros Hn Hle m Hm. eapply Forall_impl; [by apply Hn|].
  simpl. intros; lia.
Qed.

Lemma node_ok_fresh h d : node_ok h (mkClusterNode ∅ [] d).
Proof.
  intros m Hm. inversion Hm; subst; simpl in *.
  - constructor.
  - by rewrite lookup_empty in H.
Qed.

Lemma node_ok_append h n p :
  node_ok h n → (p < h)%nat → node_ok h (node_append n p).
Proof.
  intros Hn Hp m Hm. inversion Hm; subst; simpl in *.
  - apply Forall_app. split; [apply Hn; constructor | by repeat constructor].
  - apply Hn. by eapply reach_child.
Qed.

Lemma node_ok_set_child h n k c :
  node_ok h n → node_ok h c → node_ok h (node_set_child n k c).
Proof.
  intros Hn Hc m Hm. inversion Hm; subst; simpl in *.
  - apply Hn. constructor.
  - destruct (decide (k = k0)) as [->|Hne].
    + rewrite lookup_insert_eq in H. injection H as <-. by apply Hc.
    + rewrite lookup_insert_ne in H by done. apply Hn. by eapply reach_child.
Qed.

(** ** Reading the clusters of a node *)

Lemma derefs_sound h ps cs :
  derefs h ps = Done cs → Forall (fun pc => h !! pc.1 = Some pc.2) cs.
Proof.
  revert cs. induction ps as [|p ps IH]; simpl; intros cs H.
  - injection H as <-. constructor.
  - inv_bind H. inv_bind H. injection H as <-.
    unfold deref in Ha. destruct (h !! p) eqn:E; [|discriminate].
    injection Ha as <-. constructor; [done | by apply IH].
Qed.

Lemma derefs_total h ps :
  Forall (fun p => (p < List.length h)%nat) ps → ∃ cs, derefs h ps = Done cs.
Proof.
  induction 1 as [|p ps Hp _ [cs IH]]; [by eexists|].
  destruct (lookup_lt_is_Some_2 h p Hp) as [c Hc].
  cbn [derefs]. unfold deref. rewrite Hc, IH. by eexists.
Qed.

(** ** [findBestMatch] returns one of the clusters it was given *)

Lemma best_fold_in thr tokens cs st pc :
  (fold_left (best_step thr tokens) cs st).1 = Some pc →
  st.1 = Some pc ∨ pc ∈ cs.
Proof.
  revert st. induction cs as [|x cs IH]; simpl; intros st H.
  - by left.
  - apply IH in H. destruct H as [H|H]; [|right; by constructor].
    unfold best_step in H. destruct st as [b m].
    destruct (negb _); [by left|].
    destruct (_ && _); simpl in H; [|by left].
    injection H as <-. right. constructor.
Qed.

Lemma findBestMatch_in thr cs tokens pc :
  findBestMatch thr cs tokens = Some pc → pc ∈ cs.
Proof.
  unfold findBestMatch. intros H.
  apply best_fold_in in H. by destruct H.
Qed.

Lemma here_sound (h : list LogCluster) thr ps tokens p c :
  (cs ←! derefs h ps; Done (findBestMatch thr cs tokens)) = Done (Some (p, c)) →
  h !! p = Some c.
Proof.
  intros H. inv_bind H. injection H as H.
  apply findBestMatch_in in H. apply derefs_sound in Ha.
  rewrite Forall_forall in Ha. by apply (Ha (p, c)).
Qed.

Lemma here_total (h : list LogCluster) thr ps tokens :
  Forall (fun p => (p < List.length h)%nat) ps →
  ∃ r, (cs ←! derefs h ps; Done (findBestMatch thr cs tokens)) = Done r.
Proof. intros H. destruct (derefs_total _ _ H) as [cs ->]. simpl. by eexists. Qed.

(** ** [index] *)

Lemma index_total {A : Type} (s : list A) (i : Z) :
  0 ≤ i → i < slen s → ∃ x, index s i = Done x.
Proof.
  intros H0 H1. unfold index, slen in *.
  destruct (Z.leb_spec 0 i); [|lia]. destruct (Z.ltb_spec i (Z.of_nat (List.length s))); [|lia].
  simpl. destruct (lookup_lt_is_Some_2 s (Z.to_nat i)) as [x ->]; [lia|]. by eexists.
Qed.

(** ** [treeSearch]: what it returns is on the heap, and it returns *)

Lemma treeSearch_fuel_sound fuel dt node tokens depth p c :
  treeSearch_fuel fuel dt node tokens depth = Done (Some (p, c)) →
  heap dt !! p = Some c.
Proof.
  revert node depth. induction fuel as [|fuel IH]; simpl; intros node depth H;
    [discriminate|].
  destruct (_ || _); [by eapply here_sound|].
  destruct (depth =? 1).
  { destruct (KeyToChildNode node !! _); [by eapply IH | discriminate]. }
  destruct (depth - 2 <? slen tokens); [|by eapply here_sound].
  inv_bind H.
  destruct (KeyToChildNode node !! a); [by eapply IH|].
  destruct (KeyToChildNode node !! wildcard); [by eapply IH|].
  by eapply here_sound.
Qed.

Lemma treeSearch_fuel_total fuel dt node tokens depth :
  node_ok (List.length (heap dt)) node →
  1 ≤ depth → 1 ≤ Z.of_nat fuel → slen tokens + 2 - depth ≤ Z.of_nat fuel →
  ∃ r, treeSearch_fuel fuel dt node tokens depth = Done r.
Proof.
  revert node depth. induction fuel as [|fuel IH]; intros node depth Hok Hd Hf1 Hf;
    [lia|].
  simpl.
  assert (Hhere : ∃ r, (cs ←! derefs (heap dt) (Clusters node);
                        Done (findBestMatch (simThreshold dt) cs tokens)) = Done r).
  { apply here_total. apply Hok. constructor. }
  destruct (depth >=? maxDepth dt) eqn:E1; simpl; [done|].
  destruct (Z.gtb_spec depth (slen tokens)); simpl; [done|].
  assert (Hrec : ∀ c k, KeyToChildNode node !! k = Some c →
                 ∃ r, treeSearch_fuel fuel dt c tokens (depth + 1) = Done r).
  { intros c k Hk. apply IH; [by eapply node_ok_child | lia | lia | lia]. }
  destruct (Z.eqb_spec depth 1).
  { destruct (KeyToChildNode node !! _) eqn:E; [by eapply Hrec | by eexists]. }
  destruct (Z.ltb_spec (depth - 2) (slen tokens)); [|done].
  destruct (index_total tokens (depth - 2)) as [key ->]; [lia | lia |]. simpl.
  destruct (KeyToChildNode node !! key) eqn:E; [by eapply Hrec|].
  destruct (KeyToChildNode node !! wildcard) eqn:E'; [by eapply Hrec | done].
Qed.

Lemma fuel_for_enough (tokens : list string) depth :
  1 ≤ depth →
  1 ≤ Z.of_nat (fuel_for tokens) ∧ slen tokens + 2 - depth ≤ Z.of_nat (fuel_for tokens).
Proof. unfold fuel_for, slen. lia. Qed.

Lemma treeSearch_total dt tokens :
  wf dt → ∃ r, treeSearch dt (root dt) tokens 1 = Done r.
Proof.
  intros Hwf. destruct (fuel_for_enough tokens 1) as [H1 H2]; [lia|].
  by apply treeSearch_fuel_total.
Qed.

(** ** [addToTree] returns, and keeps the pointers of the tree allocated *)

Lemma addToTree_fuel_total fuel md node p tokens depth h :
  node_ok h node → (p < h)%nat →
  1 ≤ depth → 1 ≤ Z.of_nat fuel → slen tokens + 2 - depth ≤ Z.of_nat fuel →
  ∃ node', addToTree_fuel fuel md node p tokens depth = Done node' ∧ node_ok h node'.
Proof.
  revert node depth. induction fuel as [|fuel IH]; intros node depth Hok Hp Hd Hf1 Hf;
    [lia|].
  simpl.
  destruct (depth >=? md) eqn:E1; simpl.
  { eexists; split; [done | by apply node_ok_append]. }
  destruct (Z.gtb_spec depth (slen tokens)); simpl.
  { eexists; split; [done | by apply node_ok_append]. }
  assert (Hrec : ∀ key,
    ∃ node', (child' ←! addToTree_fuel fuel md
                 match KeyToChildNode node !! key with
                 | Some childNode => childNode
                 | None => mkClusterNode ∅ [] depth
                 end p tokens (depth + 1);
              Done (node_set_child node key child')) = Done node'
             ∧ node_ok h node').
  { intros key.
    destruct (IH (match KeyToChildNode node !! key with
                  | Some childNode => childNode
                  | None => mkClusterNode ∅ [] depth
                  end) (depth + 1)) as (c' & Hc' & Hokc'); [|done|lia|lia|lia|].
    - destruct (KeyToChildNode node !! key) eqn:E;
        [by eapply node_ok_child | apply node_ok_fresh].
    - rewrite Hc'. simpl. eexists; split; [done | by apply node_ok_set_child]. }
  destruct (Z.eqb_spec depth 1); [apply Hrec|].
  destruct (Z.ltb_spec (depth - 2) (slen tokens)).
  - destruct (index_total tokens (depth - 2)) as [key ->]; [lia | lia |]. simpl.
    apply Hrec.
  - eexists; split; [done | by apply node_ok_append].
Qed.

Lemma createCluster_total dt tokens ts :
  wf dt →
  ∃ dt', createCluster dt tokens ts
         = Done (dt', (List.length (heap dt),
                       {| ID := generateClusterID tokens;
                          Template := createTemplate tokens;
                          Tokens := tokens; Size := 1; FirstSeen := ts;
                          LastSeen := ts; SampleLogs := [] |}))
         ∧ wf dt'
         ∧ heap dt' = (heap dt ++ [{| ID := generateClusterID tokens;
                          Template := createTemplate tokens;
                          Tokens := tokens; Size := 1; FirstSeen := ts;
                          LastSeen := ts; SampleLogs := [] |}])%list
         ∧ clusters dt' = <[generateClusterID tokens := List.length (heap dt)]> (clusters dt)
         ∧ maxDepth dt' = maxDepth dt ∧ simThreshold dt' = simThreshold dt.
Proof.
  intros Hwf. unfold createCluster, addToTree. cbn [root heap maxDepth clusters].
  set (c := {| ID := generateClusterID tokens; Template := createTemplate tokens;
               Tokens := tokens; Size := 1; FirstSeen := ts; LastSeen := ts;
               SampleLogs := [] |}).
  destruct (fuel_for_enough tokens 1) as [H1 H2]; [lia|].
  destruct (addToTree_fuel_total (fuel_for tokens) (maxDepth dt) (root dt)
              (List.length (heap dt)) tokens 1 (List.length (heap dt ++ [c])%list))
    as (root' & Hr & Hok); [| |lia|done|done|].
  - eapply node_ok_mono; [apply Hwf|]. rewrite length_app. lia.
  - rewrite length_app. simpl. lia.
  - rewrite Hr. simpl. eexists. split; [done|]. by repeat split.
Qed.

Lemma createCluster_heap dt tokens ts dt' pc :
  createCluster dt tokens ts = Done (dt', pc) →
  ∃ c, heap dt' = (heap dt ++ [c])%list ∧ pc = (List.length (heap dt), c)
       ∧ ID c = generateClusterID tokens ∧ Tokens c = tokens
       ∧ Template c = createTemplate tokens ∧ Size c = 1 ∧ SampleLogs c = [].
Proof.
  unfold createCluster. intros H. inv_bind H. injection H as <- <-.
  eexists. by repeat split.
Qed.

Section DrainProperties.

Variable parseFloatOk : string → bool.

(** ** The effect of one [Parse] call on the heap *)

(** A call leaves the heap alone (no token), allocates one cluster (miss),
    or updates one cluster in place (hit). *)
Inductive heap_step (tokens : list string) (ts : Z)
  : list LogCluster → list LogCluster → ParseReturn → Prop :=
| hs_error h :
    heap_step tokens ts h h (ParseErr "empty log content")
| hs_create h c r :
    ID c = generateClusterID tokens → Tokens c = tokens →
    Template c = createTemplate tokens → Size c = 1 → SampleLogs c = [] →
    TemplateID r = ID c → ResTemplate r = Template c → IsNew r = true →
    heap_step tokens ts h (h ++ [c])%list (ParseOk r)
| hs_update h p c r :
    h !! p = Some c →
    TemplateID r = ID c → ResTemplate r = Template (updateCluster c tokens ts) →
    IsNew r = false →
    heap_step tokens ts h (<[p := updateCluster c tokens ts]> h) (ParseOk r).

Lemma Parse_heap dt line ts dt' r :
  Parse parseFloatOk dt line ts = Done (dt', r) →
  heap_step (preprocessTokens parseFloatOk (tokenize line)) ts (heap dt) (heap dt') r.
Proof.
  unfold Parse. destruct (slen (tokenize line) =? 0).
  { intros H. injection H as <- <-. constructor. }
  intros H. inv_bind H. inv_bind H.
  destruct a0 as [[dt1 c1] isNew]. injection H as <- <-.
  destruct a as [[p c]|].
  - injection Ha0 as <- <- <-. simpl.
    apply hs_update; try done.
    by eapply treeSearch_fuel_sound.
  - inv_bind Ha0. injection Ha0 as <- <- <-. destruct a as [dt1 pc].
    apply createCluster_heap in Ha1 as (c & Hh & -> & Hid & Htok & Htpl & Hsz & Hsl).
    simpl. rewrite Hh. by apply hs_create.
Qed.

(** ** [Parse] returns on a well-formed tree *)

Lemma store_wf dt p c : wf dt → wf (store dt p c).
Proof. unfold wf, store. simpl. by rewrite length_insert. Qed.

Lemma Parse_total dt line ts :
  wf dt →
  ∃ dt' r, Parse parseFloatOk dt line ts = Done (dt', r) ∧ wf dt'
           ∧ (tokenize line = [] → dt' = dt ∧ r = ParseErr "empty log content")
           ∧ (tokenize line ≠ [] → ∃ res, r = ParseOk res).
Proof.
  intros Hwf. unfold Parse.
  destruct (tokenize line) as [|t toks] eqn:Etok.
  { simpl. eexists _, _. split; [done|]. split; [done|]. split; [done|]. by intros []. }
  replace (slen (t :: toks) =? 0) with false
    by (symmetry; apply Z.eqb_neq; unfold slen; simpl; lia).
  set (processed := preprocessTokens parseFloatOk (t :: toks)).
  destruct (treeSearch_total dt processed Hwf) as [found ->]. simpl.
  destruct found as [[p c]|].
  - simpl. eexists _, _. split; [done|]. split; [by apply store_wf|].
    split; [done|]. intros _. by eexists.
  - destruct (createCluster_total dt processed ts Hwf) as (dt1 & -> & Hwf1 & _).
    simpl. eexists _, _. split; [done|]. split; [done|].
    split; [done|]. intros _. by eexists.
Qed.

Lemma NewDrainTree_wf config : wf (NewDrainTree config).
Proof. unfold wf, NewDrainTree. simpl. apply node_ok_fresh. Qed.

Lemma parse_all_total dt calls :
  wf dt → ∃ dt' rs, parse_all parseFloatOk dt calls = Done (dt', rs) ∧ wf dt'.
Proof.
  revert dt. induction calls as [|[line ts] calls IH]; intros dt Hwf; simpl.
  - by eexists _, _.
  - destruct (Parse_total dt line ts Hwf) as (dt1 & r & -> & Hwf1 & _). simpl.
    destruct (IH dt1 Hwf1) as (dt2 & rs & -> & Hwf2). simpl. by eexists _, _.
Qed.

Lemma parse_all_cons dt line ts calls dt' rs :
  parse_all parseFloatOk dt ((line, ts) :: calls) = Done (dt', rs) →
  ∃ dt1 r rs', Parse parseFloatOk dt line ts = Done (dt1, r)
               ∧ parse_all parseFloatOk dt1 calls = Done (dt', rs')
               ∧ rs = r :: rs'.
Proof.
  simpl. intros H. inv_bind H. inv_bind H. injection H as <- <-.
  destruct a as [dt1 r], a0 as [dt2 rs']. by eexists _, _, _.
Qed.

(** A property of the heap that every [Parse] call preserves holds after
    every run of calls. *)
Lemma parse_all_preserves (R : list LogCluster → list LogCluster → Prop) :
  (∀ h, R h h) →
  (∀ h1 h2 h3, R h1 h2 → R h2 h3 → R h1 h3) →
  (∀ tokens ts h h' r, heap_step tokens ts h h' r → R h h') →
  ∀ calls dt dt' rs,
    parse_all parseFloatOk dt calls = Done (dt', rs) → R (heap dt) (heap dt').
Proof.
  intros Hrefl Htrans Hstep. induction calls as [|[line ts] calls IH];
    intros dt dt' rs H.
  - injection H as <- <-. apply Hrefl.
  - apply parse_all_cons in H as (dt1 & r & rs' & HP & Hall & ->).
    eapply Htrans; [|by eapply IH]. eapply Hstep. by apply Parse_heap.
Qed.

End DrainProperties.

Section DrainClaims.

Variable parseFloatOk : string → bool.

(** ** Monotone generalization *)

Lemma updateCluster_keeps_wildcard c tokens ts i :
  Tokens c !! i = Some wildcard →
  Tokens (updateCluster c tokens ts) !! i = Some wildcard.
Proof.
  intros H. unfold updateCluster. cbn [Tokens].
  rewrite list_lookup_imap, H. simpl.
  destruct (tokens !! i); [|done]. by destruct (negb _).
Qed.

Definition wildcards_kept (h h' : list LogCluster) : Prop :=
  ∀ p c i, h !! p = Some c → Tokens c !! i = Some wildcard →
           ∃ c', h' !! p = Some c' ∧ Tokens c' !! i = Some wildcard.

Lemma heap_step_wildcards tokens ts h h' r :
  heap_step tokens ts h h' r → wildcards_kept h h'.
Proof.
  intros Hs p c i Hp Hi. destruct Hs as [h | h c0 r | h p0 c0 r Hp0].
  - eauto.
  - exists c. split; [|done]. by apply lookup_app_l_Some.
  - destruct (decide (p = p0)) as [->|Hne].
    + assert (c0 = c) as -> by congruence.
      eexists. split; [|by apply updateCluster_keeps_wildcard].
      apply list_lookup_insert_eq. by eapply lookup_lt_Some.
    + exists c. split; [|done]. by rewrite list_lookup_insert_ne.
Qed.

Lemma parse_all_wildcards dt calls dt' rs :
  parse_all parseFloatOk dt calls = Done (dt', rs) →
  wildcards_kept (heap dt) (heap dt').
Proof.
  apply (parse_all_preserves parseFloatOk wildcards_kept).
  - intros h p c i; eauto.
  - intros h1 h2 h3 H12 H23 p c i Hp Hi.
    destruct (H12 p c i Hp Hi) as (c2 & Hp2 & Hi2). by eapply H23.
  - apply heap_step_wildcards.
Qed.

(** C1.  Take any tree built by [NewDrainTree] and any run of [Parse]
    calls on it, followed by any further run of [Parse] calls.  Both runs
    return, and every position of every cluster that holds the wildcard
    [<*>] after the first run still holds it after the second: a wildcard
    never reverts to a literal. *)
Theorem monotone_generalization
        (config : Config) (before after : list (string * Z)) :
  ∃ dt1 rs1 dt2 rs2,
    parse_all parseFloatOk (NewDrainTree config) before = Done (dt1, rs1)
    ∧ parse_all parseFloatOk dt1 after = Done (dt2, rs2)
    ∧ ∀ (p : nat) (c : LogCluster) (i : nat),
        heap dt1 !! p = Some c → Tokens c !! i = Some wildcard →
        ∃ c', heap dt2 !! p = Some c' ∧ Tokens c' !! i = Some wildcard.
Proof.
  destruct (parse_all_total parseFloatOk (NewDrainTree config) before)
    as (dt1 & rs1 & H1 & Hwf1); [apply NewDrainTree_wf|].
  destruct (parse_all_total parseFloatOk dt1 after) as (dt2 & rs2 & H2 & _);
    [done|].
  exists dt1, rs1, dt2, rs2. split; [done|]. split; [done|].
  by eapply parse_all_wildcards.
Qed.

(** ** Sample logs *)

Definition no_samples (h : list LogCluster) : Prop :=
  Forall (fun c => SampleLogs c = []) h.

Lemma heap_step_no_samples tokens ts h h' r :
  heap_step tokens ts h h' r → no_samples h → no_samples h'.
Proof.
  unfold no_samples. intros Hs Hh.
  destruct Hs as [h | h c0 r ? ? ? ? Hsl | h p0 c0 r Hp0].
  - done.
  - apply Forall_app. split; [done | by repeat constructor].
  - apply Forall_insert; [done|]. simpl.
    rewrite Forall_forall in Hh. apply Hh. by eapply list_elem_of_lookup_2.
Qed.

(** C10.  After any run of [Parse] calls on a tree built by
    [NewDrainTree], every cluster of the tree, whether read through its
    pointer or looked up by id with [GetCluster], has an empty [SampleLogs]
    slice: no operation of the tree appends a line to it. *)
Theorem sample_logs_stay_empty (config : Config) (calls : list (string * Z)) :
  ∃ dt rs,
    parse_all parseFloatOk (NewDrainTree config) calls = Done (dt, rs)
    ∧ (∀ (p : nat) (c : LogCluster), heap dt !! p = Some c → SampleLogs c = [])
    ∧ (∀ id c, GetCluster dt id = Some c → SampleLogs c = []).
Proof.
  destruct (parse_all_total parseFloatOk (NewDrainTree config) calls)
    as (dt & rs & H & _); [apply NewDrainTree_wf|].
  exists dt, rs. split; [done|].
  assert (Hall : no_samples (heap dt)).
  { pose proof (parse_all_preserves parseFloatOk
                  (fun h h' => no_samples h → no_samples h')) as Hp.
    simpl in Hp. eapply Hp; [auto | auto | apply heap_step_no_samples | apply H |].
    constructor. }
  unfold no_samples in Hall. rewrite Forall_forall in Hall.
  split.
  - intros p c Hp. apply Hall. by eapply list_elem_of_lookup_2.
  - intros id c. unfold GetCluster. intros Hg.
    destruct (clusters dt !! id) as [p|]; [|done]. simpl in Hg.
    apply Hall. by eapply list_elem_of_lookup_2.
Qed.

(** ** Failure semantics *)

(** C7.  On a tree built by [NewDrainTree] and used for any run of [Parse]
    calls, a further call [Parse(line, timestamp)] returns: it neither
    panics nor fails to terminate.  It returns the error, leaving the tree
    as it was, when [line] has no token, and it returns a result when [line]
    has a token; so it returns an error exactly when tokenizing yields zero
    tokens. *)
Theorem Parse_fails_exactly_on_empty
        (config : Config) (calls : list (string * Z)) (line : string) (ts : Z) :
  ∃ dt rs,
    parse_all parseFloatOk (NewDrainTree config) calls = Done (dt, rs)
    ∧ ((tokenize line = []
        ∧ Parse parseFloatOk dt line ts = Done (dt, ParseErr "empty log content"))
       ∨ (tokenize line ≠ []
          ∧ ∃ dt' res, Parse parseFloatOk dt line ts = Done (dt', ParseOk res))).
Proof.
  destruct (parse_all_total parseFloatOk (NewDrainTree config) calls)
    as (dt & rs & H & Hwf); [apply NewDrainTree_wf|].
  exists dt, rs. split; [done|].
  destruct (Parse_total parseFloatOk dt line ts Hwf) as (dt' & r & HP & _ & He & Hne).
  destruct (tokenize line) as [|t toks] eqn:E.
  - left. split; [done|]. destruct He as [-> ->]; done.
  - right. split; [done|]. destruct Hne as [res ->]; [done|]. by eexists _, _.
Qed.

End DrainClaims.

(* ===================================================================== *)
(** * Template ids *)
(* ===================================================================== *)

(** ** The hexadecimal rendering is faithful *)

Lemma hexval_hexchar d : 0 ≤ d < 16 → Fnv.hexval (Fnv.hexchar d) = Some d.
Proof.
  intros H.
  assert (Hd : d = 0 ∨ d = 1 ∨ d = 2 ∨ d = 3 ∨ d = 4 ∨ d = 5 ∨ d = 6 ∨ d = 7
               ∨ d = 8 ∨ d = 9 ∨ d = 10 ∨ d = 11 ∨ d = 12 ∨ d = 13 ∨ d = 14
               ∨ d = 15) by lia.
  repeat (destruct Hd as [->|Hd]; [reflexivity|]). by subst.
Qed.

Lemma unhex_app a s t :
  Fnv.unhex a (s ++ t) = match Fnv.unhex a s with
                         | Some v => Fnv.unhex v t
                         | None => None
                         end.
Proof.
  revert a. induction s as [|c s IH]; intros a; simpl; [done|].
  destruct (Fnv.hexval c); [apply IH | done].
Qed.

Lemma string_app_cons (c : ascii) (s t : string) :
  String c s ++ t = String c (s ++ t).
Proof. reflexivity. Qed.

Lemma string_app_assoc (s t u : string) : (s ++ t) ++ u = s ++ (t ++ u).
Proof.
  induction s as [|c s IH]; [done|].
  rewrite !string_app_cons. by rewrite IH.
Qed.

Lemma hex_go_acc fuel n acc :
  Fnv.hex_go fuel n acc = Fnv.hex_go fuel n EmptyString ++ acc.
Proof.
  revert n acc. induction fuel as [|fuel IH]; intros n acc; simpl; [done|].
  destruct (n <? 16); [done|].
  rewrite IH. rewrite (IH _ (String _ EmptyString)).
  by rewrite string_app_assoc.
Qed.

Lemma unhex_hex_go fuel n :
  0 ≤ n < 16 ^ Z.of_nat fuel → (0 < fuel)%nat →
  Fnv.unhex 0 (Fnv.hex_go fuel n EmptyString) = Some n.
Proof.
  revert n. induction fuel as [|fuel IH]; intros n Hn Hf; [lia|].
  simpl. destruct (Z.ltb_spec n 16).
  - simpl. rewrite hexval_hexchar by (apply Z.mod_pos_bound; lia).
    f_equal. rewrite Z.mod_small; lia.
  - rewrite hex_go_acc, unhex_app.
    assert (Hfuel : (0 < fuel)%nat).
    { destruct fuel; [|lia]. simpl in Hn. lia. }
    rewrite IH; [| |done].
    + simpl. rewrite hexval_hexchar by (apply Z.mod_pos_bound; lia).
      f_equal. pose proof (Z.div_mod n 16). lia.
    + rewrite Nat2Z.inj_succ, Z.pow_succ_r in Hn by lia.
      split; [apply Z.div_pos; lia | apply Z.div_lt_upper_bound; lia].
Qed.

(** Reading the digits of [hex n] back gives [n]; in particular every
    character of [hex n] is one of [0-9a-f]. *)
Lemma unhex_hex n : 0 ≤ n < 2 ^ 64 → Fnv.unhex 0 (Fnv.hex n) = Some n.
Proof.
  intros H. apply unhex_hex_go; [|lia].
  change (16 ^ Z.of_nat 16) with (2 ^ 64). lia.
Qed.

Lemma hex_go_length fuel n acc :
  (0 < fuel)%nat →
  (String.length acc < String.length (Fnv.hex_go fuel n acc)
   ≤ fuel + String.length acc)%nat.
Proof.
  revert n acc. induction fuel as [|fuel IH]; intros n acc Hf; [lia|].
  simpl. destruct (n <? 16); [simpl; lia|].
  destruct fuel as [|fuel]; [simpl; lia|].
  specialize (IH (n / 16) (String (Fnv.hexchar (n mod 16)) acc)).
  change (String.length (String (Fnv.hexchar (n mod 16)) acc))
    with (S (String.length acc)) in IH.
  lia.
Qed.

(** Between one and sixteen digits. *)
Lemma hex_length n : (1 ≤ String.length (Fnv.hex n) ≤ 16)%nat.
Proof. pose proof (hex_go_length 16 n EmptyString). unfold Fnv.hex. simpl in *. lia. Qed.

Lemma sum64a_range s : 0 ≤ Fnv.sum64a s < 2 ^ 64.
Proof.
  unfold Fnv.sum64a.
  assert (H : ∀ h, 0 ≤ h < 2 ^ 64 → 0 ≤ Fnv.write h s < 2 ^ 64).
  { induction s as [|c s IH]; intros h Hh; simpl; [done|].
    apply IH. unfold Fnv.step, Fnv.two64. apply Z.mod_pos_bound. lia. }
  apply H. unfold Fnv.offset64. lia.
Qed.

Section TemplateIds.

Variable parseFloatOk : string → bool.

(** ** Ids are kept *)

Definition ids_kept (h h' : list LogCluster) : Prop :=
  ∀ p c, h !! p = Some c → ∃ c', h' !! p = Some c' ∧ ID c' = ID c.

Lemma heap_step_ids tokens ts h h' r : heap_step tokens ts h h' r → ids_kept h h'.
Proof.
  intros Hs p c Hp. destruct Hs as [h | h c0 r | h p0 c0 r Hp0].
  - eauto.
  - exists c. split; [|done]. by apply lookup_app_l_Some.
  - destruct (decide (p = p0)) as [->|Hne].
    + assert (c0 = c) as -> by congruence.
      eexists. split;
        [apply list_lookup_insert_eq; by eapply lookup_lt_Some | reflexivity].
    + exists c. split; [|done]. by rewrite list_lookup_insert_ne.
Qed.

Lemma parse_all_ids dt calls dt' rs :
  parse_all parseFloatOk dt calls = Done (dt', rs) → ids_kept (heap dt) (heap dt').
Proof.
  apply (parse_all_preserves parseFloatOk ids_kept).
  - intros h p c; eauto.
  - intros h1 h2 h3 H12 H23 p c Hp.
    destruct (H12 p c Hp) as (c2 & Hp2 & Hi2).
    destruct (H23 p c2 Hp2) as (c3 & Hp3 & Hi3).
    exists c3. split; [done | congruence].
  - apply heap_step_ids.
Qed.

(** ** Every id is the hash of the tokens its cluster was created from *)

(** [cur] arises from the creation tokens [T] by turning positions into
    wildcards. *)
Definition generalizes (T cur : list string) : Prop :=
  Forall2 (fun t x => x = t ∨ x = wildcard) T cur.

Definition id_of (T : list string) : string :=
  "tmpl_" ++ Fnv.hex (Fnv.sum64a (GoStrings.Join T " ")).

Definition ids_derived (h : list LogCluster) : Prop :=
  Forall (fun c => ∃ T, ID c = id_of T ∧ generalizes T (Tokens c)) h.

Lemma generalizes_refl T : generalizes T T.
Proof. induction T; constructor; auto. Qed.

Lemma generalizes_update T c tokens ts :
  generalizes T (Tokens c) → generalizes T (Tokens (updateCluster c tokens ts)).
Proof.
  unfold generalizes, updateCluster. cbn [Tokens]. intros H.
  apply Forall2_same_length_lookup_2.
  - rewrite length_imap. by eapply Forall2_length.
  - intros i t x Ht Hx. rewrite list_lookup_imap in Hx.
    destruct (Tokens c !! i) as [y|] eqn:Ey; [|done]. simpl in Hx.
    pose proof (Forall2_lookup_lr _ _ _ _ _ _ H Ht Ey) as Hty.
    destruct (tokens !! i); [|by injection Hx as <-].
    destruct (negb _); injection Hx as <-; auto.
Qed.

Lemma heap_step_ids_derived tokens ts h h' r :
  heap_step tokens ts h h' r → ids_derived h → ids_derived h'.
Proof.
  unfold ids_derived. intros Hs Hh.
  destruct Hs as [h | h c0 r Hid Htok | h p0 c0 r Hp0].
  - done.
  - apply Forall_app. split; [done|]. constructor; [|constructor].
    exists tokens. split; [done|]. rewrite Htok. apply generalizes_refl.
  - apply Forall_insert; [done|].
    rewrite Forall_forall in Hh.
    destruct (Hh c0) as (T & HT & Hg); [by eapply list_elem_of_lookup_2|].
    exists T. split; [done | by apply generalizes_update].
Qed.

Lemma parse_all_ids_derived dt calls dt' rs :
  parse_all parseFloatOk dt calls = Done (dt', rs) →
  ids_derived (heap dt) → ids_derived (heap dt').
Proof.
  intros H.
  pose proof (parse_all_preserves parseFloatOk
                (fun h h' => ids_derived h → ids_derived h')) as Hp.
  simpl in Hp. eapply Hp; [auto | auto | apply heap_step_ids_derived | apply H].
Qed.

Lemma heap_step_created tokens ts h h' res :
  heap_step tokens ts h h' (ParseOk res) → IsNew res = true →
  ∃ c, h' = (h ++ [c])%list ∧ ID c = generateClusterID tokens
       ∧ Tokens c = tokens ∧ TemplateID res = ID c.
Proof.
  intros Hs Hnew. remember (ParseOk res) as r eqn:Er.
  destruct Hs as [h | h c0 r Hid Htok Htpl Hsz Hsl Hrid Hrt Hrn
                  | h p0 c0 r Hp0 Hrid Hrt Hrn].
  - discriminate.
  - injection Er as ->. by exists c0.
  - injection Er as ->. congruence.
Qed.

(** C4.  Take a tree built by [NewDrainTree], any run of [Parse] calls,
    one more call [Parse(line, ts)], and any further run of calls; all of
    them return.  (1) When the call on [line] creates a cluster, the id it
    reports is ["tmpl_"] followed by the lower-case hexadecimal rendering of
    the 64-bit FNV-1a hash of the preprocessed tokens of [line] joined by
    single spaces; the cluster is the one allocated by the call, and it
    carries this id then and after the further calls.  (2) Every cluster
    present before the call keeps its id through the call and the further
    calls.  (3) At the end the id of every cluster is still the hash of the
    tokens it was created from, of which its current tokens are a
    generalization by wildcards. *)
Theorem template_id_derived_and_stable
        (config : Config) (before : list (string * Z))
        (line : string) (ts : Z) (after : list (string * Z)) :
  ∃ dt1 rs1 dt2 r dt3 rs3,
    parse_all parseFloatOk (NewDrainTree config) before = Done (dt1, rs1)
    ∧ Parse parseFloatOk dt1 line ts = Done (dt2, r)
    ∧ parse_all parseFloatOk dt2 after = Done (dt3, rs3)
    ∧ (∀ res, r = ParseOk res → IsNew res = true →
         TemplateID res
         = "tmpl_" ++ Fnv.hex (Fnv.sum64a
             (GoStrings.Join (preprocessTokens parseFloatOk (tokenize line)) " "))
         ∧ ∃ c c',
             heap dt2 !! List.length (heap dt1) = Some c
             ∧ Tokens c = preprocessTokens parseFloatOk (tokenize line)
             ∧ ID c = TemplateID res
             ∧ heap dt3 !! List.length (heap dt1) = Some c'
             ∧ ID c' = TemplateID res)
    ∧ (∀ (p : nat) (c : LogCluster), heap dt1 !! p = Some c →
         ∃ c2 c3, heap dt2 !! p = Some c2 ∧ ID c2 = ID c
                  ∧ heap dt3 !! p = Some c3 ∧ ID c3 = ID c)
    ∧ (∀ (p : nat) (c : LogCluster), heap dt3 !! p = Some c →
         ∃ T, ID c = "tmpl_" ++ Fnv.hex (Fnv.sum64a (GoStrings.Join T " "))
              ∧ generalizes T (Tokens c)).
Proof.
  destruct (parse_all_total parseFloatOk (NewDrainTree config) before)
    as (dt1 & rs1 & H1 & Hwf1); [apply NewDrainTree_wf|].
  destruct (Parse_total parseFloatOk dt1 line ts Hwf1) as (dt2 & r & H2 & Hwf2 & _).
  destruct (parse_all_total parseFloatOk dt2 after) as (dt3 & rs3 & H3 & _); [done|].
  exists dt1, rs1, dt2, r, dt3, rs3.
  pose proof (Parse_heap parseFloatOk _ _ _ _ _ H2) as Hstep.
  pose proof (parse_all_ids _ _ _ _ H3) as Hk3.
  split; [done|]. split; [done|]. split; [done|]. split; [|split].
  - intros res0 -> Hnew.
    destruct (heap_step_created _ _ _ _ _ Hstep Hnew) as (c0 & Hh2 & Hid & Htok & Hrid).
    split; [by rewrite Hrid, Hid|].
    assert (Hc0 : heap dt2 !! List.length (heap dt1) = Some c0).
    { rewrite Hh2. by apply list_lookup_middle. }
    destruct (Hk3 _ _ Hc0) as (c' & Hc' & Hid').
    exists c0, c'. split; [done|]. split; [done|]. split; [done|].
    split; [done | congruence].
  - intros p c Hp.
    destruct (heap_step_ids _ _ _ _ _ Hstep p c Hp) as (c2 & Hp2 & Hi2).
    destruct (Hk3 p c2 Hp2) as (c3 & Hp3 & Hi3).
    exists c2, c3. repeat split; try done. congruence.
  - intros p c Hp.
    assert (Hd : ids_derived (heap dt3)).
    { eapply parse_all_ids_derived; [apply H3|].
      eapply heap_step_ids_derived; [apply Hstep|].
      eapply parse_all_ids_derived; [apply H1|]. constructor. }
    unfold ids_derived in Hd. rewrite Forall_forall in Hd.
    apply (Hd c). by eapply list_elem_of_lookup_2.
Qed.

End TemplateIds.

(* ===================================================================== *)
(** * Binary64: the order of the floats, and quotients of two lengths *)
(* ===================================================================== *)

(** The comparisons and the division of [float64] are those of the
    primitive floats, which the standard library specifies by [SFltb],
    [SFleb] and [SFdiv] on [spec_float]; [float64(n)] rounds by
    [binary_normalize].  The facts below are read off these functions. *)
Module Float64.
Import SpecFloat FloatOps.

(** ** The order *)

(** [SFcompare] orders the floats other than NaN by sign, exponent and
    mantissa; its transitivity is read off by cases. *)
Ltac sf_cases :=
  repeat match goal with
  | H : context [Z.compare ?a ?b] |- _ => destruct (Z.compare_spec a b)
  | |- context [Z.compare ?a ?b] => destruct (Z.compare_spec a b)
  | H : context [Pos.compare_cont Eq ?a ?b] |- _ =>
      change (Pos.compare_cont Eq a b) with (Pos.compare a b) in *;
      destruct (Pos.compare_spec a b)
  | |- context [Pos.compare_cont Eq ?a ?b] =>
      change (Pos.compare_cont Eq a b) with (Pos.compare a b) in *;
      destruct (Pos.compare_spec a b)
  end.

Ltac sf_order :=
  unfold SFltb, SFleb, SFcompare;
  repeat match goal with
  | x : spec_float |- _ => destruct x as [[]|[]| |[] ? ?]
  end; intros; try discriminate; try reflexivity;
  sf_cases; subst; simpl in *; try discriminate; try reflexivity; try lia.

Lemma SFltb_leb_trans x y z : SFltb x y = true -> SFleb y z = true -> SFltb x z = true.
Proof. sf_order. Qed.

Lemma SFleb_ltb_trans x y z : SFleb x y = true -> SFltb y z = true -> SFltb x z = true.
Proof. sf_order. Qed.

Lemma SFleb_trans x y z : SFleb x y = true -> SFleb y z = true -> SFleb x z = true.
Proof. sf_order. Qed.

Lemma SFltb_leb x y : SFltb x y = true -> SFleb x y = true.
Proof. sf_order. Qed.

Lemma SFltb_trans x y z : SFltb x y = true -> SFltb y z = true -> SFltb x z = true.
Proof. sf_order. Qed.

Lemma SFltb_irrefl x : SFltb x x = false.
Proof. sf_order. Qed.

(** ** Rounding an integer: digits, shifts and round-to-nearest-even *)

(** The number of binary digits of a mantissa. *)
Local Abbreviation D p := (Zpos (digits2_pos p)).

Lemma digits2_pos_bounds p : 2 ^ (D p - 1) <= Zpos p < 2 ^ D p.
Proof.
  induction p as [p IH|p IH|]; cbn [digits2_pos].
  - rewrite Pos2Z.inj_succ.
    replace (Z.succ (D p) - 1) with (Z.succ (D p - 1)) by lia.
    rewrite !Z.pow_succ_r by lia. lia.
  - rewrite Pos2Z.inj_succ.
    replace (Z.succ (D p) - 1) with (Z.succ (D p - 1)) by lia.
    rewrite !Z.pow_succ_r by lia. lia.
  - cbn. lia.
Qed.

Lemma digits2_pos_unique p d : 2 ^ (d - 1) <= Zpos p < 2 ^ d -> D p = d.
Proof.
  intros [Hlo Hhi]. pose proof (digits2_pos_bounds p) as [Hlo' Hhi'].
  destruct (Z.lt_trichotomy (D p) d) as [Hlt|[Heq|Hgt]]; [|exact Heq|].
  - assert (2 ^ D p <= 2 ^ (d - 1)) by (apply Z.pow_le_mono_r; lia). lia.
  - assert (2 ^ d <= 2 ^ (D p - 1)) by (apply Z.pow_le_mono_r; lia). lia.
Qed.

Lemma Zdigits2_nonneg_unique q d :
  2 ^ (d - 1) <= q < 2 ^ d -> 0 < q -> Zdigits2 q = d.
Proof.
  intros H Hq. destruct q as [|p|p]; try lia. cbn [Zdigits2].
  by apply digits2_pos_unique.
Qed.

(** A shift record as a number: the mantissa followed by the round bit and
    the sticky bit.  A shift by one bit and the rounding to nearest, ties to
    even, are monotone in it. *)
Definition code (r : shr_record) : Z :=
  4 * shr_m r + 2 * Z.b2z (shr_r r) + Z.b2z (shr_s r).

Lemma shr_1_m r : 0 <= shr_m r -> shr_m (shr_1 r) = shr_m r / 2.
Proof.
  destruct r as [[|[p|p|]|p] r s]; cbn [shr_m shr_1]; intros H; try lia.
  - reflexivity.
  - rewrite Pos2Z.inj_xI. apply Z.div_unique with 1; lia.
  - rewrite Pos2Z.inj_xO. apply Z.div_unique with 0; lia.
  - reflexivity.
Qed.

Lemma shr_1_code r :
  0 <= shr_m r -> code (shr_1 r) = 2 * shr_m r + Z.b2z (shr_r r || shr_s r).
Proof.
  destruct r as [[|[p|p|]|p] r s]; cbn [shr_m shr_1]; intros H; try lia;
    unfold code; cbn [shr_m shr_r shr_s Z.b2z]; destruct r, s; cbn [orb Z.b2z]; lia.
Qed.

Lemma shr_1_mono a b :
  0 <= shr_m a -> 0 <= shr_m b -> code a <= code b -> code (shr_1 a) <= code (shr_1 b).
Proof.
  intros Ha Hb. rewrite !shr_1_code by assumption. unfold code.
  destruct (shr_r a), (shr_s a), (shr_r b), (shr_s b); cbn [orb Z.b2z]; lia.
Qed.

Lemma iter_shr_m k r : 0 <= shr_m r -> shr_m (Nat.iter k shr_1 r) = shr_m r / 2 ^ Z.of_nat k.
Proof.
  intros Hr. induction k as [|k IH].
  - cbn. by rewrite Z.div_1_r.
  - change (Nat.iter (S k) shr_1 r) with (shr_1 (Nat.iter k shr_1 r)). rewrite shr_1_m.
    + rewrite IH, Nat2Z.inj_succ, Z.pow_succ_r by lia.
      rewrite Z.div_div by lia. f_equal. lia.
    + rewrite IH. apply Z.div_pos; lia.
Qed.

Lemma iter_shr_nonneg k r : 0 <= shr_m r -> 0 <= shr_m (Nat.iter k shr_1 r).
Proof. intros Hr. rewrite iter_shr_m by done. apply Z.div_pos; lia. Qed.

Lemma iter_shr_mono k a b :
  0 <= shr_m a -> 0 <= shr_m b -> code a <= code b ->
  code (Nat.iter k shr_1 a) <= code (Nat.iter k shr_1 b).
Proof.
  intros Ha Hb Hab. induction k as [|k IH]; [exact Hab|].
  change (code (shr_1 (Nat.iter k shr_1 a)) <= code (shr_1 (Nat.iter k shr_1 b))).
  apply shr_1_mono; auto using iter_shr_nonneg.
Qed.

(** [shr] shifts by iterating [shr_1]. *)
Lemma iter_pos_nat {A} (f : A -> A) p x : iter_pos f p x = Nat.iter (Pos.to_nat p) f x.
Proof.
  revert x. induction p as [p IH|p IH|]; intros x; cbn [iter_pos].
  - rewrite !IH, Pos2Nat.inj_xI.
    replace (S (2 * Pos.to_nat p)) with (Pos.to_nat p + (Pos.to_nat p + 1))%nat by lia.
    rewrite !Nat.iter_add. reflexivity.
  - rewrite !IH, Pos2Nat.inj_xO.
    replace (2 * Pos.to_nat p)%nat with (Pos.to_nat p + Pos.to_nat p)%nat by lia.
    rewrite Nat.iter_add. reflexivity.
  - reflexivity.
Qed.

Lemma shr_spec mrs e n :
  shr mrs e n = (Nat.iter (Z.to_nat n) shr_1 mrs, e + Z.max n 0).
Proof.
  destruct n as [|p|p]; cbn [shr Z.to_nat Nat.iter].
  - f_equal; lia.
  - rewrite iter_pos_nat. f_equal; lia.
  - f_equal; lia.
Qed.

(** The mantissa of a shift record rounded to nearest, ties to even. *)
Definition rne (r : shr_record) : Z := round_nearest_even (shr_m r) (loc_of_shr_record r).

Lemma rne_bounds r : shr_m r <= rne r <= shr_m r + 1.
Proof.
  unfold rne. destruct r as [m [] []]; cbn; try lia. destruct (Z.even m); lia.
Qed.

Lemma rne_mono a b : code a <= code b -> rne a <= rne b.
Proof.
  unfold rne, code. destruct a as [m [] []], b as [m' [] []]; cbn; intros H; try lia.
  all: try (destruct (Z.even m) eqn:E; try lia).
  all: try (destruct (Z.even m') eqn:E'; try lia).
  all: destruct (Z.eq_dec m m'); [subst; congruence | lia].
Qed.

Lemma shr_record_of_loc_m m l : shr_m (shr_record_of_loc m l) = m.
Proof. by destruct l as [|[]]. Qed.

(** [binary_round_aux]: shift to the exponent of the format, round, and
    shift once more if the rounding carried into a further digit. *)
Lemma bra_unfold sx mx ex lx :
  binary_round_aux prec emax sx mx ex lx =
  let n1 := fexp prec emax (Zdigits2 mx + ex) - ex in
  let r1 := Nat.iter (Z.to_nat n1) shr_1 (shr_record_of_loc mx lx) in
  let e1 := ex + Z.max n1 0 in
  let q1 := rne r1 in
  let n2 := fexp prec emax (Zdigits2 q1 + e1) - e1 in
  let q2 := shr_m (Nat.iter (Z.to_nat n2) shr_1 (shr_record_of_loc q1 loc_Exact)) in
  let e2 := e1 + Z.max n2 0 in
  match q2 with
  | 0 => S754_zero sx
  | Zpos m => if e2 <=? emax - prec then S754_finite sx m e2 else S754_infinity sx
  | Zneg _ => S754_nan
  end.
Proof.
  unfold binary_round_aux, shr_fexp. rewrite shr_spec.
  cbv zeta. rewrite shr_spec. reflexivity.
Qed.

Lemma Zdigits2_bounds q : 0 < q -> 2 ^ (Zdigits2 q - 1) <= q < 2 ^ Zdigits2 q.
Proof. destruct q as [|p|p]; try lia. intros _. apply digits2_pos_bounds. Qed.

Lemma fexp_eq e : fexp prec emax e = Z.max (e - 53) (-1074).
Proof. reflexivity. Qed.

Lemma iter_exact_m k q :
  0 <= q -> shr_m (Nat.iter k shr_1 (shr_record_of_loc q loc_Exact)) = q / 2 ^ Z.of_nat k.
Proof. intros Hq. by rewrite iter_shr_m. Qed.

(** Rounding a mantissa of [d >= 53] digits in the normal range. *)
Definition normal_key (mx ex : Z) (lx : location) : Z * Z :=
  let d := Zdigits2 mx in
  let q1 := rne (Nat.iter (Z.to_nat (d - 53)) shr_1 (shr_record_of_loc mx lx)) in
  if q1 <? 2 ^ 53 then (q1, ex + d - 53) else (2 ^ 52, ex + d - 52).

(** The float of a mantissa and an exponent: infinite above the largest
    exponent. *)
Definition of_key (sx : bool) (k : Z * Z) : spec_float :=
  if k.2 <=? 971 then S754_finite sx (Z.to_pos k.1) k.2 else S754_infinity sx.

Lemma normal_shift_bounds mx lx :
  0 < mx -> 53 <= Zdigits2 mx ->
  let r1 := Nat.iter (Z.to_nat (Zdigits2 mx - 53)) shr_1 (shr_record_of_loc mx lx) in
  2 ^ 52 <= shr_m r1 < 2 ^ 53 /\ 2 ^ 52 <= rne r1 <= 2 ^ 53.
Proof.
  intros Hmx Hd r1.
  pose proof (Zdigits2_bounds mx Hmx) as [Hlo Hhi].
  set (d := Zdigits2 mx) in *.
  assert (Hm : shr_m r1 = mx / 2 ^ (d - 53)).
  { unfold r1. rewrite iter_shr_m by (rewrite shr_record_of_loc_m; lia).
    rewrite shr_record_of_loc_m, Z2Nat.id by lia. reflexivity. }
  assert (Hp : 0 < 2 ^ (d - 53)) by (apply Z.pow_pos_nonneg; lia).
  assert (Hlo' : 2 ^ (d - 1) = 2 ^ (d - 53) * 2 ^ 52).
  { rewrite <- Z.pow_add_r by lia. f_equal. lia. }
  assert (Hhi' : 2 ^ d = 2 ^ (d - 53) * 2 ^ 53).
  { rewrite <- Z.pow_add_r by lia. f_equal. lia. }
  assert (Hb : 2 ^ 52 <= shr_m r1 < 2 ^ 53).
  { rewrite Hm. split.
    - apply Z.div_le_lower_bound; lia.
    - apply Z.div_lt_upper_bound; lia. }
  split; [exact Hb|]. pose proof (rne_bounds r1). lia.
Qed.

Lemma bra_normal sx mx ex lx :
  0 < mx -> 53 <= Zdigits2 mx -> -1074 <= Zdigits2 mx + ex - 53 ->
  binary_round_aux prec emax sx mx ex lx = of_key sx (normal_key mx ex lx).
Proof.
  intros Hmx Hd He. rewrite bra_unfold. cbv zeta.
  destruct (normal_shift_bounds mx lx Hmx Hd) as [_ Hq]. cbv zeta in Hq.
  unfold normal_key, of_key.
  assert (Hn1 : fexp prec emax (Zdigits2 mx + ex) - ex = Zdigits2 mx - 53)
    by (rewrite fexp_eq; lia).
  rewrite Hn1.
  set (q1 := rne _) in *.
  replace (ex + Z.max (Zdigits2 mx - 53) 0) with (ex + Zdigits2 mx - 53) by lia.
  set (e1 := ex + Zdigits2 mx - 53).
  destruct (Z.ltb_spec q1 (2 ^ 53)) as [Hlt|Hge]; cbn [fst snd].
  - assert (Hd1 : Zdigits2 q1 = 53) by (apply Zdigits2_nonneg_unique; lia).
    rewrite Hd1.
    replace (fexp prec emax (53 + e1) - e1) with 0 by (rewrite fexp_eq; lia).
    change (Z.to_nat 0) with 0%nat. cbn [Nat.iter nat_rect shr_record_of_loc shr_m].
    rewrite Z.add_0_r.
    destruct q1 as [|m|m]; try lia. reflexivity.
  - assert (Hq1 : q1 = 2 ^ 53) by lia. rewrite Hq1.
    change (Zdigits2 (2 ^ 53)) with 54.
    replace (fexp prec emax (54 + e1) - e1) with 1 by (rewrite fexp_eq; lia).
    change (shr_m (Nat.iter (Z.to_nat 1) shr_1 (shr_record_of_loc (2 ^ 53) loc_Exact)))
      with (2 ^ 52).
    replace (e1 + Z.max 1 0) with (ex + Zdigits2 mx - 52) by lia.
    reflexivity.
Qed.

Lemma normal_key_range mx ex lx :
  0 < mx -> 53 <= Zdigits2 mx ->
  2 ^ 52 <= (normal_key mx ex lx).1 < 2 ^ 53
  /\ ex + Zdigits2 mx - 53 <= (normal_key mx ex lx).2 <= ex + Zdigits2 mx - 52.
Proof.
  intros Hmx Hd. destruct (normal_shift_bounds mx lx Hmx Hd) as [_ Hq].
  cbv zeta in Hq. unfold normal_key.
  destruct (Z.ltb_spec (rne (Nat.iter (Z.to_nat (Zdigits2 mx - 53)) shr_1
                                 (shr_record_of_loc mx lx))) (2 ^ 53));
    cbn [fst snd]; lia.
Qed.

(** [float64(n)] on [spec_float], and its mantissa and exponent for a
    positive [n]: exact below [2^53], rounded to 53 digits from there on. *)
Definition fl (n : Z) : spec_float := binary_normalize prec emax n 0 false.

Definition key (p : positive) : Z * Z :=
  if D p <? 53 then (Zpos p * 2 ^ (53 - D p), D p - 53)
  else normal_key (Zpos p) 0 loc_Exact.

Lemma iter_xO p k : Zpos (Pos.iter xO p k) = Zpos p * 2 ^ Zpos k.
Proof.
  induction k as [|k IH] using Pos.peano_ind.
  - cbn [Pos.iter]. rewrite Pos2Z.inj_xO. change (2 ^ 1) with 2. lia.
  - rewrite Pos.iter_succ, Pos2Z.inj_xO, IH, Pos2Z.inj_succ, Z.pow_succ_r by lia. lia.
Qed.

Lemma small_scaled p :
  D p < 53 ->
  2 ^ 52 <= Zpos p * 2 ^ (53 - D p) < 2 ^ 53.
Proof.
  intros Hd. pose proof (digits2_pos_bounds p) as [Hlo Hhi].
  assert (Hp : 0 < 2 ^ (53 - D p)) by (apply Z.pow_pos_nonneg; lia).
  assert (H52 : 2 ^ 52 = 2 ^ (D p - 1) * 2 ^ (53 - D p)).
  { rewrite <- Z.pow_add_r by lia. f_equal. lia. }
  assert (H53 : 2 ^ 53 = 2 ^ D p * 2 ^ (53 - D p)).
  { rewrite <- Z.pow_add_r by lia. f_equal. lia. }
  rewrite H52 at 1. rewrite H53. split.
  - apply Z.mul_le_mono_nonneg_r; lia.
  - apply Z.mul_lt_mono_pos_r; lia.
Qed.

Lemma key_range p : 2 ^ 52 <= (key p).1 < 2 ^ 53 /\ -52 <= (key p).2.
Proof.
  unfold key. destruct (Z.ltb_spec (D p) 53) as [Hd|Hd]; cbn [fst snd].
  - split; [by apply small_scaled | lia].
  - destruct (normal_key_range (Zpos p) 0 loc_Exact) as [Hm He]; [lia|exact Hd|].
    split; [exact Hm|]. cbn [Zdigits2] in He. lia.
Qed.

Lemma binary_round_key sx p : binary_round prec emax sx p 0 = of_key sx (key p).
Proof.
  unfold binary_round, shl_align, key. rewrite fexp_eq.
  destruct (Z.ltb_spec (D p) 53) as [Hd|Hd].
  - destruct (Z.max (D p + 0 - 53) (-1074) - 0) as [|k|k] eqn:E; try lia.
    pose proof (small_scaled p Hd) as Hs.
    assert (Hk : Zpos k = 53 - D p) by lia. rewrite <- Hk in Hs.
    rewrite <- iter_xO in Hs.
    assert (Hd' : Zdigits2 (Zpos (Pos.iter xO p k)) = 53)
      by (apply Zdigits2_nonneg_unique; lia).
    rewrite bra_normal by lia.
    unfold normal_key. rewrite Hd'. change (Z.to_nat (53 - 53)) with 0%nat.
    cbn [Nat.iter nat_rect shr_record_of_loc]. unfold rne.
    cbn [shr_m loc_of_shr_record round_nearest_even].
    destruct (Z.ltb_spec (Zpos (Pos.iter xO p k)) (2 ^ 53)); [|lia].
    rewrite <- Hk, <- iter_xO. f_equal. f_equal. lia.
  - destruct (Z.max (D p + 0 - 53) (-1074) - 0) as [|k|k] eqn:E; try lia.
    + rewrite bra_normal; [reflexivity|lia|exact Hd|cbn [Zdigits2]; lia].
    + rewrite bra_normal; [reflexivity|lia|exact Hd|cbn [Zdigits2]; lia].
Qed.

Lemma fl_pos p : fl (Zpos p) = of_key false (key p).
Proof. apply binary_round_key. Qed.

(** The conversion is monotone: a greater integer has a greater exponent,
    or the same exponent and a mantissa that is not smaller. *)
Definition lexle (k k' : Z * Z) : Prop := k.2 < k'.2 \/ (k.2 = k'.2 /\ k.1 <= k'.1).

Lemma digits2_pos_mono p p' : Zpos p <= Zpos p' -> D p <= D p'.
Proof.
  intros Hle. pose proof (digits2_pos_bounds p) as [Hlo _].
  pose proof (digits2_pos_bounds p') as [_ Hhi].
  destruct (Z.le_gt_cases (D p) (D p')) as [H|H]; [exact H|].
  assert (2 ^ D p' <= 2 ^ (D p - 1)) by (apply Z.pow_le_mono_r; lia). lia.
Qed.

Lemma key_mono p p' : Zpos p <= Zpos p' -> lexle (key p) (key p').
Proof.
  intros Hle. pose proof (digits2_pos_mono p p' Hle) as Hd.
  pose proof (key_range p') as [Hm' He'].
  unfold key in *. unfold lexle.
  destruct (Z.ltb_spec (D p) 53) as [Hs|Hs]; destruct (Z.ltb_spec (D p') 53) as [Hs'|Hs'];
    cbn [fst snd] in *; try lia.
  - destruct (Z.eq_dec (D p) (D p')) as [Heq|Hne]; [right|left; lia].
    split; [lia|]. rewrite Heq. apply Z.mul_le_mono_nonneg_r; [|lia].
    apply Z.pow_nonneg; lia.
  - left. destruct (normal_key_range (Zpos p') 0 loc_Exact) as [_ He]; [lia|exact Hs'|].
    cbn [Zdigits2] in He. lia.
  - destruct (normal_key_range (Zpos p') 0 loc_Exact) as [_ He2]; [lia|exact Hs'|].
    cbn [Zdigits2] in He2.
    set (q := rne (Nat.iter (Z.to_nat (D p - 53)) shr_1
                     (shr_record_of_loc (Zpos p) loc_Exact))).
    assert (HK : normal_key (Zpos p) 0 loc_Exact
                 = if q <? 2 ^ 53 then (q, D p - 53) else (2 ^ 52, D p - 52))
      by reflexivity.
    rewrite HK. clear HK.
    destruct (Z.eq_dec (D p) (D p')) as [Heq|Hne].
    + set (q' := rne (Nat.iter (Z.to_nat (D p' - 53)) shr_1
                        (shr_record_of_loc (Zpos p') loc_Exact))).
      assert (HK : normal_key (Zpos p') 0 loc_Exact
                   = if q' <? 2 ^ 53 then (q', D p' - 53) else (2 ^ 52, D p' - 52))
        by reflexivity.
      rewrite HK in *. clear HK.
      assert (Hq : q <= q').
      { unfold q, q'. rewrite Heq. apply rne_mono, iter_shr_mono;
          unfold code; cbn [shr_record_of_loc shr_m shr_r shr_s Z.b2z]; lia. }
      destruct (Z.ltb_spec q (2 ^ 53)), (Z.ltb_spec q' (2 ^ 53)); cbn [fst snd] in *; lia.
    + destruct (Z.ltb_spec q (2 ^ 53)); cbn [fst snd]; lia.
Qed.

(** [1.0]. *)
Definition SF_one : spec_float := S754_finite false 4503599627370496 (-52).

Lemma key_exp_le p : (key p).2 <= D p - 52.
Proof.
  unfold key. destruct (Z.ltb_spec (D p) 53) as [Hd|Hd]; cbn [fst snd]; [lia|].
  destruct (normal_key_range (Zpos p) 0 loc_Exact) as [_ He]; [lia|exact Hd|].
  cbn [Zdigits2] in He. lia.
Qed.

(** A quotient below one rounds to at most [1.0]. *)
Lemma bra_below_one q e lx :
  -1074 <= e <= -53 -> 0 <= q < 2 ^ (- e) ->
  SFltb SF_one (binary_round_aux prec emax false q e lx) = false.
Proof.
  intros He Hq. rewrite bra_unfold. cbv zeta.
  set (n1 := fexp prec emax (Zdigits2 q + e) - e).
  set (r1 := Nat.iter (Z.to_nat n1) shr_1 (shr_record_of_loc q lx)).
  set (e1 := e + Z.max n1 0).
  assert (HA : -1074 <= e1 <= -53 /\ 0 <= rne r1 <= 2 ^ 53).
  { destruct (Z.eq_dec q 0) as [->|Hq0].
    - assert (Hn : Z.to_nat n1 = 0%nat).
      { unfold n1. cbn [Zdigits2]. rewrite fexp_eq. lia. }
      assert (He1 : e1 = e).
      { unfold e1, n1. cbn [Zdigits2]. rewrite fexp_eq. lia. }
      unfold r1. rewrite Hn. cbn [Nat.iter nat_rect].
      pose proof (rne_bounds (shr_record_of_loc 0 lx)) as Hb.
      rewrite shr_record_of_loc_m in Hb. lia.
    - assert (Hpos : 0 < q) by lia.
      pose proof (Zdigits2_bounds q Hpos) as [Hlo Hhi].
      assert (Hd0 : 0 < Zdigits2 q) by (destruct q; cbn; lia).
      assert (Hd : Zdigits2 q <= - e).
      { assert (Zdigits2 q - 1 < - e); [|lia].
        apply (Z.pow_lt_mono_r_iff 2); lia. }
      destruct (Z.le_gt_cases (Zdigits2 q) 53) as [Hs|Hs].
      + assert (Hn : Z.to_nat n1 = 0%nat) by (unfold n1; rewrite fexp_eq; lia).
        assert (He1 : e1 = e) by (unfold e1, n1; rewrite fexp_eq; lia).
        unfold r1. rewrite Hn. cbn [Nat.iter nat_rect].
        pose proof (rne_bounds (shr_record_of_loc q lx)) as Hb.
        rewrite shr_record_of_loc_m in Hb.
        assert (2 ^ Zdigits2 q <= 2 ^ 53) by (apply Z.pow_le_mono_r; lia).
        lia.
      + assert (Hn : n1 = Zdigits2 q - 53) by (unfold n1; rewrite fexp_eq; lia).
        destruct (normal_shift_bounds q lx Hpos) as [_ Hr]; [lia|].
        cbv zeta in Hr. unfold r1. rewrite Hn.
        split; [unfold e1; lia | lia]. }
  destruct HA as [He1 Hq1]. clearbody e1. set (q1 := rne r1) in *. clearbody q1.
  clear r1 n1.
  set (n2 := fexp prec emax (Zdigits2 q1 + e1) - e1).
  rewrite iter_exact_m by lia.
  destruct (Z.eq_dec q1 0) as [->|Hq0].
  { rewrite Z.div_0_l; [reflexivity|]. apply Z.pow_nonzero; lia. }
  destruct (Z.eq_dec q1 (2 ^ 53)) as [->|Hq53].
  { assert (Hn2 : n2 = 1).
    { unfold n2. change (Zdigits2 (2 ^ 53)) with 54. rewrite fexp_eq. lia. }
    rewrite Hn2. change (2 ^ 53 / 2 ^ Z.of_nat (Z.to_nat 1)) with (Zpos 4503599627370496).
    cbv iota. destruct (Z.leb_spec (e1 + Z.max 1 0) (emax - prec)) as [_|Hbad].
    - unfold SFltb, SF_one, SFcompare.
      destruct (Z.compare_spec (-52) (e1 + Z.max 1 0)); try reflexivity; lia.
    - change (emax - prec) with 971 in Hbad. lia. }
  assert (Hpos : 0 < q1) by lia.
  pose proof (Zdigits2_bounds q1 Hpos) as [Hlo Hhi].
  assert (Hd : Zdigits2 q1 <= 53).
  { assert (Zdigits2 q1 - 1 < 53); [|lia]. apply (Z.pow_lt_mono_r_iff 2); lia. }
  assert (Hn2 : Z.to_nat n2 = 0%nat) by (unfold n2; rewrite fexp_eq; lia).
  assert (He2 : e1 + Z.max n2 0 = e1) by (unfold n2; rewrite fexp_eq; lia).
  rewrite Hn2, He2. change (2 ^ Z.of_nat 0) with 1. rewrite Z.div_1_r.
  destruct q1 as [|m|m]; try lia.
  destruct (Z.leb_spec e1 (emax - prec)) as [_|Hbad];
    [|change (emax - prec) with 971 in Hbad; lia].
  unfold SFltb, SF_one, SFcompare.
  destruct (Z.compare_spec (-52) e1); try reflexivity; lia.
Qed.

Lemma new_location_0 m : new_location m 0 = loc_Exact.
Proof. unfold new_location. by destruct (Z.even m). Qed.

(** A finite float divided by itself is [1.0]. *)
Lemma SFdiv_self s m e :
  SFdiv prec emax (S754_finite s m e) (S754_finite s m e) = SF_one.
Proof.
  unfold SFdiv, SFdiv_core_binary. rewrite Z.sub_diag, Z.sub_diag.
  change (Z.min (fexp prec emax 0) 0) with (-53). change (0 - -53) with 53.
  cbv iota beta. rewrite Z.shiftl_mul_pow2 by lia.
  pose proof (Z_div_mod (Zpos m * 2 ^ 53) (Zpos m) ltac:(lia)) as Hdm.
  destruct (Z.div_eucl (Zpos m * 2 ^ 53) (Zpos m)) as [q r].
  destruct Hdm as [Heq Hr].
  assert (Hq : q = 2 ^ 53) by nia.
  assert (Hr0 : r = 0) by nia.
  subst q r. rewrite new_location_0. by destruct s.
Qed.

(** The quotient of two normal floats, the first at most the second, is
    at most [1.0]. *)
Lemma SFdiv_le_one ma ea mb eb :
  2 ^ 52 <= Zpos ma < 2 ^ 53 -> 2 ^ 52 <= Zpos mb < 2 ^ 53 ->
  -52 <= ea <= 971 -> -52 <= eb <= 971 ->
  lexle (Zpos ma, ea) (Zpos mb, eb) ->
  SFltb SF_one (SFdiv prec emax (S754_finite false ma ea) (S754_finite false mb eb)) = false.
Proof.
  intros Hma Hmb Hea Heb Hle. unfold lexle in Hle. cbn [fst snd] in Hle.
  destruct (decide (ea = eb /\ ma = mb)) as [[-> ->]|Hne].
  { by rewrite SFdiv_self. }
  assert (Hda : D ma = 53) by (apply digits2_pos_unique; lia).
  assert (Hdb : D mb = 53) by (apply digits2_pos_unique; lia).
  unfold SFdiv, SFdiv_core_binary. cbn [Zdigits2 xorb]. rewrite Hda, Hdb.
  set (e' := Z.min (fexp prec emax (53 + ea - (53 + eb))) (ea - eb)).
  assert (He' : e' = Z.max (ea - eb - 53) (-1074)) by (unfold e'; rewrite fexp_eq; lia).
  clearbody e'.
  destruct (ea - eb - e') as [|s|s] eqn:Es; try lia.
  rewrite Z.shiftl_mul_pow2 by lia.
  pose proof (Z_div_mod (Zpos ma * 2 ^ Zpos s) (Zpos mb) ltac:(lia)) as Hdm.
  destruct (Z.div_eucl (Zpos ma * 2 ^ Zpos s) (Zpos mb)) as [q r].
  destruct Hdm as [Heq Hr].
  apply bra_below_one; [lia|].
  assert (HP : 0 < 2 ^ Zpos s) by (apply Z.pow_pos_nonneg; lia).
  assert (HQ : 2 ^ (- e') = 2 ^ Zpos s * 2 ^ (eb - ea)).
  { rewrite <- Z.pow_add_r by lia. f_equal. lia. }
  assert (HQ1 : 1 <= 2 ^ (eb - ea)).
  { change 1 with (2 ^ 0). apply Z.pow_le_mono_r; lia. }
  assert (HQ2 : ea < eb -> 2 <= 2 ^ (eb - ea)).
  { intros Hlt. change 2 with (2 ^ 1) at 1. apply Z.pow_le_mono_r; lia. }
  split; [nia|].
  rewrite HQ. set (P := 2 ^ Zpos s) in *. set (Q := 2 ^ (eb - ea)) in *.
  clearbody P Q.
  destruct (Z.lt_ge_cases q (P * Q)) as [Hlt|Hge]; [exact Hlt|exfalso].
  assert (H1 : Zpos mb * (P * Q) <= Zpos ma * P) by nia.
  assert (H2 : Zpos mb * Q <= Zpos ma) by nia.
  destruct (Z.eq_dec ea eb) as [Heqe|Hnee].
  - assert (Zpos ma = Zpos mb) by nia. apply Hne. split; [exact Heqe|]. congruence.
  - specialize (HQ2 ltac:(lia)). nia.
Qed.

Lemma Zpos_to_pos z : 0 < z -> Zpos (Z.to_pos z) = z.
Proof. intros. by rewrite Z2Pos.id. Qed.

Lemma fl_div_le_one m n :
  0 <= m <= n -> SFltb SF_one (SFdiv prec emax (fl m) (fl n)) = false.
Proof.
  intros [Hm Hmn].
  destruct n as [|b|b]; [| |lia].
  { assert (m = 0) as -> by lia. reflexivity. }
  destruct m as [|a|a]; [| |lia].
  { rewrite fl_pos. unfold fl, of_key. cbn [binary_normalize].
    by destruct (_ <=? _). }
  rewrite !fl_pos. pose proof (key_mono a b Hmn) as Hle.
  pose proof (key_range a) as [Hma Hea]. pose proof (key_range b) as [Hmb Heb].
  unfold of_key. destruct (key a) as [ma ea], (key b) as [mb eb]. cbn [fst snd] in *.
  destruct (Z.leb_spec ea 971) as [Ha|Ha], (Z.leb_spec eb 971) as [Hb|Hb];
    try reflexivity.
  - apply SFdiv_le_one; rewrite ?Zpos_to_pos by lia; try lia.
    unfold lexle in *. cbn [fst snd] in *. lia.
  - unfold lexle in Hle. cbn [fst snd] in Hle. lia.
Qed.

Lemma of_key_valid sx k :
  2 ^ 52 <= k.1 < 2 ^ 53 -> -52 <= k.2 -> valid_binary prec emax (of_key sx k) = true.
Proof.
  intros Hm He. unfold of_key. destruct (Z.leb_spec k.2 971) as [Hle|Hgt]; [|reflexivity].
  cbn [valid_binary]. unfold bounded, canonical_mantissa.
  rewrite (digits2_pos_unique (Z.to_pos k.1) 53) by (rewrite Zpos_to_pos; lia).
  rewrite fexp_eq. apply andb_true_intro. split.
  - apply Z.eqb_eq. lia.
  - apply Z.leb_le. change (emax - prec) with 971. lia.
Qed.

(** The conversion gives floats of the format, so that the primitive
    operations on [float_of_int n] are those of [SFdiv] and [SFltb] on
    [fl n]. *)
Lemma fl_valid n : valid_binary prec emax (fl n) = true.
Proof.
  destruct n as [|p|p]; [reflexivity| |]; unfold fl; cbn [binary_normalize];
    rewrite binary_round_key; apply of_key_valid; apply key_range.
Qed.

Lemma Prim2SF_float_of_int n : Prim2SF (float_of_int n) = fl n.
Proof. apply FloatAxioms.Prim2SF_SF2Prim, fl_valid. Qed.

(** On the non-negative [int] values, [float_of_int] is the primitive
    conversion. *)
Lemma float_of_int_uint63 n :
  0 <= n < 2 ^ 63 -> float_of_int n = PrimFloat.of_uint63 (Uint63.of_Z n).
Proof.
  intros Hn. unfold float_of_int, fl.
  rewrite <- (FloatAxioms.SF2Prim_Prim2SF (PrimFloat.of_uint63 (Uint63.of_Z n))).
  rewrite FloatAxioms.of_uint63_spec. do 2 f_equal.
  rewrite Uint63.of_Z_spec. symmetry. apply Z.mod_small. exact Hn.
Qed.

(** [float64(m) / float64(n)] does not exceed [1.0] when [0 <= m <= n]; it
    is NaN for [n = 0]. *)
Lemma ratio_le_one m n :
  0 <= m <= n ->
  PrimFloat.ltb PrimFloat.one (PrimFloat.div (float_of_int m) (float_of_int n)) = false.
Proof.
  intros H. rewrite FloatAxioms.ltb_spec, FloatAxioms.div_spec, !Prim2SF_float_of_int.
  change (Prim2SF PrimFloat.one) with SF_one. by apply fl_div_le_one.
Qed.

Lemma fl_finite n :
  1 <= n < 2 ^ 1023 -> exists m e, fl n = S754_finite false m e.
Proof.
  intros [Hlo Hhi]. destruct n as [|p|p]; try lia. rewrite fl_pos. unfold of_key.
  pose proof (key_exp_le p) as He. pose proof (digits2_pos_bounds p) as [Hd _].
  assert (D p - 1 < 1023) by (apply (Z.pow_lt_mono_r_iff 2); lia).
  destruct (Z.leb_spec (key p).2 971); [eauto|lia].
Qed.

(** [float64(n) / float64(n)] is [1.0] for a positive [n] whose float is
    finite. *)
Lemma ratio_self n :
  1 <= n < 2 ^ 1023 ->
  PrimFloat.div (float_of_int n) (float_of_int n) = PrimFloat.one.
Proof.
  intros H. apply FloatAxioms.Prim2SF_inj.
  rewrite FloatAxioms.div_spec, Prim2SF_float_of_int.
  destruct (fl_finite n H) as (m & e & ->). rewrite SFdiv_self. reflexivity.
Qed.

(** ** The order of the primitive floats *)

Lemma ltb_trans x y z :
  PrimFloat.ltb x y = true -> PrimFloat.ltb y z = true -> PrimFloat.ltb x z = true.
Proof. rewrite !FloatAxioms.ltb_spec. apply SFltb_trans. Qed.

Lemma ltb_leb_trans x y z :
  PrimFloat.ltb x y = true -> PrimFloat.leb y z = true -> PrimFloat.ltb x z = true.
Proof. rewrite !FloatAxioms.ltb_spec, FloatAxioms.leb_spec. apply SFltb_leb_trans. Qed.

Lemma leb_ltb_trans x y z :
  PrimFloat.leb x y = true -> PrimFloat.ltb y z = true -> PrimFloat.ltb x z = true.
Proof. rewrite !FloatAxioms.ltb_spec, FloatAxioms.leb_spec. apply SFleb_ltb_trans. Qed.

Lemma leb_trans x y z :
  PrimFloat.leb x y = true -> PrimFloat.leb y z = true -> PrimFloat.leb x z = true.
Proof. rewrite !FloatAxioms.leb_spec. apply SFleb_trans. Qed.

Lemma ltb_leb x y : PrimFloat.ltb x y = true -> PrimFloat.leb x y = true.
Proof. rewrite FloatAxioms.ltb_spec, FloatAxioms.leb_spec. apply SFltb_leb. Qed.

Lemma ltb_irrefl x : PrimFloat.ltb x x = false.
Proof. rewrite FloatAxioms.ltb_spec. apply SFltb_irrefl. Qed.

End Float64.

(* ===================================================================== *)
(** * [findBestMatch] *)
(* ===================================================================== *)

Import PrimFloat.

Section BestMatch.

Variable simThreshold : PrimFloat.float.
Variable tokens : list string.

(** The similarity of a cluster to the line, and the test of the loop
    that its tokens have the length of the line. *)
Definition sim (pc : nat * LogCluster) : PrimFloat.float :=
  calculateSimilarity (Tokens pc.2) tokens.
Definition same_length (pc : nat * LogCluster) : Prop :=
  slen (Tokens pc.2) = slen tokens.

(** The two tests of the loop, [sim >= dt.simThreshold] and, for the first
    cluster taken, [sim > 0.0]. *)
Definition passes (pc : nat * LogCluster) : Prop :=
  PrimFloat.leb simThreshold (sim pc) = true ∧ PrimFloat.ltb 0%float (sim pc) = true.

(** What the loop of [findBestMatch] has established after the clusters
    [seen]: either no cluster so far passes both tests, or [bestMatch]
    passes them, no cluster seen is more similar to the line, and no
    cluster seen before it is as similar. *)
Definition best_inv (seen : list (nat * LogCluster))
           (st : option (nat * LogCluster) * PrimFloat.float) : Prop :=
  match st.1 with
  | None =>
    st.2 = 0%float
    ∧ ∀ pc, pc ∈ seen → same_length pc → ¬ passes pc
  | Some best =>
    st.2 = sim best
    ∧ ∃ j, seen !! j = Some best
      ∧ same_length best
      ∧ passes best
      ∧ (∀ j' pc, seen !! j' = Some pc → same_length pc →
                  PrimFloat.ltb (sim best) (sim pc) = false)
      ∧ (∀ j' pc, (j' < j)%nat → seen !! j' = Some pc → same_length pc →
                  PrimFloat.leb (sim best) (sim pc) = false)
  end.

Lemma best_step_inv seen st pc :
  best_inv seen st →
  best_inv (seen ++ [pc]) (best_step simThreshold tokens st pc).
Proof.
  destruct st as [best maxSim]. unfold best_inv, best_step, passes. cbn [fst snd].
  intros Hinv.
  destruct (Z.eqb_spec (slen (Tokens pc.2)) (slen tokens)) as [Hlen|Hlen];
    cbn [negb].
  2: { (* a cluster of another length is skipped *)
    cbn [fst snd]. destruct best as [b|].
    - destruct Hinv as (Hm & j & Hj & Hrest). split; [done|]. exists j.
      destruct Hrest as (Hsl & Hpass & Hmax & Hfirst).
      split; [by apply lookup_app_l_Some|]. repeat (split; [done|]). split.
      + intros j' pc' Hj' Hsl'. apply lookup_app_Some in Hj' as [Hj'|[_ Hj']].
        * by eapply Hmax.
        * apply list_lookup_singleton_Some in Hj' as [_ <-]. done.
      + intros j' pc' Hlt Hj' Hsl'. apply lookup_app_Some in Hj' as [Hj'|[_ Hj']].
        * by eapply Hfirst.
        * apply list_lookup_singleton_Some in Hj' as [_ <-]. done.
    - destruct Hinv as [Hm Hnone]. split; [done|].
      intros pc' Hin Hsl'. apply elem_of_app in Hin as [Hin|Hin]; [by apply Hnone|].
      apply list_elem_of_singleton in Hin as ->. done. }
  fold (sim pc).
  destruct (PrimFloat.ltb maxSim (sim pc)) eqn:Elt; cbn [andb].
  - destruct (PrimFloat.leb simThreshold (sim pc)) eqn:Ele; cbn [fst snd].
    + (* the cluster becomes the best match *)
      split; [done|]. exists (List.length seen).
      split; [by apply list_lookup_middle|]. split; [done|].
      assert (Hpos : PrimFloat.ltb 0%float (sim pc) = true).
      { destruct best as [b|].
        - destruct Hinv as (-> & j & _ & _ & [_ Hb] & _).
          eapply Float64.ltb_trans; [apply Hb | done].
        - by destruct Hinv as [-> _]. }
      split; [done|].
      assert (Hprev : ∀ j' pc', seen !! j' = Some pc' → same_length pc' →
                                PrimFloat.leb (sim pc) (sim pc') = false).
      { intros j' pc' Hj' Hsl'.
        destruct (PrimFloat.leb (sim pc) (sim pc')) eqn:Ele'; [exfalso|done].
        destruct best as [b|].
        - destruct Hinv as (-> & j & Hj & _ & _ & Hmax & _).
          pose proof (Hmax _ _ Hj' Hsl') as Hno.
          by rewrite (Float64.ltb_leb_trans _ _ _ Elt Ele') in Hno.
        - destruct Hinv as [-> Hnone].
          apply (Hnone pc'); [by eapply list_elem_of_lookup_2 | done |]. split.
          + by eapply Float64.leb_trans.
          + by eapply Float64.ltb_leb_trans. }
      split.
      * intros j' pc' Hj' Hsl'. apply lookup_app_Some in Hj' as [Hj'|[_ Hj']].
        -- destruct (PrimFloat.ltb (sim pc) (sim pc')) eqn:Elt'; [|done].
           apply Float64.ltb_leb in Elt'. by rewrite (Hprev _ _ Hj' Hsl') in Elt'.
        -- apply list_lookup_singleton_Some in Hj' as [_ <-]. apply Float64.ltb_irrefl.
      * intros j' pc' Hlt Hj' Hsl'. apply lookup_app_Some in Hj' as [Hj'|[Hge _]].
        -- by eapply Hprev.
        -- lia.
    + (* below the threshold *)
      destruct best as [b|].
      * destruct Hinv as (Hm & j & Hj & Hsl & [Hthr Hpos] & Hmax & Hfirst).
        split; [done|]. exists j.
        split; [by apply lookup_app_l_Some|]. repeat (split; [done|]). split.
        -- intros j' pc' Hj' Hsl'. apply lookup_app_Some in Hj' as [Hj'|[_ Hj']].
           ++ by eapply Hmax.
           ++ apply list_lookup_singleton_Some in Hj' as [_ <-].
              destruct (PrimFloat.ltb (sim b) (sim pc)) eqn:Elt'; [exfalso|done].
              pose proof (Float64.leb_ltb_trans _ _ _ Hthr Elt') as Hlt.
              apply Float64.ltb_leb in Hlt. congruence.
        -- intros j' pc' Hlt Hj' Hsl'.
           apply lookup_app_Some in Hj' as [Hj'|[Hge Hj']]; [by eapply Hfirst|].
           apply lookup_lt_Some in Hj. lia.
      * destruct Hinv as [Hm Hnone]. split; [done|].
        intros pc' Hin Hsl'. apply elem_of_app in Hin as [Hin|Hin]; [by apply Hnone|].
        apply list_elem_of_singleton in Hin as ->. intros [Hle _]. congruence.
  - (* not above the greatest similarity so far *)
    cbn [fst snd]. destruct best as [b|].
    + destruct Hinv as (Hm & j & Hj & Hsl & Hpass & Hmax & Hfirst).
      split; [done|]. exists j.
      split; [by apply lookup_app_l_Some|]. repeat (split; [done|]). split.
      * intros j' pc' Hj' Hsl'. apply lookup_app_Some in Hj' as [Hj'|[_ Hj']].
        -- by eapply Hmax.
        -- apply list_lookup_singleton_Some in Hj' as [_ <-]. by rewrite <- Hm.
      * intros j' pc' Hlt Hj' Hsl'.
        apply lookup_app_Some in Hj' as [Hj'|[Hge Hj']]; [by eapply Hfirst|].
        apply lookup_lt_Some in Hj. lia.
    + destruct Hinv as [Hm Hnone]. split; [done|].
      intros pc' Hin Hsl'. apply elem_of_app in Hin as [Hin|Hin]; [by apply Hnone|].
      apply list_elem_of_singleton in Hin as ->. intros [_ Hpos].
      rewrite Hm in Elt. congruence.
Qed.

Lemma best_fold_inv rest seen st :
  best_inv seen st →
  best_inv (seen ++ rest) (fold_left (best_step simThreshold tokens) rest st).
Proof.
  revert seen st. induction rest as [|pc rest IH]; intros seen st Hinv; simpl.
  - by rewrite app_nil_r.
  - replace (seen ++ pc :: rest)%list with ((seen ++ [pc]) ++ rest)%list
      by (by rewrite <- app_assoc).
    apply IH. by apply best_step_inv.
Qed.

End BestMatch.

Lemma findBestMatch_inv simThreshold cs tokens :
  best_inv simThreshold tokens cs
           (fold_left (best_step simThreshold tokens) cs (None, 0%float)).
Proof.
  apply (best_fold_inv simThreshold tokens cs [] (None, 0%float)).
  split; [done|]. intros pc Hin. by apply elem_of_nil in Hin.
Qed.

Lemma findBestMatch_floor simThreshold cs tokens best :
  findBestMatch simThreshold cs tokens = Some best →
  best ∈ cs ∧ same_length tokens best ∧ passes simThreshold tokens best.
Proof.
  unfold findBestMatch. intros H.
  pose proof (findBestMatch_inv simThreshold cs tokens) as Hinv.
  unfold best_inv in Hinv. rewrite H in Hinv.
  destruct Hinv as (_ & j & Hj & Hsl & Hpass & _).
  split; [by eapply list_elem_of_lookup_2 | done].
Qed.

Lemma here_floor (h : list LogCluster) thr ps tokens p c :
  (cs ←! derefs h ps; Done (findBestMatch thr cs tokens)) = Done (Some (p, c)) →
  slen (Tokens c) = slen tokens
  ∧ PrimFloat.leb thr (calculateSimilarity (Tokens c) tokens) = true.
Proof.
  intros H. inv_bind H. injection H as H.
  apply findBestMatch_floor in H as (_ & Hsl & Hthr & _). done.
Qed.

Lemma treeSearch_fuel_floor fuel dt node tokens depth p c :
  treeSearch_fuel fuel dt node tokens depth = Done (Some (p, c)) →
  slen (Tokens c) = slen tokens
  ∧ PrimFloat.leb (simThreshold dt) (calculateSimilarity (Tokens c) tokens) = true.
Proof.
  revert node depth. induction fuel as [|fuel IH]; simpl; intros node depth H;
    [discriminate|].
  destruct (_ || _); [by eapply here_floor|].
  destruct (depth =? 1).
  { destruct (KeyToChildNode node !! _); [by eapply IH | discriminate]. }
  destruct (depth - 2 <? slen tokens); [|by eapply here_floor].
  inv_bind H.
  destruct (KeyToChildNode node !! a); [by eapply IH|].
  destruct (KeyToChildNode node !! wildcard); [by eapply IH|].
  by eapply here_floor.
Qed.

(** A line that [Parse] absorbs into an existing cluster has the length of
    the cluster and a similarity to it of at least the threshold. *)
Lemma Parse_absorbs_above_floor parseFloatOk dt line ts dt' res :
  Parse parseFloatOk dt line ts = Done (dt', ParseOk res) → IsNew res = false →
  ∃ (p : nat) (c : LogCluster),
    heap dt !! p = Some c
    ∧ heap dt' = <[p := updateCluster c (preprocessTokens parseFloatOk (tokenize line)) ts]>
                   (heap dt)
    ∧ slen (Tokens c) = slen (preprocessTokens parseFloatOk (tokenize line))
    ∧ PrimFloat.leb (simThreshold dt)
        (calculateSimilarity (Tokens c)
           (preprocessTokens parseFloatOk (tokenize line))) = true.
Proof.
  unfold Parse. destruct (slen (tokenize line) =? 0); [discriminate|].
  intros H Hnew. inv_bind H. inv_bind H.
  destruct a0 as [[dt1 c1] isNew]. injection H as <- <-. simpl in Hnew. subst isNew.
  destruct a as [[p c]|].
  - injection Ha0 as <- <-. exists p, c.
    split; [by eapply treeSearch_fuel_sound|]. split; [done|].
    by eapply treeSearch_fuel_floor.
  - inv_bind Ha0. discriminate.
Qed.

(** C2, as the code has it.  The similarities are binary64 quotients and
    are compared as [float64] values.  [findBestMatch] returns a cluster
    whose token length equals that of the line and whose similarity is at
    least [sim_threshold] and greater than zero; no cluster of that length is
    more similar to the line, and no cluster of that length before it in
    the slice is as similar: it is the first one of greatest similarity.  It
    returns nothing exactly when no cluster of that length has a similarity
    that is at least the threshold and greater than zero.  Hence a line is
    only ever absorbed into a cluster whose similarity to it is at least
    [sim_threshold]. *)
Theorem findBestMatch_first_of_greatest_similarity
        (simThreshold : PrimFloat.float) (cs : list (nat * LogCluster))
        (tokens : list string) :
  match findBestMatch simThreshold cs tokens with
  | Some best =>
    ∃ j, cs !! j = Some best
      ∧ same_length tokens best
      ∧ PrimFloat.leb simThreshold (sim tokens best) = true
      ∧ PrimFloat.ltb 0%float (sim tokens best) = true
      ∧ (∀ j' pc, cs !! j' = Some pc → same_length tokens pc →
                  PrimFloat.ltb (sim tokens best) (sim tokens pc) = false)
      ∧ (∀ j' pc, (j' < j)%nat → cs !! j' = Some pc → same_length tokens pc →
                  PrimFloat.leb (sim tokens best) (sim tokens pc) = false)
  | None =>
    ∀ pc, pc ∈ cs → same_length tokens pc →
          ¬ (PrimFloat.leb simThreshold (sim tokens pc) = true
             ∧ PrimFloat.ltb 0%float (sim tokens pc) = true)
  end
  ∧ ∀ parseFloatOk dt line ts dt' res,
      Parse parseFloatOk dt line ts = Done (dt', ParseOk res) → IsNew res = false →
      ∃ (p : nat) (c : LogCluster),
        heap dt !! p = Some c
        ∧ heap dt'
          = <[p := updateCluster c (preprocessTokens parseFloatOk (tokenize line)) ts]>
              (heap dt)
        ∧ PrimFloat.leb (Drain.simThreshold dt)
            (calculateSimilarity (Tokens c)
               (preprocessTokens parseFloatOk (tokenize line))) = true.
Proof.
  split.
  - pose proof (findBestMatch_inv simThreshold cs tokens) as Hinv.
    unfold best_inv, passes in Hinv. unfold findBestMatch.
    destruct (fold_left _ _ _).1 as [best|]; [|by destruct Hinv].
    destruct Hinv as (_ & j & Hj & Hsl & [Hthr Hpos] & Hmax & Hfirst).
    by exists j.
  - intros pf dt line ts dt' res HP Hnew.
    destruct (Parse_absorbs_above_floor _ _ _ _ _ _ HP Hnew)
      as (p & c & Hp & Hh & _ & Hthr).
    by exists p, c.
Qed.

(** The claim as the specification states it fails for a negative
    threshold: the only cluster of the leaf has the length of the line and
    similarity 0, which is at least the threshold, and [findBestMatch]
    returns nothing; the second of the two lines opens a cluster of its
    own. *)
Lemma findBestMatch_rejects_similarity_zero :
  let c := {| ID := generateClusterID ["a"]; Template := "a"; Tokens := ["a"];
              Size := 1; FirstSeen := 0; LastSeen := 0; SampleLogs := [] |} in
  same_length ["b"] (0%nat, c)
  ∧ PrimFloat.leb (-0.5)%float (sim ["b"] (0%nat, c)) = true
  ∧ findBestMatch (-0.5)%float [(0%nat, c)] ["b"] = None
  ∧ ∃ dt r1 r2,
      parse_all (fun _ => false)
        (NewDrainTree {| MaxDepth := 4; SimThreshold := (-0.5)%float; MaxChildren := 100;
                         MaxClusters := 20; MaxSampleLogs := 5; ExtraDelimiter := "" |})
        [("a", 0); ("b", 0)]
      = Done (dt, [ParseOk r1; ParseOk r2])
      ∧ IsNew r2 = true ∧ List.length (heap dt) = 2%nat.
Proof.
  split; [reflexivity|]. split; [by vm_compute|]. split; [by vm_compute|].
  eexists _, _, _. split; [vm_compute; reflexivity|]. split; reflexivity.
Qed.

(** The comparison is that of [float64].  One token of ten matches: the
    quotient [float64(1) / float64(10)] is the float nearest to one tenth,
    which is the value of the Go constant [0.1], and a threshold of [0.1]
    accepts the cluster. *)
Example one_tenth_meets_the_threshold :
  let tenth := 0x1.999999999999ap-4%float in
  let c := {| ID := ""; Template := ""; Size := 1; FirstSeen := 0; LastSeen := 0;
              SampleLogs := [];
              Tokens := ["a"; "b"; "c"; "d"; "e"; "f"; "g"; "h"; "i"; "j"] |} in
  let line := ["a"; "1"; "2"; "3"; "4"; "5"; "6"; "7"; "8"; "9"] in
  sim line (0%nat, c) = tenth
  ∧ findBestMatch tenth [(0%nat, c)] line = Some (0%nat, c).
Proof. split; vm_compute; reflexivity. Qed.

(** For two empty slices the quotient is [0.0 / 0.0], which is NaN. *)
Example similarity_of_empty_slices :
  PrimFloat.is_nan (calculateSimilarity [] []) = true.
Proof. vm_compute. reflexivity. Qed.

(* ===================================================================== *)
(** * Concrete runs of [Parse] *)
(* ===================================================================== *)

(** [Parse] depends on [strconv.ParseFloat] only through the tokens of the
    line it is given. *)
Lemma isVariable_split parseFloatOk token :
  isVariable parseFloatOk token
  = parseFloatOk token || isVariable (fun _ => false) token.
Proof. unfold isVariable. by destruct (parseFloatOk token). Qed.

Lemma preprocessTokens_ext pf pf' tokens :
  Forall (fun t => isVariable pf t = isVariable pf' t) tokens →
  preprocessTokens pf tokens = preprocessTokens pf' tokens.
Proof.
  unfold preprocessTokens. induction 1 as [|t ts Ht _ IH]; simpl; [done|].
  by rewrite Ht, IH.
Qed.

Lemma Parse_ext pf pf' dt line ts :
  preprocessTokens pf (tokenize line) = preprocessTokens pf' (tokenize line) →
  Parse pf dt line ts = Parse pf' dt line ts.
Proof. intros H. unfold Parse. by rewrite H. Qed.

Lemma parse_all_ext pf pf' calls :
  Forall (fun call => preprocessTokens pf (tokenize call.1)
                      = preprocessTokens pf' (tokenize call.1)) calls →
  ∀ dt, parse_all pf dt calls = parse_all pf' dt calls.
Proof.
  induction 1 as [|[line ts] calls Hc _ IH]; intros dt; simpl; [done|].
  rewrite (Parse_ext pf pf' dt line ts Hc).
  destruct (Parse pf' dt line ts) as [[dt1 r]| |]; simpl; [|done|done].
  by rewrite IH.
Qed.

(** A token on which [ParseFloat] fails is a variable exactly when one of
    the patterns matches it; a token that a pattern matches is a variable
    whatever [ParseFloat] says. *)
Ltac token_class pf :=
  rewrite (isVariable_split pf);
  match goal with
  | H : pf ?t = false |- pf ?t || _ = _ => rewrite H; reflexivity
  | |- pf ?t || ?b = _ =>
    replace b with true by (vm_compute; reflexivity);
    rewrite orb_true_r; vm_compute; reflexivity
  end.

Ltac same_tokens pf :=
  apply preprocessTokens_ext;
  match goal with
  | |- Forall _ (tokenize ?line) =>
    let toks := eval vm_compute in (tokenize line) in
    change (tokenize line) with toks
  end;
  repeat (constructor; [token_class pf|]); constructor.

(** One function that [parseFloatOk] can be: it accepts the numerals
    [[+-]?\d{1,15}(\.\d{1,15})?], all of which [ParseFloat] parses without
    error, and nothing else. *)
Definition short_decimal (token : string) : bool :=
  let sign := Regex.Opt (Regex.Cls (Regex.one_of "+-")) in
  let digits := Regex.Rep Regex.digit 1 (Some 15%nat) in
  let numeral := Regex.seqs [sign; digits; Regex.Opt (Regex.Seq (Regex.lit ".") digits)] in
  match Regex.run numeral None token
          (fun _ rest => if bool_decide (rest = "") then Some tt else None) with
  | Some _ => true
  | None => false
  end.

Definition line1 : string := "Error connecting to database at 192.168.1.1:5432".
Definition line2 : string := "Error connecting to database at 192.168.1.2:5432".
Definition line3 : string := "Error connecting to database at 10.0.0.1:5432".

(** C8.  [ParseFloat] fails on the five words of the lines.  Feeding the
    three lines, at any timestamps, into a fresh tree with the default
    configuration yields [IsNew = true, false, false]; the tree then holds
    exactly one cluster, of size 3, which is the one the three results
    name; and the second and the third result each bind a variable to the
    original [IP:port] token of their line. *)
Theorem grouping_scenario (parseFloatOk : string → bool) (t1 t2 t3 : Z) :
  parseFloatOk "Error" = false → parseFloatOk "connecting" = false →
  parseFloatOk "to" = false → parseFloatOk "database" = false →
  parseFloatOk "at" = false →
  ∃ dt r1 r2 r3 c,
    parse_all parseFloatOk (NewDrainTree DefaultConfig)
              [(line1, t1); (line2, t2); (line3, t3)]
    = Done (dt, [ParseOk r1; ParseOk r2; ParseOk r3])
    ∧ IsNew r1 = true ∧ IsNew r2 = false ∧ IsNew r3 = false
    ∧ ClusterCount dt = 1 ∧ heap dt = [c] ∧ Size c = 3
    ∧ GetCluster dt (TemplateID r1) = Some c
    ∧ TemplateID r2 = TemplateID r1 ∧ TemplateID r3 = TemplateID r1
    ∧ Variables r2 !! "var_0" = Some "192.168.1.2:5432"
    ∧ Variables r3 !! "var_0" = Some "10.0.0.1:5432".
Proof.
  intros H1 H2 H3 H4 H5.
  rewrite (parse_all_ext parseFloatOk (fun _ => false)).
  2: { repeat (constructor; [cbn [fst]; same_tokens parseFloatOk|]).
       constructor. }
  eexists _, _, _, _, _. split; [vm_compute; reflexivity|].
  repeat (split; [reflexivity|]). reflexivity.
Qed.

Lemma grouping_scenario_witness :
  ∃ dt r1 r2 r3 c,
    parse_all short_decimal (NewDrainTree DefaultConfig)
              [(line1, 1); (line2, 2); (line3, 3)]
    = Done (dt, [ParseOk r1; ParseOk r2; ParseOk r3])
    ∧ IsNew r1 = true ∧ IsNew r2 = false ∧ IsNew r3 = false
    ∧ ClusterCount dt = 1 ∧ heap dt = [c] ∧ Size c = 3
    ∧ GetCluster dt (TemplateID r1) = Some c
    ∧ TemplateID r2 = TemplateID r1 ∧ TemplateID r3 = TemplateID r1
    ∧ Variables r2 !! "var_0" = Some "192.168.1.2:5432"
    ∧ Variables r3 !! "var_0" = Some "10.0.0.1:5432".
Proof.
  apply (grouping_scenario short_decimal 1 2 3); reflexivity.
Defined.

(** ** The capacity of a node *)

Definition one_child_config : Config :=
  {| MaxDepth := 4; SimThreshold := 0.5%float; MaxChildren := 1; MaxClusters := 20;
     MaxSampleLogs := 5; ExtraDelimiter := "" |}.

(** C3, the code at a failing input.  With [MaxChildren = 1], parsing
    ["a x"] and then ["b x"] leaves the node of the lines of two tokens with
    two children, ["a"] and ["b"], and without a wildcard child: [addToTree]
    never reads [maxChildren], and adds the exact-token edge whatever the
    number of children. *)
Theorem max_children_not_enforced (parseFloatOk : string → bool) (t1 t2 : Z) :
  parseFloatOk "a" = false → parseFloatOk "b" = false → parseFloatOk "x" = false →
  ∃ dt rs lenNode,
    parse_all parseFloatOk (NewDrainTree one_child_config) [("a x", t1); ("b x", t2)]
    = Done (dt, rs)
    ∧ maxChildren dt = 1
    ∧ KeyToChildNode (root dt) !! "len_2" = Some lenNode
    ∧ Z.of_nat (size (KeyToChildNode lenNode)) = 2
    ∧ is_Some (KeyToChildNode lenNode !! "a")
    ∧ is_Some (KeyToChildNode lenNode !! "b")
    ∧ KeyToChildNode lenNode !! wildcard = None.
Proof.
  intros Ha Hb Hx.
  rewrite (parse_all_ext parseFloatOk (fun _ => false)).
  2: { repeat (constructor; [cbn [fst]; same_tokens parseFloatOk|]).
       constructor. }
  eexists _, _, _. split; [vm_compute; reflexivity|].
  split; [reflexivity|]. split; [vm_compute; reflexivity|].
  split; [reflexivity|]. split; [by eexists|]. split; [by eexists|]. reflexivity.
Qed.

Lemma max_children_not_enforced_witness :
  ∃ dt rs lenNode,
    parse_all short_decimal (NewDrainTree one_child_config) [("a x", 1); ("b x", 2)]
    = Done (dt, rs)
    ∧ maxChildren dt = 1
    ∧ KeyToChildNode (root dt) !! "len_2" = Some lenNode
    ∧ Z.of_nat (size (KeyToChildNode lenNode)) = 2
    ∧ is_Some (KeyToChildNode lenNode !! "a")
    ∧ is_Some (KeyToChildNode lenNode !! "b")
    ∧ KeyToChildNode lenNode !! wildcard = None.
Proof.
  apply (max_children_not_enforced short_decimal 1 2); reflexivity.
Defined.


(* ===================================================================== *)
(** * Further properties of the Drain tree *)
(* ===================================================================== *)

(** ** What [createCluster] records *)

Lemma createCluster_index dt tokens ts dt' pc :
  createCluster dt tokens ts = Done (dt', pc) →
  ∃ c, pc = (List.length (heap dt), c)
       ∧ heap dt' = (heap dt ++ [c])%list
       ∧ clusters dt' = <[ID c := List.length (heap dt)]> (clusters dt)
       ∧ ID c = generateClusterID tokens ∧ Tokens c = tokens
       ∧ Template c = GoStrings.Join tokens " "
       ∧ Size c = 1 ∧ FirstSeen c = ts ∧ LastSeen c = ts
       ∧ maxDepth dt' = maxDepth dt ∧ simThreshold dt' = simThreshold dt.
Proof.
  unfold createCluster. intros H. inv_bind H. injection H as <- <-.
  eexists. by repeat split.
Qed.

(** The cases of one [Parse] call, with the tree before and after. *)
Lemma Parse_cases parseFloatOk dt line ts dt' r :
  Parse parseFloatOk dt line ts = Done (dt', r) →
  (tokenize line = [] ∧ dt' = dt ∧ r = ParseErr "empty log content")
  ∨ (tokenize line ≠ []
     ∧ ∃ (p : nat) c res,
         r = ParseOk res ∧ IsNew res = false
         ∧ heap dt !! p = Some c
         ∧ slen (Tokens c) = slen (preprocessTokens parseFloatOk (tokenize line))
         ∧ dt' = store dt p (updateCluster c (preprocessTokens parseFloatOk (tokenize line)) ts)
         ∧ TemplateID res = ID c
         ∧ ResTemplate res
           = Template (updateCluster c (preprocessTokens parseFloatOk (tokenize line)) ts)
         ∧ Variables res
           = extractVariables
               (Template (updateCluster c (preprocessTokens parseFloatOk (tokenize line)) ts))
               line)
  ∨ (tokenize line ≠ []
     ∧ ∃ c res,
         r = ParseOk res ∧ IsNew res = true
         ∧ createCluster dt (preprocessTokens parseFloatOk (tokenize line)) ts
           = Done (dt', (List.length (heap dt), c))
         ∧ TemplateID res = ID c ∧ ResTemplate res = Template c
         ∧ Variables res = extractVariables (Template c) line).
Proof.
  unfold Parse. destruct (tokenize line) as [|t toks] eqn:Etok.
  { intros H. injection H as <- <-. by left. }
  replace (slen (t :: toks) =? 0) with false
    by (symmetry; apply Z.eqb_neq; unfold slen; simpl; lia).
  intros H. right. inv_bind H. inv_bind H.
  destruct a0 as [[dt1 c1] isNew]. injection H as <- <-.
  destruct a as [[p c]|].
  - left. split; [done|]. injection Ha0 as <- <- <-.
    exists p, c. eexists. split; [done|]. split; [done|].
    split; [by eapply treeSearch_fuel_sound|].
    split; [by eapply treeSearch_fuel_floor|]. done.
  - right. split; [done|]. inv_bind Ha0. injection Ha0 as <- <- <-.
    destruct a as [dt1 [p c]].
    destruct (createCluster_index _ _ _ _ _ Ha1) as (c0 & Hpc & _).
    injection Hpc as -> ->. exists c0. eexists. by repeat split.
Qed.

Section DrainExtras.

Variable parseFloatOk : string → bool.

(** ** Token lengths *)

Lemma preprocessTokens_length tokens :
  List.length (preprocessTokens parseFloatOk tokens) = List.length tokens.
Proof. unfold preprocessTokens. apply length_map. Qed.

Lemma updateCluster_length c tokens ts :
  List.length (Tokens (updateCluster c tokens ts)) = List.length (Tokens c).
Proof. unfold updateCluster. cbn [Tokens]. apply length_imap. Qed.

Definition lengths_kept (h h' : list LogCluster) : Prop :=
  ∀ p c, h !! p = Some c →
         ∃ c', h' !! p = Some c' ∧ List.length (Tokens c') = List.length (Tokens c).

Lemma heap_step_lengths tokens ts h h' r : heap_step tokens ts h h' r → lengths_kept h h'.
Proof.
  intros Hs p c Hp. destruct Hs as [h | h c0 r | h p0 c0 r Hp0].
  - eauto.
  - exists c. split; [|done]. by apply lookup_app_l_Some.
  - destruct (decide (p = p0)) as [->|Hne].
    + assert (c0 = c) as -> by congruence.
      eexists. split;
        [apply list_lookup_insert_eq; by eapply lookup_lt_Some
        | apply updateCluster_length].
    + exists c. split; [|done]. by rewrite list_lookup_insert_ne.
Qed.

Lemma parse_all_lengths dt calls dt' rs :
  parse_all parseFloatOk dt calls = Done (dt', rs) →
  lengths_kept (heap dt) (heap dt').
Proof.
  apply (parse_all_preserves parseFloatOk lengths_kept).
  - intros h p c; eauto.
  - intros h1 h2 h3 H12 H23 p c Hp.
    destruct (H12 p c Hp) as (c2 & Hp2 & Hl2).
    destruct (H23 p c2 Hp2) as (c3 & Hp3 & Hl3).
    exists c3. split; [done | congruence].
  - apply heap_step_lengths.
Qed.

(** X1.  Length partitioning.  On a tree built by [NewDrainTree] and used for
    any calls, a call of [Parse] on a line with tokens reports a cluster
    that, after the call, has as many tokens as the line; and whatever calls
    follow, every cluster keeps the number of tokens it has. *)
Theorem token_length_partitions
        (config : Config) (before : list (string * Z))
        (line : string) (ts : Z) (after : list (string * Z)) :
  ∃ dt1 rs1 dt2 r dt3 rs3,
    parse_all parseFloatOk (NewDrainTree config) before = Done (dt1, rs1)
    ∧ Parse parseFloatOk dt1 line ts = Done (dt2, r)
    ∧ parse_all parseFloatOk dt2 after = Done (dt3, rs3)
    ∧ (∀ res, r = ParseOk res →
         ∃ (p : nat) c, heap dt2 !! p = Some c ∧ ID c = TemplateID res
                ∧ Template c = ResTemplate res
                ∧ List.length (Tokens c) = List.length (tokenize line))
    ∧ (∀ (p : nat) c, heap dt2 !! p = Some c →
         ∃ c', heap dt3 !! p = Some c'
               ∧ List.length (Tokens c') = List.length (Tokens c)).
Proof.
  destruct (parse_all_total parseFloatOk (NewDrainTree config) before)
    as (dt1 & rs1 & H1 & Hwf1); [apply NewDrainTree_wf|].
  destruct (Parse_total parseFloatOk dt1 line ts Hwf1) as (dt2 & r & H2 & Hwf2 & _).
  destruct (parse_all_total parseFloatOk dt2 after) as (dt3 & rs3 & H3 & _); [done|].
  exists dt1, rs1, dt2, r, dt3, rs3.
  split; [done|]. split; [done|]. split; [done|]. split.
  - intros res ->.
    destruct (Parse_cases _ _ _ _ _ _ H2)
      as [(_ & _ & ?) | [(_ & p & c & res' & Hr & _ & Hp & Hlen & -> & Hid & Htpl & _)
                        | (_ & c & res' & Hr & _ & Hc & Hid & Htpl & _)]];
      [discriminate | |]; injection Hr as <-.
    + exists p. eexists. split.
      { cbn [store heap]. apply list_lookup_insert_eq. by eapply lookup_lt_Some. }
      split; [done|]. split; [done|].
      rewrite updateCluster_length. unfold slen in Hlen.
      rewrite preprocessTokens_length in Hlen. lia.
    + destruct (createCluster_index _ _ _ _ _ Hc)
        as (c0 & Hpc & Hh & _ & _ & Htok & _).
      injection Hpc as <-. exists (List.length (heap dt1)), c.
      split; [rewrite Hh; by apply list_lookup_middle|].
      split; [done|]. split; [done|].
      by rewrite Htok, preprocessTokens_length.
  - by eapply parse_all_lengths.
Qed.

(** ** Size accounting *)

Definition total_size (h : list LogCluster) : Z :=
  foldr (fun c acc => Size c + acc) 0 h.

(** The calls that returned a result. *)
Definition parsed (rs : list ParseReturn) : Z :=
  foldr (fun r acc => match r with ParseOk _ => 1 + acc | ParseErr _ => acc end) 0 rs.

Lemma total_size_app h h' : total_size (h ++ h') = total_size h + total_size h'.
Proof. induction h as [|c h IH]; simpl; [done|]. rewrite IH. lia. Qed.

Lemma total_size_insert h p c c' :
  h !! p = Some c → total_size (<[p := c']> h) = total_size h - Size c + Size c'.
Proof.
  revert p. induction h as [|x h IH]; intros p Hp; [done|].
  destruct p as [|p]; simpl in Hp.
  - injection Hp as ->. simpl. lia.
  - simpl. rewrite (IH p Hp). lia.
Qed.

Lemma size_le_total h p c :
  Forall (fun c => 1 ≤ Size c) h → h !! p = Some c → Size c ≤ total_size h.
Proof.
  intros Hall. revert p. induction Hall as [|x h Hx Hall IH]; intros p Hp; [done|].
  assert (0 ≤ total_size h).
  { clear -Hall. induction Hall; simpl; lia. }
  destruct p as [|p]; simpl in Hp.
  - injection Hp as ->. simpl. lia.
  - specialize (IH p Hp). simpl. lia.
Qed.

Lemma wrap64_small z : 0 ≤ z < 2 ^ 63 → wrap64 z = z.
Proof. intros H. unfold wrap64. rewrite Z.mod_small; lia. Qed.

Definition sizes_ok (h : list LogCluster) (n : Z) : Prop :=
  Forall (fun c => 1 ≤ Size c) h ∧ total_size h = n.

Lemma heap_step_sizes tokens ts h h' r n :
  heap_step tokens ts h h' r → sizes_ok h n → n + 1 < 2 ^ 63 →
  sizes_ok h' (n + parsed [r]).
Proof.
  intros Hs [Hall Htot] Hn.
  destruct Hs as [h | h c0 r ? ? ? Hsz | h p0 c0 r Hp0].
  - split; [done|]. simpl. lia.
  - split.
    + apply Forall_app. split; [done|]. constructor; [lia | constructor].
    + rewrite total_size_app. simpl. lia.
  - pose proof (size_le_total h p0 c0 Hall Hp0) as Hle.
    assert (Hone : 1 ≤ Size c0).
    { rewrite Forall_forall in Hall. apply Hall. by eapply list_elem_of_lookup_2. }
    assert (Hsz : Size (updateCluster c0 tokens ts) = Size c0 + 1).
    { unfold updateCluster. cbn [Size]. apply wrap64_small. lia. }
    split.
    + apply Forall_insert; [done|]. lia.
    + rewrite (total_size_insert h p0 c0 _ Hp0), Hsz. simpl. lia.
Qed.

Lemma parsed_cons r rs : parsed (r :: rs) = parsed [r] + parsed rs.
Proof. destruct r; simpl; lia. Qed.

Lemma parsed_bounds rs : 0 ≤ parsed rs ≤ Z.of_nat (List.length rs).
Proof. induction rs as [|[]]; simpl in *; lia. Qed.

Lemma parse_all_results_length dt calls dt' rs :
  parse_all parseFloatOk dt calls = Done (dt', rs) → List.length rs = List.length calls.
Proof.
  revert dt rs. induction calls as [|[line ts] calls IH]; intros dt rs H.
  - by injection H as <- <-.
  - apply parse_all_cons in H as (dt1 & r & rs' & _ & Hall & ->).
    simpl. f_equal. by eapply IH.
Qed.

Lemma parse_all_sizes calls dt dt' rs n :
  parse_all parseFloatOk dt calls = Done (dt', rs) →
  sizes_ok (heap dt) n → n + Z.of_nat (List.length calls) < 2 ^ 63 →
  sizes_ok (heap dt') (n + parsed rs).
Proof.
  revert dt rs n. induction calls as [|[line ts] calls IH]; intros dt rs n H Hok Hn.
  - injection H as <- <-. simpl. by rewrite Z.add_0_r.
  - apply parse_all_cons in H as (dt1 & r & rs' & HP & Hall & ->).
    apply Parse_heap in HP.
    cbn [List.length] in Hn. rewrite Nat2Z.inj_succ in Hn.
    pose proof (heap_step_sizes _ _ _ _ _ _ HP Hok ltac:(lia)) as Hok1.
    pose proof (parsed_bounds [r]) as Hb. simpl List.length in Hb.
    rewrite parsed_cons, Z.add_assoc. eapply IH; [done | done | lia].
Qed.

(** X2.  Size accounting.  As long as fewer than [2^63] calls were made (so
    that no [Size++] overflows), the sizes of the clusters of the tree add
    up to the number of [Parse] calls that returned a result, and every
    cluster has a size of at least one. *)
Theorem sizes_add_up (config : Config) (calls : list (string * Z)) :
  Z.of_nat (List.length calls) < 2 ^ 63 →
  ∃ dt rs,
    parse_all parseFloatOk (NewDrainTree config) calls = Done (dt, rs)
    ∧ total_size (heap dt) = parsed rs
    ∧ (∀ (p : nat) c, heap dt !! p = Some c → 1 ≤ Size c ≤ parsed rs).
Proof.
  intros Hn.
  destruct (parse_all_total parseFloatOk (NewDrainTree config) calls)
    as (dt & rs & H & _); [apply NewDrainTree_wf|].
  exists dt, rs. split; [done|].
  destruct (parse_all_sizes _ _ _ _ 0 H) as [Hall Htot]; [by split | lia |].
  rewrite Z.add_0_l in Htot. split; [done|].
  intros p c Hp. split.
  - rewrite Forall_forall in Hall. apply Hall. by eapply list_elem_of_lookup_2.
  - rewrite <- Htot. by eapply size_le_total.
Qed.

(** ** Looking a cluster up by its id *)

(** The index [clusters] and the heap agree: an id leads to a cluster
    with that id, and the id of every cluster is in the index. *)
Definition index_ok (dt : DrainTree) : Prop :=
  (∀ id (p : nat), clusters dt !! id = Some p →
                   ∃ c, heap dt !! p = Some c ∧ ID c = id)
  ∧ (∀ (p : nat) c, heap dt !! p = Some c → is_Some (clusters dt !! ID c)).

Lemma Parse_index_ok dt line ts dt' r :
  Parse parseFloatOk dt line ts = Done (dt', r) → index_ok dt → index_ok dt'.
Proof.
  intros HP [Hidx Hheap].
  destruct (Parse_cases _ _ _ _ _ _ HP)
    as [(_ & -> & _) | [(_ & p & c & res & _ & _ & Hp & _ & -> & _)
                      | (_ & c & res & _ & _ & Hc & _)]]; [done | |].
  - split; cbn [store heap clusters].
    + intros id p0 Hid. destruct (Hidx id p0 Hid) as (c0 & Hp0 & Hc0).
      destruct (decide (p0 = p)) as [->|Hne].
      * assert (c0 = c) as -> by congruence.
        eexists. split;
          [apply list_lookup_insert_eq; by eapply lookup_lt_Some | done].
      * exists c0. by rewrite list_lookup_insert_ne.
    + intros p0 c0 Hp0. destruct (decide (p0 = p)) as [->|Hne].
      * rewrite list_lookup_insert_eq in Hp0 by (by eapply lookup_lt_Some).
        injection Hp0 as <-. by apply (Hheap p c).
      * rewrite list_lookup_insert_ne in Hp0 by done. by eapply Hheap.
  - destruct (createCluster_index _ _ _ _ _ Hc) as (c0 & Hpc & Hh & Hcl & _).
    injection Hpc as <-. unfold index_ok. rewrite Hh, Hcl. split.
    + intros id p0 Hid. destruct (decide (ID c = id)) as [<-|Hne].
      * rewrite lookup_insert_eq in Hid. injection Hid as <-.
        exists c. split; [by apply list_lookup_middle | done].
      * rewrite lookup_insert_ne in Hid by done.
        destruct (Hidx id p0 Hid) as (c0 & Hp0 & Hc0).
        exists c0. split; [by apply lookup_app_l_Some | done].
    + intros p0 c0 Hp0. destruct (decide (ID c = ID c0)) as [->|Hne].
      * rewrite lookup_insert_eq. by eexists.
      * rewrite lookup_insert_ne by done.
        apply lookup_app_Some in Hp0 as [Hp0|[_ Hp0]]; [by eapply Hheap|].
        apply list_lookup_singleton_Some in Hp0 as [_ <-]. done.
Qed.

Lemma parse_all_index_ok calls dt dt' rs :
  parse_all parseFloatOk dt calls = Done (dt', rs) → index_ok dt → index_ok dt'.
Proof.
  revert dt rs. induction calls as [|[line ts] calls IH]; intros dt rs H Hok.
  - by injection H as <- <-.
  - apply parse_all_cons in H as (dt1 & r & rs' & HP & Hall & ->).
    eapply IH; [done|]. by eapply Parse_index_ok.
Qed.

(** X3.  Lookup by id.  In every tree built by [NewDrainTree] and used for any
    calls, [GetCluster(id)] finds a cluster exactly when a cluster of the
    tree has that id, and the cluster it finds has that id. *)
Theorem GetCluster_finds_exactly_the_ids
        (config : Config) (calls : list (string * Z)) (id : string) :
  ∃ dt rs,
    parse_all parseFloatOk (NewDrainTree config) calls = Done (dt, rs)
    ∧ ((∃ c, GetCluster dt id = Some c ∧ ID c = id)
       ↔ (∃ (p : nat) c, heap dt !! p = Some c ∧ ID c = id))
    ∧ (GetCluster dt id = None
       ↔ ∀ (p : nat) c, heap dt !! p = Some c → ID c ≠ id).
Proof.
  destruct (parse_all_total parseFloatOk (NewDrainTree config) calls)
    as (dt & rs & H & _); [apply NewDrainTree_wf|].
  exists dt, rs. split; [done|].
  destruct (parse_all_index_ok _ _ _ _ H) as [Hidx Hheap].
  { split; cbn [NewDrainTree clusters heap];
      [intros id' p Hp; by rewrite lookup_empty in Hp | intros p c Hp; done]. }
  unfold GetCluster. split; [split|split].
  - intros (c & Hg & Hc). destruct (clusters dt !! id) as [p|]; [|done].
    simpl in Hg. by exists p, c.
  - intros (p & c & Hp & <-). destruct (Hheap p c Hp) as [p' Hp'].
    rewrite Hp'. simpl. destruct (Hidx _ _ Hp') as (c' & Hc' & Hid').
    by exists c'.
  - intros Hg p c Hp <-. destruct (Hheap p c Hp) as [p' Hp'].
    rewrite Hp' in Hg. simpl in Hg. destruct (Hidx _ _ Hp') as (c' & Hc' & _).
    congruence.
  - intros Hno. destruct (clusters dt !! id) as [p|] eqn:E; [|done]. simpl.
    destruct (Hidx _ _ E) as (c & Hc & Hid). by destruct (Hno p c Hc).
Qed.

End DrainExtras.

(* ===================================================================== *)
(** * [strings.Fields] and [strings.Join] *)
(* ===================================================================== *)

Import GoStrings.

(** No white-space rune starts at any position of [t], where [t] is
    followed by [r]. *)
Fixpoint clean (t r : string) : Prop :=
  match t with
  | EmptyString => True
  | String c t' => space_width (String c (t' ++ r)) = 0%nat ∧ clean t' r
  end.

(** A field: not empty, and free of white space. *)
Definition is_field (t : string) : Prop := t ≠ "" ∧ clean t "".

Lemma string_app_nil_r (s : string) : s ++ "" = s.
Proof. induction s as [|c s IH]; [done|]. by rewrite string_app_cons, IH. Qed.

Lemma clean_snoc cur c s :
  clean cur (String c s) → space_width (String c s) = 0%nat →
  clean (cur ++ String c "") s.
Proof.
  induction cur as [|a cur IH]; intros Hc Hw.
  - split; [done | exact I].
  - destruct Hc as [Ha Hc]. rewrite string_app_cons. split.
    + rewrite string_app_assoc. exact Ha.
    + by apply IH.
Qed.

(** Where the text after [t] starts with a space or is empty, only the
    bytes of [t] decide whether [t] is clean. *)
Definition boundary (r : string) : Prop := r = "" ∨ ∃ r', r = String " " r'.

Lemma space_width_boundary1 c r r' :
  space_width (String c r) = 0%nat → boundary r' →
  space_width (String c r') = 0%nat.
Proof.
  unfold space_width at 1. intros H Hb.
  destruct ((9 <=? byte_of c)%N && (byte_of c <=? 13)%N || (byte_of c =? 32)%N) eqn:E1;
    [discriminate|].
  unfold space_width. rewrite E1.
  destruct Hb as [->|[r'' ->]]; [done|].
  change (byte_of " ") with 32%N.
  destruct (byte_of c =? 194)%N, (byte_of c =? 225)%N, (byte_of c =? 226)%N,
    (byte_of c =? 227)%N; destruct r''; reflexivity.
Qed.

Lemma space_width_boundary2 c d r r' :
  space_width (String c (String d r)) = 0%nat → boundary r' →
  space_width (String c (String d r')) = 0%nat.
Proof.
  unfold space_width at 1. intros H Hb.
  destruct ((9 <=? byte_of c)%N && (byte_of c <=? 13)%N || (byte_of c =? 32)%N) eqn:E1;
    [discriminate|].
  destruct ((byte_of c =? 194)%N && ((byte_of d =? 133)%N || (byte_of d =? 160)%N)) eqn:E2;
    [discriminate|].
  unfold space_width. rewrite E1, E2.
  destruct Hb as [->|[r'' ->]]; [done|].
  change (byte_of " ") with 32%N.
  destruct (byte_of c =? 225)%N, (byte_of c =? 226)%N, (byte_of c =? 227)%N,
    (byte_of d =? 154)%N, (byte_of d =? 128)%N, (byte_of d =? 129)%N; reflexivity.
Qed.

Lemma clean_boundary t r r' : clean t r → boundary r' → clean t r'.
Proof.
  intros Hc Hb. induction t as [|c t IH]; [done|].
  destruct Hc as [Hw Hc]. split; [|by apply IH].
  destruct t as [|d [|e t]].
  - by eapply space_width_boundary1.
  - by eapply space_width_boundary2.
  - exact Hw.
Qed.

Lemma Fields_go_clean t r cur :
  clean t r → Fields_go (t ++ r) 0 cur = Fields_go r 0 (cur ++ t).
Proof.
  revert cur. induction t as [|c t IH]; intros cur Hc.
  - by rewrite string_app_nil_r.
  - destruct Hc as [Hw Hc]. rewrite string_app_cons.
    cbn [Fields_go]. rewrite Hw. rewrite (IH _ Hc).
    by rewrite string_app_assoc.
Qed.

Lemma flush_field t : t ≠ "" → flush t = [t].
Proof. by destruct t. Qed.

Lemma Fields_field t : is_field t → Fields t = [t].
Proof.
  intros [Hne Hc]. unfold Fields.
  rewrite <- (string_app_nil_r t) at 1. rewrite (Fields_go_clean _ _ _ Hc).
  cbn [Fields_go]. by apply flush_field.
Qed.

Lemma Fields_go_space s cur :
  Fields_go (String " " s) 0 cur = (flush cur ++ Fields_go s 0 EmptyString)%list.
Proof. reflexivity. Qed.

(** Round trip: splitting the join of fields gives the fields back. *)
Lemma Fields_Join (ts : list string) :
  Forall is_field ts → Fields (Join ts " ") = ts.
Proof.
  induction 1 as [|t ts Ht Hts IH]; [done|].
  destruct ts as [|u ts].
  - by apply Fields_field.
  - change (Join (t :: u :: ts) " ") with (t ++ String " " (Join (u :: ts) " ")).
    destruct Ht as [Hne Hc]. unfold Fields.
    rewrite Fields_go_clean by (eapply clean_boundary; [done | right; by eexists]).
    change (EmptyString ++ t) with t.
    rewrite Fields_go_space, (flush_field t Hne). cbn [app]. f_equal. exact IH.
Qed.

(** What [Fields] returns are fields. *)
Lemma Fields_go_fields s skip cur :
  clean cur s → (skip = 0%nat ∨ cur = "") →
  Forall is_field (Fields_go s skip cur).
Proof.
  revert skip cur. induction s as [|c s IH]; intros skip cur Hc Hs.
  - cbn [Fields_go]. destruct cur as [|a cur]; [constructor|].
    constructor; [|constructor]. split; [done|].
    eapply clean_boundary; [done | by left].
  - cbn [Fields_go]. destruct skip as [|k].
    + destruct (space_width (String c s)) as [|k] eqn:Ew.
      * apply IH; [by apply clean_snoc | by left].
      * apply Forall_app. split.
        -- destruct cur as [|a cur]; [constructor|].
           constructor; [|constructor]. split; [done|].
           eapply clean_boundary; [done | by left].
        -- apply IH; [exact I | by right].
    + destruct Hs as [Hs|Hs]; [done|]. subst cur. apply IH; [exact I | by right].
Qed.

Lemma Fields_fields s : Forall is_field (Fields s).
Proof. apply Fields_go_fields; [exact I | by left]. Qed.

(** X4.  Round trip on any text: [Fields] undoes [Join] on what [Fields]
    returned; no field is empty, none contains white space. *)
Theorem Fields_Join_Fields (s : string) :
  Fields (Join (Fields s) " ") = Fields s
  ∧ Forall (fun t => t ≠ "" ∧ Fields t = [t]) (Fields s).
Proof.
  split; [apply Fields_Join, Fields_fields|].
  eapply Forall_impl; [apply Fields_fields|].
  intros t Ht. split; [by destruct Ht | by apply Fields_field].
Qed.

(* ===================================================================== *)
(** * Templates and variables *)
(* ===================================================================== *)

Lemma is_field_wildcard : is_field wildcard.
Proof. split; [done|]. repeat split. Qed.

Lemma itoa_inj a b : itoa a = itoa b → a = b.
Proof.
  unfold itoa. intros H. apply DecimalZ.to_int_inj.
  assert (Hn : ∀ z, Z.to_int z ≠ Decimal.Pos Decimal.Nil
                    ∧ Z.to_int z ≠ Decimal.Neg Decimal.Nil).
  { intros [|p|p]; simpl; split; try discriminate;
      intros [= Hp]; by apply DecimalPos.Unsigned.to_uint_nonnil in Hp. }
  apply (f_equal NilZero.int_of_string) in H.
  rewrite !NilZero.isi in H by apply Hn. congruence.
Qed.

(** The key [extractVariables] gives to the variable number [k]. *)
Definition var (k : Z) : string := "var_" ++ itoa k.

Lemma var_inj a b : var a = var b → a = b.
Proof. unfold var. intros H. apply String.app_inj in H. by apply itoa_inj. Qed.

(** The positions of the wildcards of a template, in increasing order. *)
Fixpoint wild_from (o : nat) (C : list string) : list nat :=
  match C with
  | [] => []
  | t :: C' => if streq t wildcard then o :: wild_from (S o) C' else wild_from (S o) C'
  end.

Definition wild_positions (C : list string) : list nat := wild_from 0 C.

Lemma elem_of_wild_from o C i :
  i ∈ wild_from o C ↔ (o ≤ i)%nat ∧ C !! (i - o)%nat = Some wildcard.
Proof.
  revert o. induction C as [|t C IH]; intros o; cbn [wild_from].
  - rewrite elem_of_nil. split; [done | by intros [_ ?]].
  - assert (Hrec : i ∈ wild_from (S o) C
                   ↔ (o < i)%nat ∧ (t :: C) !! (i - o)%nat = Some wildcard).
    { rewrite IH. split; intros [Hle Hl]; (split; [lia|]).
      - replace (i - o)%nat with (S (i - S o)) by lia. exact Hl.
      - replace (i - o)%nat with (S (i - S o)) in Hl by lia. exact Hl. }
    unfold streq. case_bool_decide as Ht.
    + rewrite elem_of_cons, Hrec. subst t. split.
      * intros [->|[Hlt Hl]]; [|split; [lia | done]].
        split; [lia|]. by rewrite Nat.sub_diag.
      * intros [Hle Hl]. destruct (decide (i = o)) as [->|Hne]; [by left|].
        right. split; [lia | done].
    + rewrite Hrec. split; [intros [Hlt Hl]; split; [lia | done]|].
      intros [Hle Hl]. destruct (decide (i = o)) as [->|Hne].
      * rewrite Nat.sub_diag in Hl. simpl in Hl. congruence.
      * split; [lia | done].
Qed.

Lemma elem_of_wild_positions C i :
  i ∈ wild_positions C ↔ C !! i = Some wildcard.
Proof.
  unfold wild_positions. rewrite elem_of_wild_from, Nat.sub_0_r.
  split; [by intros [_ ?] | intros ?; split; [lia | done]].
Qed.

Definition positions_from (o : nat) (C : list string) : list (nat * string) :=
  imap (fun i t => ((o + i)%nat, t)) C.

Lemma positions_from_cons o t C :
  positions_from o (t :: C) = (o, t) :: positions_from (S o) C.
Proof.
  unfold positions_from. rewrite imap_cons. f_equal; [f_equal; lia|].
  apply imap_ext. intros i x _. simpl. f_equal. lia.
Qed.

(** The map holds variables with numbers below [n] only. *)
Definition keys_below (n : Z) (m : gmap string string) : Prop :=
  ∀ key, is_Some (m !! key) → ∃ j, 0 ≤ j < n ∧ key = var j.

Lemma extract_fold T C o n m :
  (o + List.length C ≤ List.length T)%nat → 0 ≤ n → keys_below n m →
  let st := fold_left (extract_step T) (positions_from o C) (n, m) in
  st.1 = n + Z.of_nat (List.length (wild_from o C))
  ∧ keys_below st.1 st.2
  ∧ ∀ k, 0 ≤ k →
      st.2 !! var k
      = if k <? n then m !! var k
        else i ← wild_from o C !! Z.to_nat (k - n); T !! i.
Proof.
  revert o n m. induction C as [|t C IH]; intros o n m Hlen Hn Hkeys.
  - cbn. split; [lia|]. split; [done|]. intros k Hk.
    destruct (k <? n) eqn:E; [done|]. apply Z.ltb_ge in E.
    destruct (m !! var k) eqn:Em; [|done].
    destruct (Hkeys (var k)) as (j & Hj & Hv); [by eexists|].
    apply var_inj in Hv. lia.
  - rewrite positions_from_cons. cbn [fold_left wild_from List.length] in *.
    destruct (lookup_lt_is_Some_2 T o) as [v Hv]; [lia|].
    destruct (streq t wildcard) eqn:Et.
    + assert (Hstep : extract_step T (n, m) (o, t) = (n + 1, <[var n := v]> m)).
      { unfold extract_step. by rewrite Hv, Et. }
      rewrite Hstep. destruct (IH (S o) (n + 1) (<[var n := v]> m)) as (H1 & H2 & H3);
        [lia | lia | |].
      { intros key [x Hx]. destruct (decide (var n = key)) as [<-|Hne].
        - exists n. split; [lia | done].
        - rewrite lookup_insert_ne in Hx by done.
          destruct (Hkeys key) as (j & Hj & ->); [by eexists|].
          exists j. split; [lia | done]. }
      split; [cbn [List.length]; lia|]. split; [done|].
      intros k Hk. rewrite (H3 k Hk).
      destruct (Z.ltb_spec k (n + 1)), (Z.ltb_spec k n); try lia.
      * rewrite lookup_insert_ne; [done|]. intros Heq. apply var_inj in Heq. lia.
      * assert (k = n) as -> by lia. rewrite lookup_insert_eq.
        rewrite Z.sub_diag. simpl. by rewrite Hv.
      * replace (Z.to_nat (k - n)) with (S (Z.to_nat (k - (n + 1)))) by lia.
        done.
    + assert (Hstep : extract_step T (n, m) (o, t) = (n, m)).
      { unfold extract_step. by rewrite Hv, Et. }
      rewrite Hstep. apply IH; [lia | lia | done].
Qed.

(** What [extractVariables] computes when the template has the fields [C]
    and the line has the tokens [T], at least as many. *)
Lemma extractVariables_spec template line C :
  Fields template = C → (List.length C ≤ List.length (Fields line))%nat →
  (∀ k : nat,
     extractVariables template line !! var (Z.of_nat k)
     = i ← wild_positions C !! k; Fields line !! i)
  ∧ (∀ key, is_Some (extractVariables template line !! key) →
            ∃ k : nat, key = var (Z.of_nat k)
                       ∧ (k < List.length (wild_positions C))%nat).
Proof.
  intros HC Hlen. unfold extractVariables. rewrite HC.
  change (imap (fun i t => (i, t)) C) with (positions_from 0 C).
  destruct (extract_fold (Fields line) C 0 0 ∅) as (H1 & H2 & H3);
    [simpl; lia | lia | |].
  { intros key [x Hx]. by rewrite lookup_empty in Hx. }
  split.
  - intros k. rewrite H3 by lia.
    replace (Z.of_nat k <? 0) with false by (symmetry; apply Z.ltb_ge; lia).
    by rewrite Z.sub_0_r, Nat2Z.id.
  - intros key Hkey. destruct (H2 key Hkey) as (j & Hj & ->).
    exists (Z.to_nat j). split; [by rewrite Z2Nat.id by lia|].
    rewrite H1 in Hj. unfold wild_positions. lia.
Qed.

Section Templates.

Variable parseFloatOk : string → bool.

(** The template string of a cluster is the join of its tokens, and the
    tokens are fields. *)
Definition templates_ok (h : list LogCluster) : Prop :=
  Forall (fun c => Template c = Join (Tokens c) " " ∧ Forall is_field (Tokens c)) h.

Lemma preprocessTokens_fields line :
  Forall is_field (preprocessTokens parseFloatOk (tokenize line)).
Proof.
  unfold preprocessTokens, tokenize. apply Forall_fmap.
  eapply Forall_impl; [apply Fields_fields|]. intros t Ht. simpl.
  destruct (isVariable _ _); [apply is_field_wildcard | done].
Qed.

Lemma updateCluster_fields c tokens ts :
  Forall is_field (Tokens c) → Forall is_field (Tokens (updateCluster c tokens ts)).
Proof.
  intros H. unfold updateCluster. cbn [Tokens].
  apply Forall_lookup. intros i x Hx. rewrite list_lookup_imap in Hx.
  destruct (Tokens c !! i) as [t|] eqn:Et; [|done]. simpl in Hx.
  rewrite Forall_lookup in H. specialize (H i t Et).
  destruct (tokens !! i); [|by injection Hx as <-].
  destruct (negb _); injection Hx as <-; [apply is_field_wildcard | done].
Qed.

Lemma heap_step_templates tokens ts h h' r :
  Forall is_field tokens → heap_step tokens ts h h' r →
  templates_ok h → templates_ok h'.
Proof.
  unfold templates_ok. intros Hf Hs Hh.
  destruct Hs as [h | h c0 r Hid Htok Htpl | h p0 c0 r Hp0].
  - done.
  - apply Forall_app. split; [done|]. constructor; [|constructor].
    rewrite Htok. split; [by rewrite Htpl | done].
  - apply Forall_insert; [done|]. split; [done|].
    apply updateCluster_fields. rewrite Forall_forall in Hh.
    apply (Hh c0). by eapply list_elem_of_lookup_2.
Qed.

Lemma parse_all_templates calls dt dt' rs :
  parse_all parseFloatOk dt calls = Done (dt', rs) →
  templates_ok (heap dt) → templates_ok (heap dt').
Proof.
  revert dt rs. induction calls as [|[line ts] calls IH]; intros dt rs H Hok.
  - by injection H as <- <-.
  - apply parse_all_cons in H as (dt1 & r & rs' & HP & Hall & ->).
    eapply IH; [done|]. eapply heap_step_templates; [| by apply Parse_heap | done].
    apply preprocessTokens_fields.
Qed.

Lemma updateCluster_covers c tokens ts :
  List.length (Tokens c) = List.length tokens →
  Forall2 (fun x t => x = wildcard ∨ x = t) (Tokens (updateCluster c tokens ts)) tokens.
Proof.
  intros Hlen. unfold updateCluster. cbn [Tokens].
  apply Forall2_same_length_lookup_2; [by rewrite length_imap|].
  intros i x t Hx Ht. rewrite list_lookup_imap in Hx.
  destruct (Tokens c !! i) as [x0|]; [|done]. simpl in Hx. rewrite Ht in Hx.
  unfold streq in Hx. case_bool_decide as E; simpl in Hx; injection Hx as <-.
  - by right.
  - by left.
Qed.

(** The cluster a successful [Parse] reports, on a tree that [NewDrainTree]
    built and [Parse] calls changed. *)
Lemma Parse_result_cluster config before line ts dt1 rs1 dt2 res :
  parse_all parseFloatOk (NewDrainTree config) before = Done (dt1, rs1) →
  Parse parseFloatOk dt1 line ts = Done (dt2, ParseOk res) →
  ∃ (p : nat) c,
    heap dt2 !! p = Some c ∧ ID c = TemplateID res
    ∧ Template c = ResTemplate res
    ∧ Variables res = extractVariables (Template c) line
    ∧ Fields (ResTemplate res) = Tokens c
    ∧ Forall2 (fun x t => x = wildcard ∨ x = t) (Tokens c)
              (preprocessTokens parseFloatOk (tokenize line)).
Proof.
  intros H1 H2.
  assert (Hok2 : templates_ok (heap dt2)).
  { eapply heap_step_templates;
      [apply preprocessTokens_fields | by apply Parse_heap |].
    eapply parse_all_templates; [done | constructor]. }
  assert (Hc : ∃ (p : nat) c,
             heap dt2 !! p = Some c ∧ ID c = TemplateID res
             ∧ Template c = ResTemplate res
             ∧ Variables res = extractVariables (Template c) line
             ∧ Forall2 (fun x t => x = wildcard ∨ x = t) (Tokens c)
                       (preprocessTokens parseFloatOk (tokenize line))).
  { destruct (Parse_cases _ _ _ _ _ _ H2)
      as [(_ & _ & ?) | [(_ & p & c & res' & Hr & _ & Hp & Hlen & -> & Hid & Htpl & Hv)
                        | (_ & c & res' & Hr & _ & Hcr & Hid & Htpl & Hv)]];
      [discriminate | |]; injection Hr as <-.
    - exists p. eexists. split.
      { cbn [store heap]. apply list_lookup_insert_eq. by eapply lookup_lt_Some. }
      split; [done|]. split; [done|]. split; [done|].
      apply updateCluster_covers. unfold slen in Hlen. lia.
    - destruct (createCluster_index _ _ _ _ _ Hcr)
        as (c0 & Hpc & Hh & _ & _ & Htok & _).
      injection Hpc as <-. exists (List.length (heap dt1)), c.
      split; [rewrite Hh; by apply list_lookup_middle|].
      split; [done|]. split; [done|]. split; [done|].
      rewrite Htok. apply Forall2_same_length_lookup_2; [done|].
      intros i x t Hx Ht. right. congruence. }
  destruct Hc as (p & c & Hp & Hid & Htpl & Hv & Hcov).
  unfold templates_ok in Hok2. rewrite Forall_forall in Hok2.
  destruct (Hok2 c) as [Hjoin Hfields]; [by eapply list_elem_of_lookup_2|].
  exists p, c. repeat (split; [done|]). split; [|done].
  rewrite <- Htpl, Hjoin. by apply Fields_Join.
Qed.

(** X5.  Variable soundness.  On a tree built by [NewDrainTree] and used for
    any calls, let [Parse] return a result for a line.  Splitting the
    template of the result gives the tokens of the reported cluster, as many
    as the line has tokens.  The variable [var_k] of the result is the token
    of the line at the position of the [k]-th wildcard of the template,
    counting from zero; the result has no other keys; and the positions
    counted are exactly those at which the template has [<*>]. *)
Theorem variables_bind_wildcard_positions
        (config : Config) (before : list (string * Z)) (line : string) (ts : Z) :
  ∃ dt1 rs1 dt2 r,
    parse_all parseFloatOk (NewDrainTree config) before = Done (dt1, rs1)
    ∧ Parse parseFloatOk dt1 line ts = Done (dt2, r)
    ∧ ∀ res, r = ParseOk res →
        List.length (Fields (ResTemplate res)) = List.length (tokenize line)
        ∧ (∃ (p : nat) c, heap dt2 !! p = Some c ∧ ID c = TemplateID res
                          ∧ Tokens c = Fields (ResTemplate res))
        ∧ (∀ k : nat,
             Variables res !! ("var_" ++ itoa (Z.of_nat k))
             = i ← wild_positions (Fields (ResTemplate res)) !! k; tokenize line !! i)
        ∧ (∀ key, is_Some (Variables res !! key) →
             ∃ k : nat, key = "var_" ++ itoa (Z.of_nat k)
                        ∧ (k < List.length (wild_positions (Fields (ResTemplate res))))%nat)
        ∧ (∀ i, i ∈ wild_positions (Fields (ResTemplate res))
                ↔ Fields (ResTemplate res) !! i = Some wildcard).
Proof.
  destruct (parse_all_total parseFloatOk (NewDrainTree config) before)
    as (dt1 & rs1 & H1 & Hwf1); [apply NewDrainTree_wf|].
  destruct (Parse_total parseFloatOk dt1 line ts Hwf1) as (dt2 & r & H2 & _).
  exists dt1, rs1, dt2, r. split; [done|]. split; [done|].
  intros res ->.
  destruct (Parse_result_cluster _ _ _ _ _ _ _ _ H1 H2)
    as (p & c & Hp & Hid & Htpl & Hv & HF & Hcov).
  assert (Hlen : List.length (Tokens c) = List.length (tokenize line)).
  { apply Forall2_length in Hcov. rewrite Hcov.
    unfold preprocessTokens. by rewrite length_map. }
  rewrite HF.
  destruct (extractVariables_spec (Template c) line (Tokens c)) as [Hk Hkeys].
  { by rewrite Htpl. }
  { unfold tokenize in Hlen. lia. }
  split; [done|]. split; [by exists p, c|].
  rewrite Hv. split; [exact Hk|]. split; [exact Hkeys|].
  apply elem_of_wild_positions.
Qed.

(** X6.  Lossless templates.  The template a successful [Parse] returns has, at
    every position, either the wildcard [<*>] or the very token the line has
    there: with the variables, which hold the tokens at the wildcard
    positions, it determines every token of the line. *)
Theorem template_covers_line
        (config : Config) (before : list (string * Z)) (line : string) (ts : Z) :
  ∃ dt1 rs1 dt2 r,
    parse_all parseFloatOk (NewDrainTree config) before = Done (dt1, rs1)
    ∧ Parse parseFloatOk dt1 line ts = Done (dt2, r)
    ∧ ∀ res, r = ParseOk res →
        Forall2 (fun x t => x = wildcard ∨ x = t)
                (Fields (ResTemplate res)) (tokenize line).
Proof.
  destruct (parse_all_total parseFloatOk (NewDrainTree config) before)
    as (dt1 & rs1 & H1 & Hwf1); [apply NewDrainTree_wf|].
  destruct (Parse_total parseFloatOk dt1 line ts Hwf1) as (dt2 & r & H2 & _).
  exists dt1, rs1, dt2, r. split; [done|]. split; [done|].
  intros res ->.
  destruct (Parse_result_cluster _ _ _ _ _ _ _ _ H1 H2)
    as (p & c & _ & _ & _ & _ & HF & Hcov).
  rewrite HF. unfold preprocessTokens in Hcov.
  apply Forall2_fmap_r in Hcov. eapply Forall2_impl; [exact Hcov|].
  intros x t [->|Hx]; [by left|]. simpl in Hx.
  destruct (isVariable _ _); [by left | by right].
Qed.

End Templates.

(* ===================================================================== *)
(** * A line that created a cluster is matched from then on *)
(* ===================================================================== *)

(** [C] has, at every position, the wildcard or the token of [T]. *)
Definition covers (C T : list string) : Prop :=
  Forall2 (fun x t => x = wildcard ∨ x = t) C T.

Lemma covers_refl T : covers T T.
Proof. apply Forall2_same_length_lookup_2; [done|]. intros i x t ? ?. right. congruence. Qed.

Lemma updateCluster_keeps_covers c tokens ts T :
  covers (Tokens c) T → covers (Tokens (updateCluster c tokens ts)) T.
Proof.
  unfold covers, updateCluster. cbn [Tokens]. intros H.
  apply Forall2_same_length_lookup_2.
  { rewrite length_imap. by eapply Forall2_length. }
  intros i x t Hx Ht. rewrite list_lookup_imap in Hx.
  destruct (Tokens c !! i) as [x0|] eqn:E0; [|done]. simpl in Hx.
  pose proof (Forall2_lookup_lr _ _ _ _ _ _ H E0 Ht) as Hx0. simpl in Hx0.
  destruct (tokens !! i); [|by injection Hx as <-].
  destruct (negb _); injection Hx as <-; [by left | done].
Qed.

Lemma count_matches_covers C T :
  covers C T → count_matches C T = slen C ∧ slen C = slen T.
Proof.
  unfold slen. induction 1 as [|x t C T Hx _ [IH1 IH2]]; [done|].
  cbn [count_matches List.length].
  replace (streq x t || streq x wildcard) with true; [lia|].
  symmetry. unfold streq. destruct Hx as [->| ->].
  - rewrite (bool_decide_eq_true_2 (wildcard = wildcard)) by done. apply orb_true_r.
  - by rewrite bool_decide_eq_true_2.
Qed.

(** A template that covers a line has similarity [1.0] to it: the quotient
    of a length by itself. *)
Lemma calculateSimilarity_covers C T :
  covers C T → T ≠ [] → slen T < 2 ^ 63 → calculateSimilarity C T = 1%float.
Proof.
  intros H Hne Hlen. destruct (count_matches_covers C T H) as [Hc Hl].
  unfold calculateSimilarity. rewrite Hl, Z.eqb_refl. cbn [negb]. rewrite Hc, Hl.
  apply Float64.ratio_self. split; [|lia].
  unfold slen. destruct T; [done|]. simpl. lia.
Qed.

Lemma derefs_complete h ps cs p :
  derefs h ps = Done cs → p ∈ ps → ∃ c, (p, c) ∈ cs ∧ h !! p = Some c.
Proof.
  revert cs. induction ps as [|q ps IH]; simpl; intros cs H Hin.
  - by apply elem_of_nil in Hin.
  - inv_bind H. inv_bind H. injection H as <-.
    unfold deref in Ha. destruct (h !! q) as [c|] eqn:E; [|discriminate].
    injection Ha as <-. apply elem_of_cons in Hin as [->|Hin].
    + exists c. split; [left | done].
    + destruct (IH _ Ha0 Hin) as (c' & Hc' & Hp). exists c'. split; [by right | done].
Qed.

(** [findBestMatch] finds something when one of the clusters covers the
    line and the threshold is at most 1. *)
Lemma findBestMatch_covered thr cs tokens p c :
  (thr <=? 1)%float = true → tokens ≠ [] → slen tokens < 2 ^ 63 →
  (p, c) ∈ cs → covers (Tokens c) tokens →
  findBestMatch thr cs tokens ≠ None.
Proof.
  intros Hthr Hne Hlen Hin Hcov Hnone.
  pose proof (findBestMatch_inv thr cs tokens) as Hinv.
  unfold best_inv, findBestMatch in *. rewrite Hnone in Hinv.
  destruct Hinv as [_ Hinv]. apply (Hinv (p, c) Hin).
  - unfold same_length. simpl. by apply count_matches_covers.
  - unfold passes, sim. simpl. rewrite (calculateSimilarity_covers _ _ Hcov Hne Hlen).
    split; [done | reflexivity].
Qed.

(** The cluster pointer [p] is stored where [addToTree] puts a cluster
    created from [tokens]: at the end of the path of the length key and the
    leading tokens. *)
Fixpoint on_path (fuel : nat) (md : Z) (node : ClusterNode) (p : nat)
         (tokens : list string) (depth : Z) : Prop :=
  match fuel with
  | O => False
  | S fuel' =>
    if (depth >=? md) || (depth >? slen tokens) then p ∈ Clusters node
    else if depth =? 1 then
      ∃ child, KeyToChildNode node !! ("len_" ++ itoa (slen tokens)) = Some child
               ∧ on_path fuel' md child p tokens (depth + 1)
    else if depth - 2 <? slen tokens then
      ∃ key child, index tokens (depth - 2) = Done key
                   ∧ KeyToChildNode node !! key = Some child
                   ∧ on_path fuel' md child p tokens (depth + 1)
    else p ∈ Clusters node
  end.

Lemma addToTree_on_path fuel md node p tokens depth node' :
  addToTree_fuel fuel md node p tokens depth = Done node' →
  on_path fuel md node' p tokens depth.
Proof.
  revert node depth node'. induction fuel as [|fuel IH]; intros node depth node' H;
    [discriminate|].
  cbn [addToTree_fuel on_path] in *.
  assert (Happ : p ∈ Clusters (node_append node p)).
  { cbn. apply elem_of_app. right. by left. }
  destruct (_ || _); [by injection H as <-|].
  destruct (depth =? 1).
  { inv_bind H. injection H as <-. eexists. split.
    - cbn. apply lookup_insert_eq.
    - by eapply IH. }
  destruct (depth - 2 <? slen tokens); [|by injection H as <-].
  inv_bind H. inv_bind H. injection H as <-. exists a. eexists.
  split; [done|]. split; [cbn; apply lookup_insert_eq | by eapply IH].
Qed.

Lemma addToTree_keeps_path fuel md node q tokens' depth node' fuel2 p tokens :
  addToTree_fuel fuel md node q tokens' depth = Done node' →
  on_path fuel2 md node p tokens depth →
  on_path fuel2 md node' p tokens depth.
Proof.
  revert node depth node' fuel2.
  induction fuel as [|fuel IH]; intros node depth node' fuel2 H Hp; [discriminate|].
  destruct fuel2 as [|fuel2]; [done|].
  cbn [addToTree_fuel] in H.
  assert (Happend : on_path (S fuel2) md (node_append node q) p tokens depth).
  { cbn [on_path] in *.
    assert (Hin : p ∈ Clusters node → p ∈ Clusters (node_append node q)).
    { intros Hin. cbn. apply elem_of_app. by left. }
    destruct ((depth >=? md) || (depth >? slen tokens)); [by apply Hin|].
    destruct (depth =? 1); [done|].
    destruct (depth - 2 <? slen tokens); [done | by apply Hin]. }
  assert (Hdescend : ∀ key,
    (child' ←! addToTree_fuel fuel md
        match KeyToChildNode node !! key with
        | Some childNode => childNode
        | None => mkClusterNode ∅ [] depth
        end q tokens' (depth + 1);
     Done (node_set_child node key child')) = Done node' →
    on_path (S fuel2) md node' p tokens depth).
  { intros key Hd. inv_bind Hd. injection Hd as <-.
    assert (Hchild : ∀ k child,
      KeyToChildNode node !! k = Some child →
      on_path fuel2 md child p tokens (depth + 1) →
      ∃ child', KeyToChildNode (node_set_child node key a) !! k = Some child'
                ∧ on_path fuel2 md child' p tokens (depth + 1)).
    { intros k child Hk Hc. destruct (decide (key = k)) as [->|Hne].
      - exists a. split; [cbn; apply lookup_insert_eq|].
        rewrite Hk in Ha. by eapply IH.
      - exists child. split; [cbn; by rewrite lookup_insert_ne | done]. }
    cbn [on_path] in *.
    destruct ((depth >=? md) || (depth >? slen tokens)); [done|].
    destruct (depth =? 1).
    { destruct Hp as (child & Hk & Hc). by eapply Hchild. }
    destruct (depth - 2 <? slen tokens); [|done].
    destruct Hp as (k & child & Hi & Hk & Hc).
    destruct (Hchild k child Hk Hc) as (child' & Hk' & Hc').
    by exists k, child'. }
  destruct ((depth >=? md) || (depth >? slen tokens')); [by injection H as <-|].
  destruct (depth =? 1); [by eapply Hdescend|].
  destruct (depth - 2 <? slen tokens'); [|by injection H as <-].
  inv_bind H. by eapply Hdescend.
Qed.

(** [treeSearch] follows the path of the tokens to its end, and finds a
    cluster there. *)
Lemma treeSearch_on_path fuel dt node tokens depth p c r :
  (simThreshold dt <=? 1)%float = true → tokens ≠ [] → slen tokens < 2 ^ 63 →
  heap dt !! p = Some c → covers (Tokens c) tokens →
  on_path fuel (maxDepth dt) node p tokens depth →
  treeSearch_fuel fuel dt node tokens depth = Done r →
  r ≠ None.
Proof.
  intros Hthr Hne Hlen Hp Hcov. revert node depth.
  induction fuel as [|fuel IH]; intros node depth Hpath H; [done|].
  cbn [on_path treeSearch_fuel] in *.
  assert (Hhere : p ∈ Clusters node →
    (cs ←! derefs (heap dt) (Clusters node);
     Done (findBestMatch (simThreshold dt) cs tokens)) = Done r → r ≠ None).
  { intros Hin Hh. inv_bind Hh. injection Hh as <-.
    destruct (derefs_complete _ _ _ _ Ha Hin) as (c' & Hc' & Hp').
    assert (c' = c) as -> by congruence.
    by eapply findBestMatch_covered. }
  destruct (_ || _); [by apply Hhere|].
  destruct (depth =? 1).
  { destruct Hpath as (child & Hk & Hc). rewrite Hk in H. by eapply IH. }
  destruct (depth - 2 <? slen tokens); [|by apply Hhere].
  destruct Hpath as (key & child & Hi & Hk & Hc).
  rewrite Hi in H. cbn [obind] in H. rewrite Hk in H. by eapply IH.
Qed.

Lemma createCluster_root dt tokens ts dt' pc :
  createCluster dt tokens ts = Done (dt', pc) →
  addToTree_fuel (fuel_for tokens) (maxDepth dt) (root dt)
                 (List.length (heap dt)) tokens 1 = Done (root dt').
Proof.
  unfold createCluster, addToTree. cbn [root maxDepth heap].
  intros H. inv_bind H. by injection H as <- <-.
Qed.

(** A text has at most as many fields as bytes. *)
Lemma Fields_go_length s skip cur :
  (List.length (GoStrings.Fields_go s skip cur)
   ≤ String.length s + List.length (GoStrings.flush cur))%nat.
Proof.
  revert skip cur. induction s as [|c s IH]; intros skip cur; [done|].
  cbn [GoStrings.Fields_go String.length]. destruct skip as [|k].
  - destruct (GoStrings.space_width (String c s)) as [|k].
    + etrans; [apply IH|].
      assert (List.length (GoStrings.flush (cur ++ String c "")) ≤ 1)%nat
        by (unfold GoStrings.flush; destruct (cur ++ String c ""); simpl; lia).
      lia.
    + rewrite length_app. specialize (IH k ""). simpl in IH. lia.
  - specialize (IH k cur). lia.
Qed.

Lemma tokenize_length line : slen (tokenize line) ≤ GoStrings.len line.
Proof.
  unfold slen, tokenize, GoStrings.Fields, GoStrings.len.
  pose proof (Fields_go_length line 0 "") as H. simpl in H. lia.
Qed.

Section Rematch.

Variable parseFloatOk : string → bool.

(** The cluster at [p] covers [T] and is stored at the end of the path of
    [T]. *)
Definition placed (p : nat) (T : list string) (dt : DrainTree) : Prop :=
  ∃ c, heap dt !! p = Some c ∧ covers (Tokens c) T
       ∧ on_path (fuel_for T) (maxDepth dt) (root dt) p T 1.

Lemma Parse_settings dt line ts dt' r :
  Parse parseFloatOk dt line ts = Done (dt', r) →
  maxDepth dt' = maxDepth dt ∧ simThreshold dt' = simThreshold dt.
Proof.
  intros H.
  destruct (Parse_cases _ _ _ _ _ _ H)
    as [(_ & -> & _) | [(_ & p & c & res & _ & _ & _ & _ & -> & _)
                      | (_ & c & res & _ & _ & Hcr & _)]]; [done | done |].
  apply createCluster_index in Hcr as (c0 & _ & _ & _ & _ & _ & _ & _ & _ & _ & Hm & Hs).
  done.
Qed.

Lemma parse_all_settings calls dt dt' rs :
  parse_all parseFloatOk dt calls = Done (dt', rs) →
  maxDepth dt' = maxDepth dt ∧ simThreshold dt' = simThreshold dt.
Proof.
  revert dt rs. induction calls as [|[line ts] calls IH]; intros dt rs H.
  - by injection H as <- <-.
  - apply parse_all_cons in H as (dt1 & r & rs' & HP & Hall & ->).
    destruct (IH _ _ Hall) as [-> ->]. by eapply Parse_settings.
Qed.

Lemma Parse_placed dt line ts dt' r p T :
  Parse parseFloatOk dt line ts = Done (dt', r) → placed p T dt → placed p T dt'.
Proof.
  intros H (c & Hp & Hcov & Hpath).
  destruct (Parse_cases _ _ _ _ _ _ H)
    as [(_ & -> & _) | [(_ & q & c' & res & _ & _ & Hq & _ & -> & _)
                      | (_ & c' & res & _ & _ & Hcr & _)]].
  - by exists c.
  - unfold placed, store. cbn [heap root maxDepth].
    destruct (decide (q = p)) as [->|Hne].
    + eexists. split; [apply list_lookup_insert_eq; by eapply lookup_lt_Some|].
      split; [|done]. apply updateCluster_keeps_covers. congruence.
    + exists c. split; [by rewrite list_lookup_insert_ne | done].
  - pose proof (createCluster_root _ _ _ _ _ Hcr) as Hroot.
    apply createCluster_index in Hcr
      as (c0 & _ & Hh & _ & _ & _ & _ & _ & _ & _ & Hm & _).
    exists c. rewrite Hh, Hm. split; [by apply lookup_app_l_Some|].
    split; [done|]. by eapply addToTree_keeps_path.
Qed.

Lemma parse_all_placed calls dt dt' rs p T :
  parse_all parseFloatOk dt calls = Done (dt', rs) → placed p T dt → placed p T dt'.
Proof.
  revert dt rs. induction calls as [|[line ts] calls IH]; intros dt rs H Hp.
  - by injection H as <- <-.
  - apply parse_all_cons in H as (dt1 & r & rs' & HP & Hall & ->).
    eapply IH; [done|]. by eapply Parse_placed.
Qed.

Lemma Parse_creates_placed dt line ts dt' res :
  Parse parseFloatOk dt line ts = Done (dt', ParseOk res) → IsNew res = true →
  placed (List.length (heap dt)) (preprocessTokens parseFloatOk (tokenize line)) dt'.
Proof.
  intros H Hnew.
  destruct (Parse_cases _ _ _ _ _ _ H)
    as [(_ & _ & ?) | [(_ & q & c' & res' & Hr & Hn & _)
                      | (_ & c & res' & Hr & _ & Hcr & _)]]; [discriminate | |].
  { injection Hr as <-. congruence. }
  pose proof (createCluster_root _ _ _ _ _ Hcr) as Hroot.
  apply createCluster_index in Hcr
    as (c0 & Hpc & Hh & _ & _ & Htok & _ & _ & _ & _ & Hm & _).
  injection Hpc as <-. exists c. rewrite Hh, Hm.
  split; [by apply list_lookup_middle|].
  split; [rewrite Htok; apply covers_refl|]. by eapply addToTree_on_path.
Qed.

Lemma Parse_placed_hits dt line ts dt' r p :
  (simThreshold dt <=? 1)%float = true → tokenize line ≠ [] →
  slen (tokenize line) < 2 ^ 63 →
  placed p (preprocessTokens parseFloatOk (tokenize line)) dt →
  Parse parseFloatOk dt line ts = Done (dt', r) →
  ∃ res, r = ParseOk res ∧ IsNew res = false
         ∧ List.length (heap dt') = List.length (heap dt)
         ∧ clusters dt' = clusters dt.
Proof.
  intros Hthr Hne Hlen (c & Hp & Hcov & Hpath) H.
  assert (Hne' : preprocessTokens parseFloatOk (tokenize line) ≠ []).
  { unfold preprocessTokens. destruct (tokenize line); [done | discriminate]. }
  assert (Hlen' : slen (preprocessTokens parseFloatOk (tokenize line)) < 2 ^ 63).
  { unfold slen, preprocessTokens in *. by rewrite length_map. }
  unfold Parse in H.
  destruct (slen (tokenize line) =? 0) eqn:E0.
  { apply Z.eqb_eq in E0. unfold slen in E0. destruct (tokenize line); [done | simpl in E0; lia]. }
  inv_bind H. inv_bind H. destruct a0 as [[dt1 c1] isNew]. injection H as <- <-.
  unfold treeSearch in Ha.
  pose proof (treeSearch_on_path _ _ _ _ _ _ _ _ Hthr Hne' Hlen' Hp Hcov Hpath Ha)
    as Hfound.
  destruct a as [[q cq]|]; [|done].
  injection Ha0 as <- <- <-. eexists. split; [done|]. split; [done|].
  cbn [store heap clusters]. by rewrite length_insert.
Qed.

(** X7.  Once a line has created a cluster, a line with the same tokens after
    preprocessing never creates another one, whatever was parsed in between,
    when the similarity threshold is at most 1 and the line is shorter than
    [2^63] bytes, as every Go string is: [Parse] reports an existing cluster,
    allocates nothing and leaves the index of ids, [dt.clusters], unchanged. *)
Theorem created_line_matches_again
        (config : Config) (before : list (string * Z)) (line : string) (ts : Z)
        (between : list (string * Z)) (line' : string) (ts' : Z) :
  (SimThreshold config <=? 1)%float = true →
  GoStrings.len line < 2 ^ 63 →
  preprocessTokens parseFloatOk (tokenize line')
  = preprocessTokens parseFloatOk (tokenize line) →
  ∃ dt1 rs1 dt2 r dt3 rs3 dt4 r',
    parse_all parseFloatOk (NewDrainTree config) before = Done (dt1, rs1)
    ∧ Parse parseFloatOk dt1 line ts = Done (dt2, r)
    ∧ parse_all parseFloatOk dt2 between = Done (dt3, rs3)
    ∧ Parse parseFloatOk dt3 line' ts' = Done (dt4, r')
    ∧ ∀ res, r = ParseOk res → IsNew res = true →
        ∃ res', r' = ParseOk res' ∧ IsNew res' = false
                ∧ List.length (heap dt4) = List.length (heap dt3)
                ∧ clusters dt4 = clusters dt3
                ∧ ClusterCount dt4 = ClusterCount dt3.
Proof.
  intros Hthr Hlen Hsame.
  destruct (parse_all_total parseFloatOk (NewDrainTree config) before)
    as (dt1 & rs1 & H1 & Hwf1); [apply NewDrainTree_wf|].
  destruct (Parse_total parseFloatOk dt1 line ts Hwf1) as (dt2 & r & H2 & Hwf2 & _).
  destruct (parse_all_total parseFloatOk dt2 between) as (dt3 & rs3 & H3 & Hwf3);
    [done|].
  destruct (Parse_total parseFloatOk dt3 line' ts' Hwf3) as (dt4 & r' & H4 & _).
  exists dt1, rs1, dt2, r, dt3, rs3, dt4, r'. repeat (split; [done|]).
  intros res -> Hnew.
  assert (Hthr3 : (simThreshold dt3 <=? 1)%float = true).
  { destruct (parse_all_settings _ _ _ _ H3) as [_ ->].
    destruct (Parse_settings _ _ _ _ _ H2) as [_ ->].
    destruct (parse_all_settings _ _ _ _ H1) as [_ ->].
    cbn [NewDrainTree simThreshold].
    destruct (SimThreshold config =? 0)%float; [reflexivity | exact Hthr]. }
  assert (Hne : tokenize line' ≠ []).
  { intros E. rewrite E in Hsame.
    destruct (Parse_cases _ _ _ _ _ _ H2)
      as [(_ & _ & ?) | [(Hn & _) | (Hn & _)]]; [discriminate | |];
      destruct (tokenize line); done. }
  assert (Hlen' : slen (tokenize line') < 2 ^ 63).
  { pose proof (tokenize_length line) as Hle.
    apply (f_equal slen) in Hsame. unfold slen, preprocessTokens in *.
    rewrite !length_map in Hsame. rewrite Hsame. lia. }
  pose proof (Parse_creates_placed _ _ _ _ _ H2 Hnew) as Hpl.
  pose proof (parse_all_placed _ _ _ _ _ _ H3 Hpl) as Hpl3.
  rewrite <- Hsame in Hpl3.
  destruct (Parse_placed_hits _ _ _ _ _ _ Hthr3 Hne Hlen' Hpl3 H4)
    as (res' & -> & Hn' & Hlen4 & Hcl).
  exists res'. split; [done|]. split; [done|]. split; [done|]. split; [done|].
  unfold ClusterCount. by rewrite Hcl.
Qed.

End Rematch.

(* ===================================================================== *)
(** * A threshold above 1 *)
(* ===================================================================== *)

Lemma count_matches_bounds C T : 0 ≤ count_matches C T ≤ slen C.
Proof.
  unfold slen. revert T. induction C as [|x C IH]; intros T; [done|].
  destruct T as [|t T]; cbn [count_matches List.length]; [lia|].
  specialize (IH T). destruct (_ || _); lia.
Qed.

(** No similarity is above [1.0]: the quotient of a count of matches by the
    length, rounded to binary64, is at most one, or NaN. *)
Lemma calculateSimilarity_le_1 C T : (1 <? calculateSimilarity C T)%float = false.
Proof.
  unfold calculateSimilarity. destruct (negb _); [reflexivity|].
  apply Float64.ratio_le_one, count_matches_bounds.
Qed.

Lemma threshold_zero_not_above_one thr :
  (thr =? 0)%float = true → (1 <? thr)%float = false.
Proof.
  rewrite FloatAxioms.eqb_spec, FloatAxioms.ltb_spec.
  change (FloatOps.Prim2SF 0%float) with (SpecFloat.S754_zero false).
  change (FloatOps.Prim2SF 1%float) with Float64.SF_one.
  unfold SpecFloat.SFeqb, SpecFloat.SFltb, SpecFloat.SFcompare, Float64.SF_one.
  by destruct (FloatOps.Prim2SF thr) as [[]|[]| |[] ? ?].
Qed.

Section AboveOne.

Variable parseFloatOk : string → bool.

Lemma Parse_above_one dt line ts dt' r :
  (1 <? simThreshold dt)%float = true →
  Parse parseFloatOk dt line ts = Done (dt', r) →
  (r = ParseErr "empty log content" ∧ dt' = dt)
  ∨ ∃ res c, r = ParseOk res ∧ IsNew res = true ∧ Size c = 1
             ∧ heap dt' = (heap dt ++ [c])%list.
Proof.
  intros Hthr H.
  destruct (Parse_cases _ _ _ _ _ _ H)
    as [(_ & -> & ->) | [(_ & p & c & res & -> & Hn & _)
                        | (_ & c & res & -> & Hn & Hcr & _)]].
  - by left.
  - destruct (Parse_absorbs_above_floor _ _ _ _ _ _ H Hn) as (p' & c' & _ & _ & _ & Hle).
    pose proof (calculateSimilarity_le_1 (Tokens c')
                  (preprocessTokens parseFloatOk (tokenize line))) as H1.
    exfalso. rewrite (Float64.ltb_leb_trans _ _ _ Hthr Hle) in H1. discriminate.
  - right. apply createCluster_index in Hcr
      as (c0 & Hpc & Hh & _ & _ & _ & _ & Hsz & _).
    injection Hpc as <-. by exists res, c.
Qed.

Lemma parse_all_above_one calls dt dt' rs :
  (1 <? simThreshold dt)%float = true →
  parse_all parseFloatOk dt calls = Done (dt', rs) →
  (∀ res, ParseOk res ∈ rs → IsNew res = true)
  ∧ ∃ new, heap dt' = (heap dt ++ new)%list
           ∧ Z.of_nat (List.length new) = parsed rs
           ∧ Forall (fun c => Size c = 1) new.
Proof.
  revert dt rs. induction calls as [|[line ts] calls IH]; intros dt rs Hthr H.
  - injection H as <- <-. split; [by intros res Hin; apply elem_of_nil in Hin|].
    exists []. by rewrite app_nil_r.
  - apply parse_all_cons in H as (dt1 & r & rs' & HP & Hall & ->).
    assert (Hthr1 : (1 <? simThreshold dt1)%float = true).
    { destruct (Parse_settings _ _ _ _ _ _ HP) as [_ ->]. done. }
    destruct (IH _ _ Hthr1 Hall) as (Hnew & new & Hh & Hlen & Hsz).
    rewrite parsed_cons.
    destruct (Parse_above_one _ _ _ _ _ Hthr HP)
      as [[-> ->] | (res & c & -> & Hn & Hc & Hh1)].
    + split.
      { intros res Hin. apply elem_of_cons in Hin as [?|Hin]; [done | by apply Hnew]. }
      exists new. split; [done|]. split; [simpl; lia | done].
    + split.
      { intros res' Hin. apply elem_of_cons in Hin as [Heq|Hin]; [|by apply Hnew].
        by injection Heq as ->. }
      exists (c :: new). rewrite Hh, Hh1, <- app_assoc. split; [done|].
      split; [simpl in *; lia | by constructor].
Qed.

(** X8.  With a similarity threshold above 1 nothing ever matches: on a tree
    built with such a threshold every [Parse] call that returns a result
    reports a new cluster, the tree holds one cluster for each such call, and
    every cluster has size 1. *)
Theorem threshold_above_one_never_matches
        (config : Config) (calls : list (string * Z)) :
  (1 <? SimThreshold config)%float = true →
  ∃ dt rs,
    parse_all parseFloatOk (NewDrainTree config) calls = Done (dt, rs)
    ∧ (∀ res, ParseOk res ∈ rs → IsNew res = true)
    ∧ Z.of_nat (List.length (heap dt)) = parsed rs
    ∧ ∀ (p : nat) c, heap dt !! p = Some c → Size c = 1.
Proof.
  intros Hthr.
  destruct (parse_all_total parseFloatOk (NewDrainTree config) calls)
    as (dt & rs & H & _); [apply NewDrainTree_wf|].
  exists dt, rs. split; [done|].
  assert (Hthr0 : (1 <? simThreshold (NewDrainTree config))%float = true).
  { cbn [NewDrainTree simThreshold].
    destruct (SimThreshold config =? 0)%float eqn:E; [|done].
    apply threshold_zero_not_above_one in E. congruence. }
  destruct (parse_all_above_one _ _ _ _ Hthr0 H) as (Hnew & new & Hh & Hlen & Hsz).
  cbn [NewDrainTree heap] in Hh. rewrite app_nil_l in Hh. subst new.
  split; [done|]. split; [done|].
  intros p c Hp. rewrite Forall_forall in Hsz. apply Hsz.
  by eapply list_elem_of_lookup_2.
Qed.

End AboveOne.

(* ===================================================================== *)
(** * Template ids name the hash *)
(* ===================================================================== *)

(** X9.  The id [generateClusterID] gives to a token list is ["tmpl_"] followed
    by one to sixteen hexadecimal digits, which read back as the 64-bit
    FNV-1a hash of the tokens joined by spaces; so two token lists get the
    same id exactly when their joined texts have the same hash. *)
Theorem template_id_names_the_hash (tokens tokens' : list string) :
  (∃ digits,
     generateClusterID tokens = "tmpl_" ++ digits
     ∧ (1 ≤ String.length digits ≤ 16)%nat
     ∧ Fnv.unhex 0 digits = Some (Fnv.sum64a (Join tokens " "))
     ∧ 0 ≤ Fnv.sum64a (Join tokens " ") < 2 ^ 64)
  ∧ (generateClusterID tokens = generateClusterID tokens'
     ↔ Fnv.sum64a (Join tokens " ") = Fnv.sum64a (Join tokens' " ")).
Proof.
  split.
  - exists (Fnv.hex (Fnv.sum64a (Join tokens " "))). split; [done|].
    split; [apply hex_length|]. split; [|apply sum64a_range].
    apply unhex_hex, sum64a_range.
  - unfold generateClusterID. split; [|by intros ->].
    intros H. apply String.app_inj in H.
    apply (f_equal (Fnv.unhex 0)) in H.
    rewrite !unhex_hex in H by apply sum64a_range. congruence.
Qed.

(* ===================================================================== *)
(** * The limits of the configuration *)
(* ===================================================================== *)

Definition with_limits (dt : DrainTree) (children clusters' : Z) : DrainTree :=
  {| root := root dt; clusters := clusters dt; heap := heap dt;
     maxDepth := maxDepth dt; simThreshold := simThreshold dt;
     maxChildren := children; maxClusters := clusters' |}.

Lemma treeSearch_fuel_limits fuel dt a b node tokens depth :
  treeSearch_fuel fuel (with_limits dt a b) node tokens depth
  = treeSearch_fuel fuel dt node tokens depth.
Proof.
  revert node depth. induction fuel as [|fuel IH]; intros node depth; [done|].
  cbn [treeSearch_fuel with_limits heap simThreshold maxDepth].
  destruct (_ || _); [done|].
  destruct (depth =? 1).
  { destruct (KeyToChildNode node !! _); [apply IH | done]. }
  destruct (depth - 2 <? slen tokens); [|done].
  destruct (index tokens (depth - 2)); cbn [obind]; [|done|done].
  destruct (KeyToChildNode node !! a0); [apply IH|].
  destruct (KeyToChildNode node !! wildcard); [apply IH | done].
Qed.

Lemma createCluster_limits dt a b tokens ts :
  createCluster (with_limits dt a b) tokens ts
  = (r ←! createCluster dt tokens ts; Done (with_limits r.1 a b, r.2)).
Proof.
  unfold createCluster, addToTree. cbn [with_limits root heap maxDepth clusters
    simThreshold maxChildren maxClusters].
  by destruct (addToTree_fuel _ _ _ _ _ _).
Qed.

Section Limits.

Variable parseFloatOk : string → bool.

Lemma Parse_limits dt a b line ts :
  Parse parseFloatOk (with_limits dt a b) line ts
  = (r ←! Parse parseFloatOk dt line ts; Done (with_limits r.1 a b, r.2)).
Proof.
  unfold Parse. destruct (slen (tokenize line) =? 0); [done|].
  unfold treeSearch. rewrite treeSearch_fuel_limits.
  cbn [with_limits root].
  destruct (treeSearch_fuel _ _ _ _ _) as [[[p c]|]| |]; cbn [obind]; [done| |done|done].
  rewrite createCluster_limits.
  by destruct (createCluster dt _ ts) as [[dt1 [p c]]| |].
Qed.

Lemma parse_all_limits calls dt a b :
  parse_all parseFloatOk (with_limits dt a b) calls
  = (r ←! parse_all parseFloatOk dt calls; Done (with_limits r.1 a b, r.2)).
Proof.
  revert dt. induction calls as [|[line ts] calls IH]; intros dt; [done|].
  cbn [parse_all]. rewrite Parse_limits.
  destruct (Parse parseFloatOk dt line ts) as [[dt1 r]| |]; cbn [obind fst snd];
    [|done|done].
  rewrite IH. by destruct (parse_all parseFloatOk dt1 calls) as [[dt2 rs]| |].
Qed.

(** X10.  [MaxChildren], [MaxClusters], [MaxSampleLogs] and [ExtraDelimiter] are
    never read: two configurations with the same [MaxDepth] and
    [SimThreshold] give, on every run of [Parse] calls, the same results, the
    same tree, the same clusters and the same index of ids.  In particular
    neither the number of children of a node nor the number of clusters is
    bounded by the configuration. *)
Theorem limits_are_never_read (config config' : Config) (calls : list (string * Z)) :
  MaxDepth config' = MaxDepth config → SimThreshold config' = SimThreshold config →
  ∃ dt dt' rs,
    parse_all parseFloatOk (NewDrainTree config) calls = Done (dt, rs)
    ∧ parse_all parseFloatOk (NewDrainTree config') calls = Done (dt', rs)
    ∧ root dt' = root dt ∧ heap dt' = heap dt ∧ clusters dt' = clusters dt.
Proof.
  intros Hd Hs.
  destruct (parse_all_total parseFloatOk (NewDrainTree config) calls)
    as (dt & rs & H & _); [apply NewDrainTree_wf|].
  assert (E : NewDrainTree config'
              = with_limits (NewDrainTree config)
                            (maxChildren (NewDrainTree config'))
                            (maxClusters (NewDrainTree config'))).
  { unfold NewDrainTree, with_limits. cbn. by rewrite Hd, Hs. }
  exists dt, (with_limits dt (maxChildren (NewDrainTree config'))
                          (maxClusters (NewDrainTree config'))), rs.
  split; [done|]. split; [|done].
  by rewrite E, parse_all_limits, H.
Qed.

End Limits.

(* ===================================================================== *)
(** * [GetAllClusters] and [GetStats] *)
(* ===================================================================== *)

Definition zsum (l : list Z) : Z := foldr Z.add 0 l.

Lemma zsum_app l k : zsum (l ++ k) = zsum l + zsum k.
Proof. unfold zsum. induction l as [|x l IH]; simpl; lia. Qed.

Lemma zsum_perm l k : l ≡ₚ k → zsum l = zsum k.
Proof. unfold zsum. induction 1; simpl; lia. Qed.

Lemma zsum_nonneg l : Forall (fun x => 0 ≤ x) l → 0 ≤ zsum l.
Proof. unfold zsum. induction 1; simpl; lia. Qed.

Lemma zsum_ge_length l : Forall (fun x => 1 ≤ x) l → Z.of_nat (List.length l) ≤ zsum l.
Proof. unfold zsum. induction 1; simpl; lia. Qed.

Lemma zsum_submseteq l k : Forall (fun x => 0 ≤ x) k → l ⊆+ k → zsum l ≤ zsum k.
Proof.
  intros Hk Hsub. apply submseteq_Permutation in Hsub as [k' Hp].
  rewrite (zsum_perm _ _ Hp), zsum_app.
  assert (0 ≤ zsum k'); [|lia]. apply zsum_nonneg.
  rewrite Hp in Hk. by apply Forall_app in Hk as [_ ?].
Qed.

Lemma total_size_zsum h : total_size h = zsum (Size <$> h).
Proof. unfold total_size, zsum. induction h as [|c h IH]; simpl; [done | by rewrite IH]. Qed.

(** The size of the cluster at [p]. *)
Definition size_at (h : list LogCluster) (p : nat) : Z := default 0 (Size <$> h !! p).

Lemma size_at_seq h : size_at h <$> seq 0 (List.length h) = Size <$> h.
Proof.
  apply list_eq. intros i. rewrite !list_lookup_fmap.
  destruct (decide (i < List.length h)%nat) as [Hi|Hi].
  - rewrite lookup_seq_lt by done. simpl. unfold size_at.
    destruct (lookup_lt_is_Some_2 h i Hi) as [c ->]. done.
  - rewrite lookup_seq_ge by lia. rewrite lookup_ge_None_2 by lia. done.
Qed.

Lemma derefs_fmap h ps cs :
  derefs h ps = Done cs →
  cs.*1 = ps ∧ Size <$> cs.*2 = size_at h <$> ps
  ∧ Forall (fun pc => h !! pc.1 = Some pc.2) cs.
Proof.
  revert cs. induction ps as [|p ps IH]; simpl; intros cs H.
  - injection H as <-. split; [done|]. split; [done | constructor].
  - inv_bind H. inv_bind H. injection H as <-.
    unfold deref in Ha. destruct (h !! p) as [c|] eqn:E; [|discriminate].
    injection Ha as <-. destruct (IH _ Ha0) as (H1 & H2 & H3).
    cbn. rewrite H1, H2. unfold size_at at 2. rewrite E.
    split; [done|]. split; [done | by constructor].
Qed.

Lemma fold_sizes (cs : list (nat * LogCluster)) acc :
  Forall (fun pc => 0 ≤ Size pc.2) cs → 0 ≤ acc →
  acc + zsum (Size <$> cs.*2) < 2 ^ 63 →
  fold_left (fun totalLogs pc => wrap64 (totalLogs + Size pc.2)) cs acc
  = acc + zsum (Size <$> cs.*2).
Proof.
  intros Hall. revert acc. induction Hall as [|pc cs Hpc Hall IH]; intros acc H0 Hlt.
  - cbn. lia.
  - cbn in *. pose proof (zsum_nonneg (Size <$> cs.*2)) as Hn.
    unfold zsum in *.
    assert (0 ≤ foldr Z.add 0 (Size <$> cs.*2)).
    { apply Hn. apply Forall_fmap, Forall_fmap. by eapply Forall_impl. }
    rewrite wrap64_small by lia. rewrite IH by lia. lia.
Qed.

Section Stats.

Variable parseFloatOk : string → bool.

(** The pointers of the index are distinct, because each points to a
    cluster that carries the id it is entered under. *)
Lemma index_pointers_NoDup dt (order : list (string * nat)) :
  index_ok dt → order ≡ₚ map_to_list (clusters dt) → NoDup (order.*2).
Proof.
  intros [Hidx _] Hperm. apply NoDup_fmap_2_strong.
  - intros [id1 p1] [id2 p2] H1 H2 Heq. simpl in Heq. subst p2.
    rewrite Hperm in H1, H2. apply elem_of_map_to_list in H1, H2.
    destruct (Hidx _ _ H1) as (c1 & Hc1 & <-).
    destruct (Hidx _ _ H2) as (c2 & Hc2 & <-). congruence.
  - rewrite Hperm. apply NoDup_map_to_list.
Qed.

Lemma index_pointers_allocated dt (order : list (string * nat)) :
  index_ok dt → order ≡ₚ map_to_list (clusters dt) →
  Forall (fun p => (p < List.length (heap dt))%nat) (order.*2).
Proof.
  intros [Hidx _] Hperm. apply Forall_fmap, Forall_forall. intros [id p] Hin.
  rewrite Hperm in Hin. apply elem_of_map_to_list in Hin.
  destruct (Hidx _ _ Hin) as (c & Hc & _). simpl. by eapply lookup_lt_Some.
Qed.

(** With distinct ids every cluster is in the index. *)
Lemma index_pointers_all dt (order : list (string * nat)) :
  index_ok dt → order ≡ₚ map_to_list (clusters dt) → NoDup (ID <$> heap dt) →
  order.*2 ≡ₚ seq 0 (List.length (heap dt)).
Proof.
  intros Hok Hperm Hids. apply NoDup_Permutation.
  - by eapply index_pointers_NoDup.
  - apply NoDup_seq.
  - intros p. rewrite elem_of_seq. split.
    + intros Hin. pose proof (index_pointers_allocated _ _ Hok Hperm) as Hall.
      rewrite Forall_forall in Hall. specialize (Hall p Hin). lia.
    + intros [_ Hp]. destruct Hok as [Hidx Hheap].
      destruct (lookup_lt_is_Some_2 (heap dt) p) as [c Hc]; [lia|].
      destruct (Hheap p c Hc) as [p' Hp'].
      destruct (Hidx _ _ Hp') as (c' & Hc' & Hid).
      assert (p' = p) as ->.
      { apply (NoDup_lookup _ _ _ (ID c) Hids); rewrite list_lookup_fmap.
        - rewrite Hc'. simpl. by rewrite Hid.
        - by rewrite Hc. }
      apply list_elem_of_fmap. exists (ID c, p). split; [done|].
      rewrite Hperm. by apply elem_of_map_to_list.
Qed.

(** X11.  [GetAllClusters] on a tree that [NewDrainTree] built and [Parse] calls
    changed returns, whatever the order of its loop, one cluster for each id
    of the index, each the one [GetCluster] finds under its id, and no id
    twice. *)
Theorem GetAllClusters_lists_the_index
        (config : Config) (calls : list (string * Z)) :
  ∃ dt rs,
    parse_all parseFloatOk (NewDrainTree config) calls = Done (dt, rs)
    ∧ ∀ order, order ≡ₚ map_to_list (clusters dt) →
        ∃ cs, GetAllClusters dt order = Done cs
              ∧ ID <$> cs = order.*1
              ∧ Z.of_nat (List.length cs) = ClusterCount dt
              ∧ NoDup (ID <$> cs)
              ∧ Forall (fun c => GetCluster dt (ID c) = Some c) cs.
Proof.
  destruct (parse_all_total parseFloatOk (NewDrainTree config) calls)
    as (dt & rs & H & _); [apply NewDrainTree_wf|].
  exists dt, rs. split; [done|]. intros order Hperm.
  assert (Hok : index_ok dt).
  { eapply parse_all_index_ok; [done|].
    split; cbn [NewDrainTree clusters heap];
      [intros id' p Hp; by rewrite lookup_empty in Hp | intros p c Hp; done]. }
  destruct (derefs_total (heap dt) (order.*2)) as [cs Hcs];
    [by apply index_pointers_allocated|].
  unfold GetAllClusters. rewrite Hcs. cbn [obind]. eexists. split; [done|].
  destruct (derefs_fmap _ _ _ Hcs) as (H1 & _ & H3).
  assert (Hent : Forall2 (fun pc idp => pc.1 = idp.2 ∧ ID pc.2 = idp.1
                                        ∧ GetCluster dt (ID pc.2) = Some pc.2)
                         cs order).
  { apply Forall2_same_length_lookup_2.
    { rewrite <- (length_fmap fst cs), H1. by rewrite length_fmap. }
    intros i [p c] [id p'] Hi Hj. simpl.
    assert (p = p') as <-.
    { apply (f_equal (fun l => l !! i)) in H1.
      rewrite !list_lookup_fmap, Hi, Hj in H1. by injection H1. }
    rewrite Forall_forall in H3. pose proof (H3 _ (list_elem_of_lookup_2 _ _ _ Hi)) as Hc.
    simpl in Hc. assert (Hin : (id, p) ∈ order) by (by eapply list_elem_of_lookup_2).
    rewrite Hperm in Hin. apply elem_of_map_to_list in Hin.
    destruct Hok as [Hidx _]. destruct (Hidx _ _ Hin) as (c' & Hc' & Hid).
    assert (c' = c) as -> by congruence.
    split; [done|]. split; [done|]. unfold GetCluster. rewrite Hid, Hin. done. }
  assert (Hids : ID <$> cs.*2 = order.*1).
  { apply list_eq. intros i. rewrite !list_lookup_fmap.
    destruct (cs !! i) as [pc|] eqn:Ei.
    - destruct (Forall2_lookup_l _ _ _ _ _ Hent Ei) as (idp & -> & _ & Hid & _).
      simpl. by rewrite Hid.
    - apply Forall2_length in Hent.
      rewrite lookup_ge_None_2; [done|]. apply lookup_ge_None_1 in Ei. lia. }
  split; [done|]. split.
  { rewrite length_fmap. apply Forall2_length in Hent. rewrite Hent.
    unfold ClusterCount. rewrite Hperm. by rewrite length_map_to_list. }
  split.
  { rewrite Hids, Hperm. apply NoDup_fst_map_to_list. }
  apply Forall_fmap, Forall_forall. intros pc Hin.
  apply list_elem_of_lookup_1 in Hin as [i Hi].
  destruct (Forall2_lookup_l _ _ _ _ _ Hent Hi) as (idp & _ & _ & _ & Hg). done.
Qed.

(** X12.  [GetStats] after a run of fewer than [2^63] calls, whatever the order
    of its loop: [TotalClusters] is the number of ids; [TotalLogs] is at
    least that and at most the number of [Parse] calls that returned a
    result; and when no two clusters have the same id, [TotalLogs] is exactly
    that number and [TotalClusters] the number of clusters. *)
Theorem GetStats_counts_parsed_lines
        (config : Config) (calls : list (string * Z)) :
  Z.of_nat (List.length calls) < 2 ^ 63 →
  ∃ dt rs,
    parse_all parseFloatOk (NewDrainTree config) calls = Done (dt, rs)
    ∧ ∀ order, order ≡ₚ map_to_list (clusters dt) →
        ∃ st, GetStats dt order = Done st
              ∧ TotalClusters st = ClusterCount dt
              ∧ TotalClusters st ≤ TotalLogs st ≤ parsed rs
              ∧ (NoDup (ID <$> heap dt) →
                 TotalLogs st = parsed rs
                 ∧ TotalClusters st = Z.of_nat (List.length (heap dt))).
Proof.
  intros Hn.
  destruct (parse_all_total parseFloatOk (NewDrainTree config) calls)
    as (dt & rs & H & _); [apply NewDrainTree_wf|].
  exists dt, rs. split; [done|]. intros order Hperm.
  assert (Hok : index_ok dt).
  { eapply parse_all_index_ok; [done|].
    split; cbn [NewDrainTree clusters heap];
      [intros id' p Hp; by rewrite lookup_empty in Hp | intros p c Hp; done]. }
  destruct (parse_all_sizes parseFloatOk _ _ _ _ 0 H) as [Hall Htot]; [by split | lia |].
  rewrite Z.add_0_l in Htot.
  pose proof (parsed_bounds rs) as Hpb.
  pose proof (parse_all_results_length parseFloatOk _ _ _ _ H) as Hrl.
  destruct (derefs_total (heap dt) (order.*2)) as [cs Hcs];
    [by apply index_pointers_allocated|].
  destruct (derefs_fmap _ _ _ Hcs) as (H1 & H2 & H3).
  assert (Hcs1 : Forall (fun pc : nat * LogCluster => 1 ≤ Size pc.2) cs).
  { apply Forall_forall. intros pc Hin.
    pose proof (proj1 (Forall_forall _ _) H3 pc Hin) as Hpc.
    simpl in Hpc. apply list_elem_of_lookup_2 in Hpc.
    exact (proj1 (Forall_forall _ _) Hall _ Hpc). }
  assert (Hsub : zsum (Size <$> cs.*2) ≤ parsed rs).
  { rewrite H2, <- Htot, total_size_zsum, <- (size_at_seq (heap dt)).
    apply zsum_submseteq.
    - rewrite size_at_seq. apply Forall_fmap. eapply Forall_impl; [exact Hall|].
      simpl. intros; lia.
    - apply fmap_submseteq, NoDup_submseteq; [by eapply index_pointers_NoDup|].
      intros p Hin. pose proof (index_pointers_allocated _ _ Hok Hperm) as Hal.
      rewrite Forall_forall in Hal. specialize (Hal p Hin).
      apply elem_of_seq. lia. }
  assert (Hlow : Z.of_nat (List.length cs) ≤ zsum (Size <$> cs.*2)).
  { rewrite <- (length_fmap snd cs), <- (length_fmap Size (cs.*2)).
    apply zsum_ge_length. by apply Forall_fmap, Forall_fmap. }
  assert (Hlen : Z.of_nat (List.length cs) = ClusterCount dt).
  { rewrite <- (length_fmap fst cs), H1, length_fmap, Hperm.
    unfold ClusterCount. by rewrite length_map_to_list. }
  unfold GetStats. rewrite Hcs. cbn [obind]. eexists. split; [done|].
  cbn [TotalClusters TotalLogs].
  rewrite fold_sizes; [|eapply Forall_impl; [exact Hcs1|]; simpl; intros; lia|lia|lia].
  rewrite Z.add_0_l. fold (ClusterCount dt).
  split; [done|]. split; [lia|].
  intros Hids.
  pose proof (index_pointers_all _ _ Hok Hperm Hids) as Hp2.
  split.
  - rewrite H2, <- Htot, total_size_zsum, <- (size_at_seq (heap dt)).
    apply zsum_perm. by rewrite Hp2.
  - rewrite <- Hlen, <- (length_fmap fst cs), H1, Hp2. by rewrite length_seq.
Qed.

End Stats.

(* ===================================================================== *)
(** * The theorems at concrete runs *)
(* ===================================================================== *)

Definition strict_config : Config :=
  {| MaxDepth := 4; SimThreshold := 2%float; MaxChildren := 100; MaxClusters := 20;
     MaxSampleLogs := 5; ExtraDelimiter := "" |}.

Lemma sizes_add_up_witness :
  ∃ dt rs,
    parse_all short_decimal (NewDrainTree DefaultConfig) [(line1, 1); (line2, 2)]
    = Done (dt, rs)
    ∧ total_size (heap dt) = parsed rs
    ∧ (∀ (p : nat) c, heap dt !! p = Some c → 1 ≤ Size c ≤ parsed rs).
Proof.
  apply (sizes_add_up short_decimal DefaultConfig [(line1, 1); (line2, 2)]).
  reflexivity.
Defined.

Lemma created_line_matches_again_witness :
  ∃ dt1 rs1 dt2 r dt3 rs3 dt4 r',
    parse_all short_decimal (NewDrainTree DefaultConfig) [] = Done (dt1, rs1)
    ∧ Parse short_decimal dt1 line1 1 = Done (dt2, r)
    ∧ parse_all short_decimal dt2 [(line2, 2)] = Done (dt3, rs3)
    ∧ Parse short_decimal dt3 line1 3 = Done (dt4, r')
    ∧ ∀ res, r = ParseOk res → IsNew res = true →
        ∃ res', r' = ParseOk res' ∧ IsNew res' = false
                ∧ List.length (heap dt4) = List.length (heap dt3)
                ∧ clusters dt4 = clusters dt3
                ∧ ClusterCount dt4 = ClusterCount dt3.
Proof.
  apply (created_line_matches_again short_decimal DefaultConfig [] line1 1
           [(line2, 2)] line1 3).
  - reflexivity.
  - vm_compute. reflexivity.
  - reflexivity.
Defined.

Lemma threshold_above_one_never_matches_witness :
  ∃ dt rs,
    parse_all short_decimal (NewDrainTree strict_config) [(line1, 1); (line1, 2)]
    = Done (dt, rs)
    ∧ (∀ res, ParseOk res ∈ rs → IsNew res = true)
    ∧ Z.of_nat (List.length (heap dt)) = parsed rs
    ∧ ∀ (p : nat) c, heap dt !! p = Some c → Size c = 1.
Proof.
  apply (threshold_above_one_never_matches short_decimal strict_config
           [(line1, 1); (line1, 2)]).
  reflexivity.
Defined.

Lemma limits_are_never_read_witness :
  ∃ dt dt' rs,
    parse_all short_decimal (NewDrainTree DefaultConfig) [(line1, 1); (line2, 2)]
    = Done (dt, rs)
    ∧ parse_all short_decimal (NewDrainTree one_child_config) [(line1, 1); (line2, 2)]
      = Done (dt', rs)
    ∧ root dt' = root dt ∧ heap dt' = heap dt ∧ clusters dt' = clusters dt.
Proof.
  apply (limits_are_never_read short_decimal DefaultConfig one_child_config
           [(line1, 1); (line2, 2)]); reflexivity.
Defined.

Lemma GetStats_counts_parsed_lines_witness :
  ∃ dt rs,
    parse_all short_decimal (NewDrainTree DefaultConfig) [(line1, 1); (line2, 2)]
    = Done (dt, rs)
    ∧ ∀ order, order ≡ₚ map_to_list (clusters dt) →
        ∃ st, GetStats dt order = Done st
              ∧ TotalClusters st = ClusterCount dt
              ∧ TotalClusters st ≤ TotalLogs st ≤ parsed rs
              ∧ (NoDup (ID <$> heap dt) →
                 TotalLogs st = parsed rs
                 ∧ TotalClusters st = Z.of_nat (List.length (heap dt))).
Proof.
  apply (GetStats_counts_parsed_lines short_decimal DefaultConfig
           [(line1, 1); (line2, 2)]).
  reflexivity.
Defined.

(* ===================================================================== *)
(** * Tokens with a slash *)
(* ===================================================================== *)

Lemma rep_zero_total {A : Type} p hi prev s (k : option ascii → string → option A) :
  (∀ pr r, k pr r ≠ None) → Regex.rep p 0 hi prev s k ≠ None.
Proof.
  intros Hk. revert hi prev. induction s as [|c s IH]; intros hi prev;
    cbn [Regex.rep]; [apply Hk|].
  destruct (p c && negb (bool_decide (hi = Some 0%nat))); [|apply Hk].
  destruct (Regex.rep p (Nat.pred 0) (Nat.pred <$> hi) (Some c) s k); [done | apply Hk].
Qed.

(** [/[^\s]+], the fifth expression of [compilePatterns]. *)
Definition path_pattern : Regex.re :=
  Regex.seqs [Regex.lit "/"; Regex.Rep (fun c => negb (Regex.space c)) 1 None].

Lemma path_pattern_compiled : In path_pattern compilePatterns.
Proof. do 4 right. left. reflexivity. Qed.

Lemma path_pattern_here prev c rest :
  Regex.space c = false →
  Regex.match_here path_pattern prev (String "/" (String c rest)) ≠ None.
Proof.
  intros Hc. unfold Regex.match_here, path_pattern.
  cbn [Regex.seqs Regex.run Regex.lit Regex.one_of]. rewrite Ascii.eqb_refl.
  cbn [orb Regex.rep]. rewrite Hc. cbn [negb andb Nat.pred].
  rewrite bool_decide_eq_false_2 by done. cbn [negb fmap option_fmap option_map].
  destruct (Regex.rep _ 0 None (Some c) rest _) eqn:E; [done|].
  by apply rep_zero_total in E.
Qed.

Lemma search_found r prev m s :
  (∀ prev', Regex.match_here r prev' s ≠ None) → Regex.search r prev (m ++ s) = true.
Proof.
  intros Hs. revert prev. induction m as [|c m IH]; intros prev.
  - change (EmptyString ++ s) with s. specialize (Hs prev).
    destruct s; cbn [Regex.search]; by destruct (Regex.match_here r prev _).
  - rewrite string_app_cons. cbn [Regex.search].
    destruct (Regex.match_here r prev _); [done | apply IH].
Qed.

Lemma clean_app_r a b r : clean (a ++ b) r → clean b r.
Proof.
  induction a as [|c a IH]; [done|]. rewrite string_app_cons. cbn [clean].
  intros [_ H]. by apply IH.
Qed.

Lemma clean_head_not_space c t r : clean (String c t) r → Regex.space c = false.
Proof.
  cbn [clean space_width]. intros [H _]. unfold byte_of in H.
  destruct (_ || _)%N eqn:E in H; [discriminate|]. clear H.
  unfold Regex.space. apply orb_false_iff in E as [E1 E2].
  rewrite E2, orb_false_r.
  destruct (N_of_ascii c =? 9)%N eqn:E9; [apply N.eqb_eq in E9; rewrite E9 in E1; done|].
  destruct (N_of_ascii c =? 10)%N eqn:E10; [apply N.eqb_eq in E10; rewrite E10 in E1; done|].
  destruct (N_of_ascii c =? 12)%N eqn:E12; [apply N.eqb_eq in E12; rewrite E12 in E1; done|].
  destruct (N_of_ascii c =? 13)%N eqn:E13; [apply N.eqb_eq in E13; rewrite E13 in E1; done|].
  done.
Qed.

Section Slash.

Variable parseFloatOk : string → bool.

(** X13.  Every token of a line in which a slash is followed by a further byte
    counts as a variable, whatever stands around the slash: the expression
    for file paths is not anchored.  [preprocessTokens] replaces the token by
    the wildcard. *)
Theorem slash_tokens_become_wildcards
        (line : string) (i : nat) (before : string) (c : ascii) (after : string) :
  tokenize line !! i = Some (before ++ String "/" (String c after)) →
  isVariable parseFloatOk (before ++ String "/" (String c after)) = true
  ∧ preprocessTokens parseFloatOk (tokenize line) !! i = Some wildcard.
Proof.
  intros Hi.
  assert (Hv : isVariable parseFloatOk (before ++ String "/" (String c after)) = true).
  { unfold isVariable. destruct (parseFloatOk _); [done|].
    apply existsb_exists. exists path_pattern. split; [apply path_pattern_compiled|].
    apply search_found. intros prev'. apply path_pattern_here.
    pose proof (Fields_fields line) as Hf. rewrite Forall_forall in Hf.
    destruct (Hf _ (list_elem_of_lookup_2 _ _ _ Hi)) as [_ Hclean].
    apply clean_app_r in Hclean. cbn [clean] in Hclean. destruct Hclean as [_ Hclean].
    by eapply clean_head_not_space. }
  split; [done|]. unfold preprocessTokens.
  change (map ?f ?l) with (f <$> l). rewrite list_lookup_fmap, Hi. simpl. by rewrite Hv.
Qed.

End Slash.

Lemma slash_tokens_become_wildcards_witness :
  isVariable short_decimal "and/or" = true
  ∧ preprocessTokens short_decimal (tokenize "read and/or write") !! 1%nat
    = Some wildcard.
Proof.
  apply (slash_tokens_become_wildcards short_decimal "read and/or write" 1
           "and" "o" "r").
  reflexivity.
Defined.

(* ===================================================================== *)
(** * The redactor *)
(* ===================================================================== *)

Import Pii.

Lemma replace_go_no_match r repl s prev :
  Regex.search r prev s = false → Regex.replace_go r repl prev s 0 = s.
Proof.
  revert prev. induction s as [|c s IH]; intros prev H; [done|].
  cbn [Regex.search] in H. cbn [Regex.replace_go].
  destruct (Regex.match_here r prev (String c s)); [discriminate|].
  by rewrite IH.
Qed.

(** Where the pattern matches nowhere, [ReplaceAllString] changes
    nothing. *)
Lemma ReplaceAllString_no_match r src repl :
  Regex.MatchString r src = false → Regex.ReplaceAllString r src repl = src.
Proof. apply replace_go_no_match. Qed.

Lemma Redact_nothing_detected (r : Redactor) (order : list string) (text : string) :
  DetectPII r order text = [] → Redact r order text = text.
Proof.
  unfold Redact, DetectPII. destruct (enabled r); [|done]. cbn [negb].
  induction order as [|k order IH]; [done|].
  cbn [List.filter fold_left]. unfold redact_step at 2.
  destruct (patterns r !! k) as [pattern|] eqn:Ek.
  - destruct (Regex.MatchString pattern text) eqn:Em; [discriminate|].
    rewrite ReplaceAllString_no_match by done. apply IH.
  - apply IH.
Qed.

(** Scenario 5 of the specification. *)
Definition builtin_order : list string := ["email"; "phone"; "ssn"; "credit_card"].

Example redaction_scenario :
  Redact (NewRedactor DefaultRedactorConfig) builtin_order
         "contact alice@example.com" = "contact [EMAIL_REDACTED]"
  ∧ DetectPII (NewRedactor DefaultRedactorConfig) builtin_order
              "contact alice@example.com" = ["email"].
Proof. split; vm_compute; reflexivity. Qed.

Definition ssn_first : list string := ["ssn"; "credit_card"; "email"; "phone"].

Lemma ssn_first_iteration_order :
  iteration_order (patterns (NewRedactor DefaultRedactorConfig)) ssn_first.
Proof.
  assert (E : (map_to_list (patterns (NewRedactor DefaultRedactorConfig))).*1 = ssn_first)
    by (vm_compute; reflexivity).
  unfold iteration_order. exact (eq_ind_r (fun l => ssn_first ≡ₚ l) (reflexivity ssn_first) E).
Qed.

(** ** The order of the loop of [Redact] *)

(** Of the two keys, [order] has [a] before [b]. *)
Definition visits_first (a b : string) (order : list string) : bool :=
  match List.filter (fun k => String.eqb k a || String.eqb k b) order with
  | k :: _ => String.eqb k a
  | [] => false
  end.

Lemma iteration_order_default order :
  iteration_order (patterns (NewRedactor DefaultRedactorConfig)) order →
  In order (permutations ssn_first).
Proof.
  intros Ho. apply list_elem_of_In, permutations_Permutation.
  unfold iteration_order in Ho. rewrite Ho. symmetry. apply ssn_first_iteration_order.
Qed.

(** C9, the code at a failing input: ["a@b.com123-45-6789"] and the
    redactor of the default configuration.  The loop of [Redact] ranges over
    a Go map, whose order changes from call to call.  In the input the
    digits follow a letter, so the [ssn] pattern, which starts with a word
    boundary, does not match before the address is replaced.  When the
    first call visits [email] before [ssn] it redacts both, and a second
    call changes nothing.  When the first call visits [ssn] before [email]
    it replaces the address only and leaves the number in its result, where
    [DetectPII] finds it, and a second call, in any order, replaces the
    number: [redact(redact(x))] differs from [redact(x)]. *)
Theorem Redact_depends_on_map_order (order1 order2 : list string) :
  let r := NewRedactor DefaultRedactorConfig in
  let x := "a@b.com123-45-6789" in
  iteration_order (patterns r) order1 →
  iteration_order (patterns r) order2 →
  Redact r order2 (Redact r order1 x) = "[EMAIL_REDACTED][SSN_REDACTED]"
  ∧ (visits_first "email" "ssn" order1 = true →
     Redact r order1 x = "[EMAIL_REDACTED][SSN_REDACTED]"
     ∧ Redact r order2 (Redact r order1 x) = Redact r order1 x)
  ∧ (visits_first "email" "ssn" order1 = false →
     Redact r order1 x = "[EMAIL_REDACTED]123-45-6789"
     ∧ DetectPII r order2 (Redact r order1 x) = ["ssn"]
     ∧ Redact r order2 (Redact r order1 x) ≠ Redact r order1 x).
Proof.
  intros r x Ho1 Ho2.
  assert (Hfirst : forallb (fun o =>
                     String.eqb (Redact r o x)
                                (if visits_first "email" "ssn" o
                                 then "[EMAIL_REDACTED][SSN_REDACTED]"
                                 else "[EMAIL_REDACTED]123-45-6789"))
                     (permutations ssn_first) = true)
    by (vm_compute; reflexivity).
  assert (Hsecond : forallb (fun o =>
                      String.eqb (Redact r o "[EMAIL_REDACTED][SSN_REDACTED]")
                                 "[EMAIL_REDACTED][SSN_REDACTED]"
                      && String.eqb (Redact r o "[EMAIL_REDACTED]123-45-6789")
                                    "[EMAIL_REDACTED][SSN_REDACTED]"
                      && bool_decide (DetectPII r o "[EMAIL_REDACTED]123-45-6789"
                                      = ["ssn"]))
                      (permutations ssn_first) = true)
    by (vm_compute; reflexivity).
  rewrite forallb_forall in Hfirst, Hsecond.
  pose proof (Hfirst _ (iteration_order_default _ Ho1)) as H1.
  pose proof (Hsecond _ (iteration_order_default _ Ho2)) as H2.
  apply String.eqb_eq in H1.
  apply andb_true_iff in H2 as [H2 H2c]. apply andb_true_iff in H2 as [H2a H2b].
  apply String.eqb_eq in H2a, H2b. apply bool_decide_eq_true_1 in H2c.
  rewrite H1. destruct (visits_first "email" "ssn" order1).
  - rewrite H2a. split; [done|]. split; [done | discriminate].
  - rewrite H2b. split; [done|]. split; [discriminate|].
    intros _. split; [done|]. split; [done | discriminate].
Qed.

Lemma Redact_depends_on_map_order_witness :
  Redact (NewRedactor DefaultRedactorConfig) ssn_first
         (Redact (NewRedactor DefaultRedactorConfig) ssn_first "a@b.com123-45-6789")
  = "[EMAIL_REDACTED][SSN_REDACTED]"
  ∧ Redact (NewRedactor DefaultRedactorConfig) ssn_first "a@b.com123-45-6789"
    = "[EMAIL_REDACTED]123-45-6789"
  ∧ DetectPII (NewRedactor DefaultRedactorConfig) ssn_first
      (Redact (NewRedactor DefaultRedactorConfig) ssn_first "a@b.com123-45-6789")
    = ["ssn"]
  ∧ Redact (NewRedactor DefaultRedactorConfig) ssn_first
      (Redact (NewRedactor DefaultRedactorConfig) ssn_first "a@b.com123-45-6789")
    ≠ Redact (NewRedactor DefaultRedactorConfig) ssn_first "a@b.com123-45-6789".
Proof.
  destruct (Redact_depends_on_map_order ssn_first ssn_first
              ssn_first_iteration_order ssn_first_iteration_order)
    as (H1 & _ & H3).
  split; [exact H1|]. apply H3. reflexivity.
Defined.

(** ** When a second redaction changes the text *)

(** The number of opening brackets of a text.  Every placeholder has one,
    and no built-in pattern matches one, so each replacement adds to the
    count. *)
Fixpoint brackets (s : string) : nat :=
  match s with
  | EmptyString => 0%nat
  | String c r => ((if Ascii.eqb c "[" then 1 else 0) + brackets r)%nat
  end.

(** No class of the expression accepts an opening bracket. *)
Fixpoint bracket_free (r : Regex.re) : bool :=
  match r with
  | Regex.Eps | Regex.WordB => true
  | Regex.Cls p | Regex.Rep p _ _ => negb (p "["%char)
  | Regex.Seq a b => bracket_free a && bracket_free b
  | Regex.Opt a => bracket_free a
  end.

(** The least number of bytes a match of the expression has. *)
Fixpoint min_len (r : Regex.re) : nat :=
  match r with
  | Regex.Eps | Regex.WordB | Regex.Opt _ => 0%nat
  | Regex.Cls _ => 1%nat
  | Regex.Rep _ lo _ => lo
  | Regex.Seq a b => (min_len a + min_len b)%nat
  end.

Lemma brackets_app s t : brackets (s ++ t) = (brackets s + brackets t)%nat.
Proof.
  induction s as [|c s IH]; [done|].
  rewrite string_app_cons. cbn [brackets]. rewrite IH. lia.
Qed.

Lemma string_length_app s t :
  String.length (s ++ t) = (String.length s + String.length t)%nat.
Proof.
  induction s as [|c s IH]; [done|].
  rewrite string_app_cons. cbn [String.length]. by rewrite IH.
Qed.

Lemma class_not_bracket (p : ascii → bool) c :
  negb (p "["%char) = true → p c = true → Ascii.eqb c "[" = false.
Proof.
  intros Hp Hc. destruct (Ascii.eqb_spec c "["%char) as [->|]; [|done].
  rewrite Hc in Hp. discriminate.
Qed.

(** What a successful run has consumed. *)
Definition consumed {A : Type} (n : nat) (s : string)
           (k : option ascii → string → option A) (x : A) : Prop :=
  ∃ prev' m rest,
    s = m ++ rest ∧ brackets m = 0%nat ∧ (n ≤ String.length m)%nat
    ∧ k prev' rest = Some x.

Lemma rep_consumed {A : Type} p lo hi prev s (k : option ascii → string → option A) x :
  negb (p "["%char) = true →
  Regex.rep p lo hi prev s k = Some x → consumed lo s k x.
Proof.
  intros Hp. revert lo hi prev.
  induction s as [|c s IH]; intros lo hi prev H; cbn [Regex.rep] in H.
  - destruct lo; [|discriminate]. exists prev, EmptyString, EmptyString.
    repeat split; first [done | simpl; lia].
  - assert (Hstop : match lo with O => k prev (String c s) | S _ => None end = Some x
                    → consumed lo (String c s) k x).
    { destruct lo; [|discriminate]. intros Hk.
      exists prev, EmptyString, (String c s). repeat split; first [done | simpl; lia]. }
    destruct (p c && negb (bool_decide (hi = Some 0%nat))) eqn:E; [|by apply Hstop].
    destruct (Regex.rep p (Nat.pred lo) (Nat.pred <$> hi) (Some c) s k) as [y|] eqn:Er;
      [|by apply Hstop].
    injection H as ->. apply andb_true_iff in E as [Hc _].
    destruct (IH _ _ _ Er) as (prev' & m & rest & -> & Hb & Hl & Hk).
    exists prev', (String c m), rest. split; [done|]. split.
    + cbn [brackets]. rewrite (class_not_bracket p c Hp Hc). lia.
    + split; [|done]. cbn [String.length]. lia.
Qed.

Lemma run_consumed {A : Type} r prev s (k : option ascii → string → option A) x :
  bracket_free r = true →
  Regex.run r prev s k = Some x → consumed (min_len r) s k x.
Proof.
  revert prev s k x.
  induction r as [|p|p lo hi|a IHa b IHb|a IHa|]; intros prev s k x Hf H;
    cbn [Regex.run min_len bracket_free] in *.
  - exists prev, EmptyString, s. repeat split; first [done | simpl; lia].
  - destruct s as [|c s]; [discriminate|].
    destruct (p c) eqn:Hc; [|discriminate].
    exists (Some c), (String c EmptyString), s. split; [done|]. split.
    + cbn [brackets]. rewrite (class_not_bracket p c Hf Hc). lia.
    + split; [simpl; lia | done].
  - by eapply rep_consumed.
  - apply andb_true_iff in Hf as [Hfa Hfb].
    destruct (IHa _ _ _ _ Hfa H) as (prev1 & m1 & rest1 & -> & Hb1 & Hl1 & Hk1).
    destruct (IHb _ _ _ _ Hfb Hk1) as (prev2 & m2 & rest2 & -> & Hb2 & Hl2 & Hk2).
    exists prev2, (m1 ++ m2), rest2. split; [by rewrite string_app_assoc|].
    split; [rewrite brackets_app; lia|].
    split; [rewrite string_length_app; lia | done].
  - destruct (Regex.run a prev s k) as [y|] eqn:Ea.
    + injection H as ->.
      destruct (IHa _ _ _ _ Hf Ea) as (prev' & m & rest & -> & Hb & _ & Hk).
      exists prev', m, rest. repeat split; first [done | lia].
    + exists prev, EmptyString, s. repeat split; first [done | simpl; lia].
  - destruct (xorb _ _); [|discriminate].
    exists prev, EmptyString, s. repeat split; first [done | simpl; lia].
Qed.

Lemma match_here_consumed r prev s rest :
  bracket_free r = true → Regex.match_here r prev s = Some rest →
  ∃ m, s = m ++ rest ∧ brackets m = 0%nat ∧ (min_len r ≤ String.length m)%nat.
Proof.
  intros Hf H. apply run_consumed in H as (prev' & m & rest' & -> & Hb & Hl & Hk);
    [|done].
  injection Hk as ->. by exists m.
Qed.

(** Dropping the bytes of a match leads to the text after it. *)
Lemma replace_go_skip r repl m rest prev :
  ∃ prev', Regex.replace_go r repl prev (m ++ rest) (String.length m)
           = Regex.replace_go r repl prev' rest 0.
Proof.
  revert prev. induction m as [|c m IH]; intros prev; [by exists prev|].
  rewrite string_app_cons. cbn [String.length Regex.replace_go]. apply IH.
Qed.

Section Replacing.

Variable r : Regex.re.
Variable repl : string.
Hypothesis r_free : bracket_free r = true.
Hypothesis r_nonempty : (1 ≤ min_len r)%nat.
Hypothesis repl_bracket : (1 ≤ brackets repl)%nat.

(** Replacing never removes a bracket, and a text in which the pattern
    matches gains one. *)
Lemma replace_go_brackets n :
  ∀ s prev, (String.length s ≤ n)%nat →
    (brackets s ≤ brackets (Regex.replace_go r repl prev s 0))%nat
    ∧ (Regex.search r prev s = true →
       (brackets s < brackets (Regex.replace_go r repl prev s 0))%nat).
Proof.
  induction n as [|n IH]; intros s prev Hn.
  - destruct s; [|simpl in Hn; lia]. cbn [Regex.replace_go Regex.search].
    split; [done|]. destruct (Regex.match_here r prev EmptyString) as [rest|] eqn:E;
      [|discriminate].
    apply match_here_consumed in E as (m & Hs & _ & Hl); [|done].
    destruct m; [simpl in Hl; lia | discriminate].
  - destruct s as [|c s].
    { apply (IH EmptyString prev). simpl. lia. }
    cbn [Regex.replace_go Regex.search String.length] in *.
    destruct (Regex.match_here r prev (String c s)) as [rest|] eqn:E.
    + apply match_here_consumed in E as (m & Hs & Hb & Hl); [|done].
      destruct m as [|c' m]; [simpl in Hl; lia|].
      rewrite string_app_cons in Hs. injection Hs as <- ->.
      rewrite string_length_app.
      replace (S (String.length m + String.length rest) - String.length rest)%nat
        with (S (String.length m)) by lia.
      destruct (replace_go_skip r repl m rest (Some c)) as [prev' ->].
      destruct (IH rest prev') as [Hle _].
      { rewrite string_length_app in Hn. lia. }
      cbn [brackets] in *. rewrite !brackets_app in *.
      split; [lia|]. intros _. lia.
    + destruct (IH s (Some c)) as [Hle Hlt]; [lia|].
      cbn [brackets]. split; [lia|]. intros Hs. specialize (Hlt Hs). lia.
Qed.

Lemma ReplaceAllString_brackets src :
  (brackets src ≤ brackets (Regex.ReplaceAllString r src repl))%nat
  ∧ (Regex.MatchString r src = true →
     (brackets src < brackets (Regex.ReplaceAllString r src repl))%nat).
Proof. by apply (replace_go_brackets (String.length src)). Qed.

End Replacing.

(** The placeholder [Redact] uses for a pattern name. *)
Definition placeholder_of (piiType : string) : string :=
  let placeholder := default "" (placeholders !! piiType) in
  if bool_decide (placeholder = "") then "[REDACTED]" else placeholder.

(** Every pattern of the redactor is bracket-free, matches at least one
    byte and has a placeholder with a bracket. *)
Definition well_bracketed (r : Redactor) : bool :=
  forallb (fun kp => bracket_free kp.2 && (1 <=? min_len kp.2)%nat
                     && (1 <=? brackets (placeholder_of kp.1))%nat)
          (map_to_list (patterns r)).

Lemma well_bracketed_lookup r k p :
  well_bracketed r = true → patterns r !! k = Some p →
  bracket_free p = true ∧ (1 ≤ min_len p)%nat ∧ (1 ≤ brackets (placeholder_of k))%nat.
Proof.
  unfold well_bracketed. rewrite forallb_forall. intros Hall Hk.
  apply elem_of_map_to_list, list_elem_of_In in Hk. apply Hall in Hk. cbn [fst snd] in Hk.
  apply andb_true_iff in Hk as [Hk H3]. apply andb_true_iff in Hk as [H1 H2].
  apply Nat.leb_le in H2, H3. done.
Qed.

Lemma redact_step_brackets r k text :
  well_bracketed r = true →
  (brackets text ≤ brackets (redact_step r text k))%nat
  ∧ (redact_step r text k ≠ text → (brackets text < brackets (redact_step r text k))%nat).
Proof.
  intros Hr. unfold redact_step. destruct (patterns r !! k) as [p|] eqn:Ek; [|done].
  fold (placeholder_of k).
  destruct (well_bracketed_lookup r k p Hr Ek) as (H1 & H2 & H3).
  destruct (ReplaceAllString_brackets p (placeholder_of k) H1 H2 H3 text) as [Hle Hlt].
  split; [done|]. intros Hne.
  destruct (Regex.MatchString p text) eqn:Em; [by apply Hlt|].
  by rewrite ReplaceAllString_no_match in Hne.
Qed.

Lemma fold_redact_brackets r order text :
  well_bracketed r = true →
  (brackets text ≤ brackets (fold_left (redact_step r) order text))%nat.
Proof.
  intros Hr. revert text. induction order as [|k order IH]; intros text; [done|].
  cbn [fold_left]. destruct (redact_step_brackets r k text Hr) as [Hle _].
  specialize (IH (redact_step r text k)). lia.
Qed.

(** A redaction that leaves the text as it is found no match. *)
Lemma Redact_fixed_nothing_detected r order text :
  well_bracketed r = true → enabled r = true →
  Redact r order text = text → DetectPII r order text = [].
Proof.
  intros Hr He. unfold Redact, DetectPII. rewrite He. cbn [negb].
  induction order as [|k order IH]; [done|].
  cbn [fold_left List.filter]. intros Hfix.
  destruct (redact_step_brackets r k text Hr) as [_ Hlt].
  pose proof (fold_redact_brackets r order (redact_step r text k) Hr) as Hle.
  rewrite Hfix in Hle.
  destruct (decide (redact_step r text k = text)) as [Heq|Hne];
    [|specialize (Hlt Hne); lia].
  rewrite Heq in Hfix. specialize (IH Hfix).
  destruct (patterns r !! k) as [p|] eqn:Ek; [|done].
  destruct (Regex.MatchString p text) eqn:Em; [|done].
  exfalso. unfold redact_step in Heq. rewrite Ek in Heq. fold (placeholder_of k) in Heq.
  destruct (well_bracketed_lookup r k p Hr Ek) as (H1 & H2 & H3).
  destruct (ReplaceAllString_brackets p (placeholder_of k) H1 H2 H3 text) as [_ Hlt'].
  specialize (Hlt' Em). rewrite Heq in Hlt'. lia.
Qed.

Lemma builtin_patterns_well_bracketed (emails phones ssn cards ipv4 ipv6 : bool) :
  well_bracketed
    (NewRedactor {| RedactEmails := emails; RedactPhones := phones; RedactSSN := ssn;
                    RedactCreditCards := cards; RedactIPv4 := ipv4;
                    RedactIPv6 := ipv6; CustomPatterns := ∅ |}) = true.
Proof.
  destruct emails, phones, ssn, cards, ipv4, ipv6; vm_compute; reflexivity.
Qed.

(** A second redaction changes a text exactly when [DetectPII] finds
    something in it.  For a redactor built from the built-in patterns (any
    of the six enabled, no custom pattern), every text of the form
    [redact(x)] and every order in which the loops of the calls visit the
    pattern map: redacting it again gives the same text if and only if
    [DetectPII] finds nothing in it. *)
Lemma Redact_idempotent_iff_nothing_left
        (emails phones ssn cards ipv4 ipv6 : bool)
        (order1 order2 : list string) (x : string) :
  let r := NewRedactor {| RedactEmails := emails; RedactPhones := phones;
                          RedactSSN := ssn; RedactCreditCards := cards;
                          RedactIPv4 := ipv4; RedactIPv6 := ipv6;
                          CustomPatterns := ∅ |} in
  Redact r order2 (Redact r order1 x) = Redact r order1 x
  ↔ DetectPII r order2 (Redact r order1 x) = [].
Proof.
  intros r. split.
  - apply Redact_fixed_nothing_detected; [|done].
    apply builtin_patterns_well_bracketed.
  - apply Redact_nothing_detected.
Qed.


(* ===================================================================== *)
(** * Text without personal data *)
(* ===================================================================== *)

(** A byte that is no decimal digit, no [@] and no colon. *)
Definition plain_char (c : ascii) : bool :=
  negb (Regex.digit c || Ascii.eqb c "@" || Ascii.eqb c ":").

Fixpoint plain (s : string) : bool :=
  match s with
  | EmptyString => true
  | String c r => plain_char c && plain r
  end.

Definition all_bytes : list ascii := List.map ascii_of_nat (seq 0 256).

Lemma in_all_bytes c : In c all_bytes.
Proof.
  unfold all_bytes. rewrite <- (ascii_nat_embedding c).
  apply in_map, in_seq. pose proof (nat_ascii_bounded c). lia.
Qed.

(** The class accepts no plain byte. *)
Definition class_needs (p : ascii → bool) : bool :=
  forallb (fun c => implb (p c) (negb (plain_char c))) all_bytes.

Lemma class_needs_spec p c : class_needs p = true → p c = true → plain_char c = false.
Proof.
  unfold class_needs. rewrite forallb_forall. intros H Hp.
  specialize (H c (in_all_bytes c)). rewrite Hp in H. simpl in H.
  by apply negb_true_iff in H.
Qed.

(** Every match of the expression has a byte that is not plain. *)
Fixpoint needs (r : Regex.re) : bool :=
  match r with
  | Regex.Eps | Regex.WordB | Regex.Opt _ => false
  | Regex.Cls p => class_needs p
  | Regex.Rep p lo _ => (0 <? lo)%nat && class_needs p
  | Regex.Seq a b => needs a || needs b
  end.

Lemma plain_app m rest : plain (m ++ rest) = true → plain rest = true.
Proof.
  induction m as [|c m IH]; [done|]. rewrite string_app_cons. cbn [plain].
  intros H. apply andb_true_iff in H as [_ H]. by apply IH.
Qed.

(** The continuation of a match is called on a rest of the input. *)
Lemma rep_rest {A : Type} p lo hi prev s (k : option ascii → string → option A) x :
  Regex.rep p lo hi prev s k = Some x →
  ∃ prev' m rest, s = m ++ rest ∧ k prev' rest = Some x.
Proof.
  revert lo hi prev. induction s as [|c s IH]; intros lo hi prev H; cbn [Regex.rep] in H.
  - destruct lo; [|discriminate]. by exists prev, EmptyString, EmptyString.
  - assert (Hstop : match lo with O => k prev (String c s) | S _ => None end = Some x
                    → ∃ prev' m rest, String c s = m ++ rest ∧ k prev' rest = Some x).
    { destruct lo; [|discriminate]. intros Hk. by exists prev, EmptyString, (String c s). }
    destruct (p c && negb (bool_decide (hi = Some 0%nat))); [|by apply Hstop].
    destruct (Regex.rep p (Nat.pred lo) (Nat.pred <$> hi) (Some c) s k) as [y|] eqn:Er;
      [|by apply Hstop].
    injection H as ->. destruct (IH _ _ _ Er) as (prev' & m & rest & -> & Hk).
    by exists prev', (String c m), rest.
Qed.

Lemma run_rest {A : Type} r prev s (k : option ascii → string → option A) x :
  Regex.run r prev s k = Some x →
  ∃ prev' m rest, s = m ++ rest ∧ k prev' rest = Some x.
Proof.
  revert prev s k x.
  induction r as [|p|p lo hi|a IHa b IHb|a IHa|]; intros prev s k x H;
    cbn [Regex.run] in H.
  - by exists prev, EmptyString, s.
  - destruct s as [|c s]; [discriminate|]. destruct (p c); [|discriminate].
    by exists (Some c), (String c EmptyString), s.
  - by eapply rep_rest.
  - destruct (IHa _ _ _ _ H) as (prev1 & m1 & rest1 & -> & Hk1).
    destruct (IHb _ _ _ _ Hk1) as (prev2 & m2 & rest2 & -> & Hk2).
    exists prev2, (m1 ++ m2), rest2. by rewrite string_app_assoc.
  - destruct (Regex.run a prev s k) as [y|] eqn:Ea.
    + injection H as ->. by eapply IHa.
    + by exists prev, EmptyString, s.
  - destruct (xorb _ _); [|discriminate]. by exists prev, EmptyString, s.
Qed.

Lemma rep_needs {A : Type} p lo hi prev s (k : option ascii → string → option A) :
  (0 <? lo)%nat && class_needs p = true → plain s = true →
  Regex.rep p lo hi prev s k = None.
Proof.
  intros H Hs. apply andb_true_iff in H as [Hlo Hp]. apply Nat.ltb_lt in Hlo.
  destruct lo as [|lo]; [lia|].
  destruct s as [|c s]; cbn [Regex.rep]; [done|].
  cbn [plain] in Hs. apply andb_true_iff in Hs as [Hc _].
  destruct (p c) eqn:Epc; [|done].
  rewrite (class_needs_spec p c Hp Epc) in Hc. discriminate.
Qed.

Lemma run_needs {A : Type} r prev s (k : option ascii → string → option A) :
  needs r = true → plain s = true → Regex.run r prev s k = None.
Proof.
  revert prev s k.
  induction r as [|p|p lo hi|a IHa b IHb|a IHa|]; intros prev s k Hn Hs;
    cbn [Regex.run needs] in *; try discriminate.
  - destruct s as [|c s]; [done|]. cbn [plain] in Hs.
    apply andb_true_iff in Hs as [Hc _].
    destruct (p c) eqn:Epc; [|done].
    rewrite (class_needs_spec p c Hn Epc) in Hc. discriminate.
  - by apply rep_needs.
  - apply orb_true_iff in Hn as [Ha|Hb]; [by apply IHa|].
    destruct (Regex.run a prev s _) as [x|] eqn:Ea; [|done].
    apply run_rest in Ea as (prev' & m & rest & -> & Hk).
    rewrite IHb in Hk; [discriminate | done | by eapply plain_app].
Qed.

Lemma search_needs r prev s :
  needs r = true → plain s = true → Regex.search r prev s = false.
Proof.
  intros Hn. revert prev. induction s as [|c s IH]; intros prev Hs;
    cbn [Regex.search]; unfold Regex.match_here; rewrite run_needs by done; [done|].
  apply IH. cbn [plain] in Hs. by apply andb_true_iff in Hs as [_ ?].
Qed.

(** Every pattern of the redactor needs a byte that is not plain. *)
Definition patterns_need (r : Redactor) : bool :=
  forallb (fun kp => needs kp.2) (map_to_list (patterns r)).

Lemma patterns_need_lookup r k p :
  patterns_need r = true → patterns r !! k = Some p → needs p = true.
Proof.
  unfold patterns_need. rewrite forallb_forall. intros Hall Hk.
  apply elem_of_map_to_list, list_elem_of_In in Hk. by apply Hall in Hk.
Qed.

Lemma builtin_patterns_need (emails phones ssn cards ipv4 ipv6 : bool) :
  patterns_need
    (NewRedactor {| RedactEmails := emails; RedactPhones := phones; RedactSSN := ssn;
                    RedactCreditCards := cards; RedactIPv4 := ipv4;
                    RedactIPv6 := ipv6; CustomPatterns := ∅ |}) = true.
Proof.
  destruct emails, phones, ssn, cards, ipv4, ipv6; vm_compute; reflexivity.
Qed.

Lemma DetectPII_plain r order text :
  patterns_need r = true → plain text = true → DetectPII r order text = [].
Proof.
  intros Hr Hs. unfold DetectPII.
  induction order as [|k order IH]; [done|]. cbn [List.filter].
  destruct (patterns r !! k) as [p|] eqn:Ek; [|done].
  unfold Regex.MatchString. rewrite search_needs; [done | | done].
  by eapply patterns_need_lookup.
Qed.

(** X14.  No false positives on plain text.  A redactor built from the built-in
    patterns (any of the six enabled, no custom pattern) detects nothing in
    a text that has no decimal digit, no [@] and no colon, and leaves it
    unchanged, whatever the order of its loops; [RedactVariables] keeps the
    keys of the map and every value that is such a text. *)
Theorem plain_text_is_not_redacted
        (emails phones ssn cards ipv4 ipv6 : bool)
        (order : list string) (orders : string → list string)
        (text : string) (variables : gmap string string) :
  let r := NewRedactor {| RedactEmails := emails; RedactPhones := phones;
                          RedactSSN := ssn; RedactCreditCards := cards;
                          RedactIPv4 := ipv4; RedactIPv6 := ipv6;
                          CustomPatterns := ∅ |} in
  plain text = true →
  DetectPII r order text = []
  ∧ Redact r order text = text
  ∧ dom (RedactVariables r orders variables) = dom variables
  ∧ ∀ key, variables !! key = Some text →
           RedactVariables r orders variables !! key = Some text.
Proof.
  intros r Hs.
  assert (Hd : ∀ order', DetectPII r order' text = []).
  { intros order'. apply DetectPII_plain; [apply builtin_patterns_need | done]. }
  split; [done|]. split; [by apply Redact_nothing_detected|].
  unfold RedactVariables. change (enabled r) with true. cbn [negb].
  split.
  - apply set_eq. intros key. rewrite !elem_of_dom, map_lookup_imap.
    destruct (variables !! key); simpl; split; intros [? ?]; by eexists.
  - intros key Hk. rewrite map_lookup_imap, Hk. simpl.
    by rewrite Redact_nothing_detected.
Qed.

Lemma plain_text_is_not_redacted_witness :
  let r := NewRedactor DefaultRedactorConfig in
  DetectPII r builtin_order "user logged in" = []
  ∧ Redact r builtin_order "user logged in" = "user logged in"
  ∧ dom (RedactVariables r (fun _ => builtin_order) {["var_0" := "user logged in"]})
    = dom ({["var_0" := "user logged in"]} : gmap string string)
  ∧ ∀ key, ({["var_0" := "user logged in"]} : gmap string string) !! key
           = Some "user logged in" →
           RedactVariables r (fun _ => builtin_order) {["var_0" := "user logged in"]} !! key
           = Some "user logged in".
Proof.
  apply (plain_text_is_not_redacted true true true true false false builtin_order
           (fun _ => builtin_order) "user logged in" {["var_0" := "user logged in"]}).
  reflexivity.
Defined.

(* ===================================================================== *)
(** * [Mask] and [MaskEmail] *)
(* ===================================================================== *)

Fixpoint stars (n : nat) : string :=
  match n with
  | O => EmptyString
  | S n' => String "*" (stars n')
  end.

Lemma Repeat_stars n : 0 ≤ n → Repeat "*" n = Done (stars (Z.to_nat n)).
Proof.
  intros Hn. unfold Repeat. destruct (Z.ltb_spec n 0); [lia|]. f_equal.
  induction (Z.to_nat n) as [|k IH]; [done|]. cbn [replicate fold_right].
  rewrite IH. done.
Qed.

Lemma stars_length n : String.length (stars n) = n.
Proof. induction n as [|n IH]; simpl; [done | by rewrite IH]. Qed.

Lemma stars_get n i : (i < n)%nat → String.get i (stars n) = Some "*"%char.
Proof.
  revert i. induction n as [|n IH]; intros i Hi; [lia|].
  destruct i as [|i]; [done|]. simpl. apply IH. lia.
Qed.

Lemma substring_0_length n s :
  (n ≤ String.length s)%nat → String.length (substring 0 n s) = n.
Proof.
  revert s. induction n as [|n IH]; intros s Hn.
  - by destruct s.
  - destruct s as [|c s]; simpl in *; [lia|]. rewrite IH; [done | lia].
Qed.

Lemma substring_0_get n s i :
  (i < n)%nat → String.get i (substring 0 n s) = String.get i s.
Proof.
  revert s i. induction n as [|n IH]; intros s i Hi; [lia|].
  destruct s as [|c s]; [done|]. destruct i as [|i]; [done|].
  simpl. apply IH. lia.
Qed.

Lemma get_app_l s t i :
  (i < String.length s)%nat → String.get i (s ++ t) = String.get i s.
Proof.
  revert i. induction s as [|c s IH]; intros i Hi; simpl in Hi; [lia|].
  rewrite string_app_cons. destruct i as [|i]; [done|]. simpl. apply IH. lia.
Qed.

Lemma get_app_r s t i :
  (String.length s ≤ i)%nat → String.get i (s ++ t) = String.get (i - String.length s) t.
Proof.
  revert i. induction s as [|c s IH]; intros i Hi.
  - change (EmptyString ++ t) with t. simpl. by rewrite Nat.sub_0_r.
  - rewrite string_app_cons. simpl in Hi. destruct i as [|i]; [lia|].
    simpl. apply IH. lia.
Qed.

(** X15.  [Mask] keeps the length of the text and shows at most its first
    [visibleChars] bytes: a text longer than [visibleChars] keeps these bytes
    and has [*] everywhere after them; a text of at most [visibleChars] bytes
    is masked entirely; a negative [visibleChars] makes the call panic. *)
Theorem Mask_hides_the_tail (text : string) (visibleChars : Z) :
  (visibleChars < 0 → Mask text visibleChars = Panic)
  ∧ (0 ≤ visibleChars →
     ∃ r, Mask text visibleChars = Done r
          ∧ String.length r = String.length text
          ∧ (∀ i, (Z.to_nat visibleChars ≤ i < String.length text)%nat →
                  String.get i r = Some "*"%char)
          ∧ (len text ≤ visibleChars → r = stars (String.length text))
          ∧ (visibleChars < len text →
             ∀ i, (i < Z.to_nat visibleChars)%nat → String.get i r = String.get i text)).
Proof.
  unfold Mask, slice_to, len. split.
  - intros Hneg. destruct (Z.leb_spec (Z.of_nat (String.length text)) visibleChars); [lia|].
    destruct (Z.leb_spec 0 visibleChars); [lia|]. done.
  - intros Hpos.
    destruct (Z.leb_spec (Z.of_nat (String.length text)) visibleChars) as [Hle|Hlt].
    + rewrite Repeat_stars by lia. rewrite Nat2Z.id. eexists. split; [done|].
      split; [apply stars_length|]. split; [|split; [done | lia]].
      intros i Hi. apply stars_get. lia.
    + destruct (Z.leb_spec 0 visibleChars); [|lia].
      destruct (Z.leb_spec visibleChars (Z.of_nat (String.length text))); [|lia].
      cbn [andb obind]. rewrite Repeat_stars by lia. cbn [obind].
      eexists. split; [done|].
      assert (Hsub : String.length (substring 0 (Z.to_nat visibleChars) text)
                     = Z.to_nat visibleChars) by (apply substring_0_length; lia).
      split; [rewrite string_length_app, Hsub, stars_length; lia|].
      split; [|split; [lia|]].
      * intros i Hi. rewrite get_app_r by lia. rewrite Hsub. apply stars_get. lia.
      * intros _ i Hi. rewrite get_app_l by lia. by apply substring_0_get.
Qed.

Fixpoint count_byte (b : ascii) (s : string) : nat :=
  match s with
  | EmptyString => 0%nat
  | String c r => ((if Ascii.eqb c b then 1 else 0) + count_byte b r)%nat
  end.

Lemma count_byte_app b s t : count_byte b (s ++ t) = (count_byte b s + count_byte b t)%nat.
Proof.
  induction s as [|c s IH]; [done|]. rewrite string_app_cons. simpl. rewrite IH. lia.
Qed.

Lemma Split_go_length s sep cur :
  List.length (Split_go s sep cur) = S (count_byte sep s).
Proof.
  revert cur. induction s as [|c s IH]; intros cur; [done|].
  cbn [Split_go count_byte]. destruct (Ascii.eqb c sep); simpl; by rewrite IH.
Qed.

Lemma Split_go_none s sep cur :
  count_byte sep s = 0%nat → Split_go s sep cur = [cur ++ s].
Proof.
  revert cur. induction s as [|c s IH]; intros cur H.
  - by rewrite string_app_nil_r.
  - cbn [Split_go count_byte] in *. destruct (Ascii.eqb c sep); [lia|].
    rewrite IH by lia. rewrite string_app_assoc. reflexivity.
Qed.

Lemma Split_go_one l d sep cur :
  count_byte sep l = 0%nat → count_byte sep d = 0%nat →
  Split_go (l ++ String sep d) sep cur = [cur ++ l; d].
Proof.
  revert cur. induction l as [|c l IH]; intros cur Hl Hd.
  - change (EmptyString ++ String sep d) with (String sep d). cbn [Split_go].
    rewrite Ascii.eqb_refl, Split_go_none by done. by rewrite string_app_nil_r.
  - rewrite string_app_cons. cbn [Split_go count_byte] in *.
    destruct (Ascii.eqb c sep); [lia|].
    rewrite IH by (done || lia). rewrite string_app_assoc. reflexivity.
Qed.

(** A text with one [sep] is a text without, [sep], and a text without. *)
Lemma count_byte_one sep s :
  count_byte sep s = 1%nat →
  ∃ l d, s = l ++ String sep d ∧ count_byte sep l = 0%nat ∧ count_byte sep d = 0%nat.
Proof.
  induction s as [|c s IH]; [done|]. cbn [count_byte].
  destruct (Ascii.eqb_spec c sep) as [->|Hne]; intros H.
  - exists EmptyString, s. split; [done|]. split; [done | lia].
  - destruct IH as (l & d & -> & Hl & Hd); [lia|].
    exists (String c l), d. split; [done|]. split; [|done].
    cbn [count_byte]. destruct (Ascii.eqb_spec c sep); [done | lia].
Qed.

Lemma string_of_byte_no_at b : b ≠ "@"%char → count_byte "@" (string_of_byte b) = 0%nat.
Proof.
  intros Hb.
  destruct b as [[] [] [] [] [] [] [] []];
    first [reflexivity | exfalso; apply Hb; reflexivity].
Qed.

Lemma stars_no_at n : count_byte "@" (stars n) = 0%nat.
Proof. induction n as [|n IH]; [done|]. simpl. exact IH. Qed.

(** X16.  [MaskEmail] always returns.  It returns ["[INVALID_EMAIL]"] exactly
    when the text does not have exactly one [@].  Otherwise it keeps the [@]
    and everything after it, and of the part before it shows at most the
    first byte: a part of at most one byte is kept, a longer one becomes its
    first byte, converted to a string, and one [*] for every further byte. *)
Theorem MaskEmail_keeps_the_domain (email : string) :
  ∃ r, MaskEmail email = Done r
       ∧ (r = "[INVALID_EMAIL]" ↔ count_byte "@" email ≠ 1%nat)
       ∧ ∀ localPart domain,
           email = localPart ++ String "@" domain →
           count_byte "@" localPart = 0%nat → count_byte "@" domain = 0%nat →
           ∃ shown,
             r = shown ++ String "@" domain
             ∧ count_byte "@" shown = 0%nat
             ∧ ((String.length localPart ≤ 1)%nat → shown = localPart)
             ∧ ∀ b rest, localPart = String b rest → rest ≠ "" →
                         shown = string_of_byte b ++ stars (String.length rest).
Proof.
  assert (Hvalid : ∀ l d, count_byte "@" l = 0%nat → count_byte "@" d = 0%nat →
    ∃ shown,
      MaskEmail (l ++ String "@" d) = Done (shown ++ String "@" d)
      ∧ count_byte "@" shown = 0%nat
      ∧ ((String.length l ≤ 1)%nat → shown = l)
      ∧ ∀ b rest, l = String b rest → rest ≠ "" →
                  shown = string_of_byte b ++ stars (String.length rest)).
  { intros l d Hl Hd. unfold MaskEmail, Split.
    rewrite Split_go_one by done. change (EmptyString ++ l) with l.
    unfold len. destruct (Z.leb_spec (Z.of_nat (String.length l)) 1) as [Hle|Hgt].
    - exists l. split; [done|]. split; [done|]. split; [done|].
      intros b rest -> Hrest. destruct rest; [done | simpl in Hle; lia].
    - destruct l as [|b rest]; [simpl in Hgt; lia|].
      unfold byte_at, len. cbn [String.length] in *.
      destruct (Z.ltb_spec 0 (Z.of_nat (S (String.length rest)))); [|lia].
      cbn [Z.leb andb Z.to_nat String.get obind].
      rewrite Repeat_stars by lia. cbn [obind].
      replace (Z.to_nat (Z.of_nat (S (String.length rest)) - 1))
        with (String.length rest) by lia.
      exists (string_of_byte b ++ stars (String.length rest)).
      split; [reflexivity|]. split.
      + rewrite count_byte_app, stars_no_at, string_of_byte_no_at; [done|].
        intros ->. cbn [count_byte] in Hl. rewrite Ascii.eqb_refl in Hl. lia.
      + split; [intros; lia|]. by intros b' rest' [= <- <-] _. }
  destruct (decide (count_byte "@" email = 1%nat)) as [Hone|Hne].
  - destruct (count_byte_one _ _ Hone) as (l & d & -> & Hl & Hd).
    destruct (Hvalid l d Hl Hd) as (shown & HM & Hs & H1 & H2).
    eexists. split; [exact HM|]. split.
    + split; [|done]. intros Heq.
      apply (f_equal (count_byte "@")) in Heq.
      rewrite count_byte_app in Heq. cbn in Heq. lia.
    + intros l' d' Heq Hl' Hd'.
      assert (l' = l ∧ d' = d) as [-> ->].
      { clear -Heq Hl Hl'. revert l' Heq Hl'.
        induction l as [|c l IH]; intros l' Heq Hl'.
        - destruct l' as [|c' l']; [by injection Heq as -> |].
          rewrite string_app_cons in Heq. injection Heq as <- _.
          cbn [count_byte] in Hl'. rewrite Ascii.eqb_refl in Hl'. lia.
        - rewrite string_app_cons in Heq. destruct l' as [|c' l'].
          + injection Heq as -> _. cbn [count_byte] in Hl.
            rewrite Ascii.eqb_refl in Hl. lia.
          + rewrite string_app_cons in Heq. injection Heq as -> Heq.
            cbn [count_byte] in Hl, Hl'.
            destruct (IH ltac:(lia) l' Heq ltac:(lia)) as [-> ->]. done. }
      by exists shown.
  - exists "[INVALID_EMAIL]". split.
    + unfold MaskEmail, Split.
      pose proof (Split_go_length email "@" "") as Hlen.
      destruct (Split_go email "@" "") as [|p1 [|p2 [|p3 ps]]]; simpl in Hlen; try done.
      lia.
    + split; [done|]. intros l d -> Hl Hd. exfalso. apply Hne.
      rewrite count_byte_app. cbn [count_byte]. rewrite Ascii.eqb_refl. lia.
Qed.

(* ===================================================================== *)
(** * The worker pool *)
(* ===================================================================== *)

Import Pool.

Definition is_busy (w : worker_state) : bool :=
  match w with Busy _ => true | _ => false end.

Lemma busy_cons w ws : busy (w :: ws) = (if is_busy w then 1 else 0) + busy ws.
Proof.
  unfold busy, qlen. cbn [List.filter]. fold (is_busy w).
  destruct (is_busy w); cbn [List.length]; lia.
Qed.

Lemma busy_insert ws i w w' :
  ws !! i = Some w →
  busy (<[i := w']> ws)
  = busy ws - (if is_busy w then 1 else 0) + (if is_busy w' then 1 else 0).
Proof.
  revert i. induction ws as [|x ws IH]; intros i H; [done|].
  destruct i as [|i]; simpl in H.
  - injection H as ->. change (<[0%nat := w']> (w :: ws)) with (w' :: ws).
    rewrite !busy_cons. lia.
  - change (<[S i := w']> (x :: ws)) with (x :: <[i := w']> ws).
    rewrite !busy_cons, (IH i H). lia.
Qed.

Lemma busy_replicate_idle n : busy (replicate n Idle) = 0.
Proof. induction n as [|n IH]; [done|]. cbn [replicate]. rewrite busy_cons, IH. done. Qed.

Lemma busy_nonneg ws : 0 ≤ busy ws.
Proof. unfold busy, qlen. lia. Qed.

(** ** Runs *)

Lemma execs_app r es1 es2 :
  execs r (es1 ++ es2) = match execs r es1 with Some r1 => execs r1 es2 | None => None end.
Proof.
  revert r. induction es1 as [|e es1 IH]; intros r; [done|].
  cbn [app execs]. destruct (exec r e); [apply IH | done].
Qed.


(** A [SubmitBlocking] call steps as the [Submit] call that takes the same
    case of the [select]. *)
Definition as_submit (e : event) : event :=
  match e with EvSubmitBlocking msg c => EvSubmit msg c | _ => e end.

Lemma exec_as_submit r e r' : exec r e = Some r' → exec r (as_submit e) = Some r'.
Proof.
  destruct e as [msg c | i | i ok | i | | | | msg c]; try done.
  unfold exec, SubmitBlocking. cbn [as_submit]. destruct (panicked r); [done|].
  by destruct c.
Qed.

Lemma as_submit_plain e msg c : as_submit e ≠ EvSubmitBlocking msg c.
Proof. by destruct e. Qed.

(** In a proof about one step [H : exec r e = Some r'] it is enough to look
    at the steps other than [SubmitBlocking]. *)
Ltac plain_step H e :=
  apply exec_as_submit in H; revert H;
  generalize (as_submit_plain e); generalize (as_submit e); clear e; intros e.

(** ** Counters that have not wrapped around *)

Lemma incr64_small n : 0 ≤ n < 2 ^ 63 - 1 → incr64 n = n + 1.
Proof. unfold incr64, wrap64. intros H. rewrite Z.mod_small; lia. Qed.

(** After [n] steps each counter is between 0 and [n]. *)
Definition within (n : Z) (r : Run) : Prop :=
  0 ≤ Processed (pool r) ∧ 0 ≤ Errors (pool r) ∧ 0 ≤ Dropped (pool r)
  ∧ Processed (pool r) + Errors (pool r) + Dropped (pool r) ≤ n.

Lemma fresh_within config : within 0 (fresh config).
Proof. unfold within, fresh, Start, NewWorkerPool. cbn. lia. Qed.

Lemma exec_within n r e r' :
  n < 2 ^ 63 - 1 → exec r e = Some r' → within n r → within (n + 1) r'.
Proof.
  intros Hn H. plain_step H e. intros Hplain H.
  unfold exec, within in *. destruct (panicked r); [discriminate|].
  intros (Hp & He & Hd & Hsum).
  destruct e as [msg c | i | i ok | i | | | | msg c].
  - unfold Submit in H. destruct c.
    + destruct (tasksClosed (pool r)).
      * injection H as <-. cbn. lia.
      * destruct (qlen (tasks (pool r)) <? bufferSize (pool r)); [|discriminate].
        injection H as <-. cbn. lia.
    + destruct (ctxDone (pool r)); [|discriminate]. injection H as <-. cbn. lia.
    + destruct (send_ready (pool r) || ctxDone (pool r)); [discriminate|].
      injection H as <-. cbn. rewrite incr64_small by lia. lia.
  - destruct (running (pool r) !! i) as [[|m|]|] eqn:Ei; try discriminate.
    destruct (tasks (pool r)) as [|[m|] q] eqn:Eq; [discriminate| |];
      injection H as <-; cbn; lia.
  - destruct (running (pool r) !! i) as [[|m|]|] eqn:Ei; try discriminate.
    rewrite (incr64_small (Processed (pool r))), (incr64_small (Errors (pool r))) in H
      by lia.
    destruct ok; cbn [andb] in H.
    + destruct (Z.eqb_spec (Processed (pool r) + 1) 0); [lia|].
      injection H as <-. cbn.
      destruct (qlen (results (pool r)) <? bufferSize (pool r)); cbn; lia.
    + injection H as <-. cbn.
      destruct (qlen (results (pool r)) <? bufferSize (pool r)); cbn; lia.
  - destruct (running (pool r) !! i) as [[|m|]|] eqn:Ei; try discriminate.
    destruct (ctxDone (pool r)); [|discriminate]. injection H as <-. cbn. lia.
  - destruct (results (pool r)); [discriminate|]. injection H as <-. cbn. lia.
  - injection H as <-. cbn. lia.
  - destruct (_ && _); [|discriminate]. injection H as <-. cbn. lia.
  - exfalso. by eapply Hplain.
Qed.

(** An invariant of the steps of a run of fewer than [2^63] steps, none of
    them in [bad]: in such a run no counter wraps around. *)
Lemma execs_bounded (I : Run → Prop) (bad : event → bool) :
  (∀ n r e r', bad e = false → n < 2 ^ 63 - 1 → within n r →
               exec r e = Some r' → I r → I r') →
  ∀ es n r r',
    existsb bad es = false → n + Z.of_nat (List.length es) < 2 ^ 63 → within n r →
    execs r es = Some r' → I r →
    I r' ∧ within (n + Z.of_nat (List.length es)) r'.
Proof.
  intros Hstep. induction es as [|e es IH]; intros n r r' Hb Hn Hw H Hr; simpl in H.
  - injection H as <-. cbn [List.length]. by rewrite Z.add_0_r.
  - cbn [existsb] in Hb. apply orb_false_iff in Hb as [Hb1 Hb2].
    cbn [List.length] in *.
    destruct (exec r e) as [r1|] eqn:E; [|discriminate].
    replace (n + Z.of_nat (S (List.length es)))
      with (n + 1 + Z.of_nat (List.length es)) by lia.
    eapply (IH (n + 1)); [done | lia | | done |].
    + eapply exec_within; [lia | done | done].
    + eapply Hstep; [done | | done | done | done]. lia.
Qed.

Lemma existsb_never {A : Type} (l : list A) : existsb (fun _ => false) l = false.
Proof. by induction l. Qed.

(** ** [Submit] after [Stop] *)

(** After [Stop()] the [select] of [Submit] has two cases that can
    proceed: the send on the closed channel, which panics, and the receive
    from the cancelled context, which returns false.  Go picks either. *)
Lemma Submit_after_Stop wp msg :
  stopped wp →
  Submit wp msg CaseSend = Some Panic
  ∧ Submit wp msg CaseDone = Some (Done (wp, false))
  ∧ Submit wp msg CaseDefault = None.
Proof.
  intros [Hd Hc]. unfold Submit, send_ready. by rewrite Hd, Hc.
Qed.

Lemma all_exited_replicate n : all_exited (replicate n Exited) = true.
Proof. induction n as [|n IH]; [done|]. exact IH. Qed.

(** Once the context is cancelled, the idle workers return one after the
    other. *)
Lemma workers_return m j r :
  panicked r = false → ctxDone (pool r) = true →
  running (pool r) = (replicate j Exited ++ replicate m Idle)%list →
  ∃ r', execs r (EvExit <$> seq j m) = Some r'
        ∧ panicked r' = false ∧ ctxDone (pool r') = true
        ∧ tasksClosed (pool r') = tasksClosed (pool r)
        ∧ running (pool r') = replicate (j + m) Exited.
Proof.
  revert j r. induction m as [|m IH]; intros j r Hp Hd Hr.
  - exists r. rewrite Nat.add_0_r. cbn [replicate] in Hr. rewrite app_nil_r in Hr. done.
  - cbn [seq fmap list_fmap execs].
    assert (Hj : running (pool r) !! j = Some Idle).
    { rewrite Hr, lookup_app_r by (rewrite length_replicate; lia).
      rewrite length_replicate, Nat.sub_diag. done. }
    unfold exec. rewrite Hp, Hj, Hd.
    destruct (IH (S j) (with_pool r (set_running (pool r)
                                      (<[j := Exited]> (running (pool r))))))
      as (r' & Hex & Hp' & Hd' & Hc' & Hr'); [done | done | |].
    { cbn. rewrite Hr, insert_app_r_alt by (rewrite length_replicate; lia).
      rewrite length_replicate, Nat.sub_diag. cbn [replicate].
      change (<[0%nat := Exited]> (Idle :: replicate m Idle))
        with ([Exited] ++ replicate m Idle)%list.
      by rewrite app_assoc, <- replicate_S_end. }
    exists r'. rewrite Hex. replace (j + S m)%nat with (S j + m)%nat by lia. done.
Qed.

(** C6, the code at a failing input: [Stop()] followed by [Submit(msg)].
    [Stop()] cancels the context, waits for the workers and then closes
    [wp.tasks].  On every started pool the steps of [Stop()] lead to a state
    in which the [select] of a [Submit(msg)] call has two cases that can
    proceed, the send on the closed channel and the receive from
    [wp.ctx.Done()], and in which [default] cannot be taken.  The call that
    takes the send panics; the call that takes the receive returns false and
    leaves the pool as it is.  The same holds in every state a started pool
    reaches once [Stop()] has completed. *)
Theorem Submit_after_Stop_can_panic (config : PoolConfig) (msg : option Message) :
  (∃ r, execs (fresh config)
              (Stop_steps (Z.to_nat (workers (NewWorkerPool config)))) = Some r
        ∧ panicked r = false ∧ stopped (pool r)
        ∧ exec r (EvSubmit msg CaseSend)
          = Some {| pool := pool r; submits := submits r; accepted := accepted r;
                    panicked := true |})
  ∧ ∀ es r,
      execs (fresh config) es = Some r → panicked r = false → stopped (pool r) →
      Submit (pool r) msg CaseSend = Some Panic
      ∧ exec r (EvSubmit msg CaseSend)
        = Some {| pool := pool r; submits := submits r; accepted := accepted r;
                  panicked := true |}
      ∧ exec r (EvSubmit msg CaseDone)
        = Some {| pool := pool r; submits := submits r + 1; accepted := accepted r;
                  panicked := false |}
      ∧ exec r (EvSubmit msg CaseDefault) = None.
Proof.
  assert (Hany : ∀ r, panicked r = false → stopped (pool r) →
    Submit (pool r) msg CaseSend = Some Panic
    ∧ exec r (EvSubmit msg CaseSend)
      = Some {| pool := pool r; submits := submits r; accepted := accepted r;
                panicked := true |}
    ∧ exec r (EvSubmit msg CaseDone)
      = Some {| pool := pool r; submits := submits r + 1; accepted := accepted r;
                panicked := false |}
    ∧ exec r (EvSubmit msg CaseDefault) = None).
  { intros r Hp Hs. destruct (Submit_after_Stop _ msg Hs) as (H1 & H2 & H3).
    unfold exec. by rewrite Hp, H1, H2, H3. }
  split; [|by intros es r _; apply Hany].
  unfold Stop_steps. set (n := Z.to_nat (workers (NewWorkerPool config))).
  cbn [execs]. unfold exec at 1. cbn [panicked fresh].
  set (r1 := with_pool _ _).
  destruct (workers_return n 0 r1) as (r2 & H2 & Hp2 & Hd2 & Hc2 & Hr2); [done..|].
  rewrite execs_app, H2. cbn [execs]. unfold exec. rewrite Hp2, Hd2, Hr2, Hc2.
  cbn [Nat.add]. rewrite all_exited_replicate. cbn.
  eexists. split; [done|]. split; [done|]. split; [by split|].
  eapply Hany; [done | by split].
Qed.

Definition small_pool : PoolConfig := {| Workers := 1; BufferSize := 1 |}.

Definition a_message : option Message :=
  Some {| MsgID := "1"; Content := "x"; Source := "s" |}.

(** ** The metrics *)

(** What every state reached in fewer than [2^63] steps satisfies: each
    accepted message is in the queue, with a worker, counted as processed or
    as an error, or was a nil message; each dropped message belongs to a
    call that returned false. *)
Definition pool_inv (r : Run) : Prop :=
  Processed (pool r) + Errors (pool r) + busy (running (pool r))
  + qlen (tasks (pool r)) ≤ accepted r
  ∧ Dropped (pool r) + accepted r ≤ submits r.

Lemma fresh_inv config : pool_inv (fresh config).
Proof.
  unfold pool_inv, fresh, Start, NewWorkerPool. cbn.
  rewrite busy_replicate_idle. unfold qlen. simpl. lia.
Qed.

Lemma exec_inv n r e r' :
  n < 2 ^ 63 - 1 → within n r → exec r e = Some r' → pool_inv r → pool_inv r'.
Proof.
  intros Hn (Hp & He & Hd & Hsum) H. plain_step H e. intros Hplain H.
  unfold exec, pool_inv in *. destruct (panicked r); [discriminate|].
  intros (Hacc & Hsub).
  destruct e as [msg c | i | i ok | i | | | | msg c].
  - (* Submit *)
    unfold Submit in H. destruct c.
    + destruct (tasksClosed (pool r)).
      * injection H as <-. cbn. lia.
      * destruct (qlen (tasks (pool r)) <? bufferSize (pool r)); [|discriminate].
        injection H as <-. cbn. unfold qlen in *. rewrite length_app. simpl. lia.
    + destruct (ctxDone (pool r)); [|discriminate]. injection H as <-. cbn. lia.
    + destruct (send_ready (pool r) || ctxDone (pool r)); [discriminate|].
      injection H as <-. cbn. rewrite incr64_small by lia. lia.
  - (* a worker receives a task *)
    destruct (running (pool r) !! i) as [[|m|]|] eqn:Ei; try discriminate.
    destruct (tasks (pool r)) as [|[m|] q] eqn:Eq; [discriminate| |];
      injection H as <-; cbn.
    + rewrite (busy_insert _ _ _ _ Ei). cbn. unfold qlen in *. simpl in Hacc. lia.
    + unfold qlen in *. simpl in Hacc. lia.
  - (* the handler returns *)
    destruct (running (pool r) !! i) as [[|m|]|] eqn:Ei; try discriminate.
    rewrite (incr64_small (Processed (pool r))), (incr64_small (Errors (pool r))) in H
      by lia.
    destruct ok; cbn [andb] in H.
    + destruct (Z.eqb_spec (Processed (pool r) + 1) 0); [lia|].
      injection H as <-. cbn.
      destruct (qlen (results (pool r)) <? bufferSize (pool r)); cbn;
        rewrite (busy_insert _ _ _ _ Ei); cbn; lia.
    + injection H as <-. cbn.
      destruct (qlen (results (pool r)) <? bufferSize (pool r)); cbn;
        rewrite (busy_insert _ _ _ _ Ei); cbn; lia.
  - (* a worker observes the cancellation *)
    destruct (running (pool r) !! i) as [[|m|]|] eqn:Ei; try discriminate.
    destruct (ctxDone (pool r)); [|discriminate]. injection H as <-. cbn.
    rewrite (busy_insert _ _ _ _ Ei). cbn. lia.
  - destruct (results (pool r)); [discriminate|]. injection H as <-. cbn. lia.
  - injection H as <-. cbn. lia.
  - destruct (_ && _); [|discriminate]. injection H as <-. cbn. lia.
  - exfalso. by eapply Hplain.
Qed.

(** X23.  The metrics.  In every state that a started pool reaches in fewer
    than [2^63] steps, the messages counted as processed or as errors are at
    most the [Submit] and [SubmitBlocking] calls that returned true, and
    together with the dropped ones they are at most the calls that
    returned. *)
Theorem pool_metrics_bounded (config : PoolConfig) (es : list event) (r : Run) :
  execs (fresh config) es = Some r →
  Z.of_nat (List.length es) < 2 ^ 63 →
  0 ≤ Processed (pool r) ∧ 0 ≤ Errors (pool r) ∧ 0 ≤ Dropped (pool r)
  ∧ Processed (pool r) + Errors (pool r) ≤ accepted r
  ∧ Processed (pool r) + Errors (pool r) + Dropped (pool r) ≤ submits r.
Proof.
  intros H Hlen.
  destruct (execs_bounded pool_inv (fun _ => false)
              (fun n r e r' _ Hn Hw => exec_inv n r e r' Hn Hw)
              es 0 (fresh config) r (existsb_never es) ltac:(lia)
              (fresh_within config) H (fresh_inv config))
    as ((Hacc & Hsub) & Hp & He & Hd & _).
  pose proof (busy_nonneg (running (pool r))).
  assert (0 ≤ qlen (tasks (pool r))) by (unfold qlen; lia).
  repeat split; lia.
Qed.

(** One message accepted, one dropped on the full buffer, the accepted
    one processed, then [Stop()]. *)
Definition drop_then_stop : list event :=
  [EvSubmit a_message CaseSend; EvSubmit a_message CaseDefault;
   EvReceive 0; EvHandled 0 true; EvCancel; EvExit 0; EvClose].

Lemma pool_metrics_bounded_witness :
  ∃ r, execs (fresh small_pool) drop_then_stop = Some r
       ∧ 0 ≤ Processed (pool r) ∧ 0 ≤ Errors (pool r) ∧ 0 ≤ Dropped (pool r)
       ∧ Processed (pool r) + Errors (pool r) ≤ accepted r
       ∧ Processed (pool r) + Errors (pool r) + Dropped (pool r) ≤ submits r.
Proof.
  eexists. split; [vm_compute; reflexivity|].
  apply (pool_metrics_bounded small_pool drop_then_stop);
    [vm_compute; reflexivity | reflexivity].
Defined.

(** The dropped messages are not among the accepted ones: on this run the
    three counters add up to 2 while one [Submit] call was accepted. *)
Lemma dropped_is_not_accepted :
  ∃ r, execs (fresh small_pool) drop_then_stop = Some r
       ∧ accepted r = 1
       ∧ Processed (pool r) + Errors (pool r) + Dropped (pool r) = 2.
Proof.
  eexists. split; [vm_compute; reflexivity|]. split; reflexivity.
Qed.


(* ===================================================================== *)
(** * Capacities, accounting and the stopped pool *)
(* ===================================================================== *)







(** ** Accounting *)

Definition nil_submit (e : event) : bool :=
  match e with
  | EvSubmit None _ | EvSubmitBlocking None _ => true
  | _ => false
  end.

Definition is_cancel (e : event) : bool :=
  match e with EvCancel => true | _ => false end.

Lemma nil_submit_as_submit e : nil_submit (as_submit e) = nil_submit e.
Proof. by destruct e as [[]| | | | | | |[]]. Qed.

Lemma is_cancel_as_submit e : is_cancel (as_submit e) = is_cancel e.
Proof. by destruct e. Qed.

(** No nil message is queued, and every accepted message is in the queue,
    with a handler, or counted. *)
Definition accounted (r : Run) : Prop :=
  Forall (fun m : option Message => is_Some m) (tasks (pool r))
  ∧ Processed (pool r) + Errors (pool r) + busy (running (pool r))
    + qlen (tasks (pool r)) = accepted r.

Lemma exec_accounted n r e r' :
  nil_submit e = false → n < 2 ^ 63 - 1 → within n r →
  exec r e = Some r' → accounted r → accounted r'.
Proof.
  intros Hnil Hn (Hp & He & Hd & Hsum) H.
  rewrite <- nil_submit_as_submit in Hnil. revert Hnil.
  plain_step H e. intros Hplain H Hnil.
  unfold exec, accounted in *. destruct (panicked r); [discriminate|].
  intros (Hq & Hacc).
  destruct e as [msg c | i | i ok | i | | | | msg c].
  - unfold Submit in H. destruct c.
    + destruct (tasksClosed (pool r)).
      * by injection H as <-.
      * destruct (qlen (tasks (pool r)) <? bufferSize (pool r)); [|discriminate].
        injection H as <-. cbn. unfold qlen in *. rewrite length_app. simpl.
        split; [|lia]. apply Forall_app. split; [done|]. constructor; [|constructor].
        destruct msg; [by eexists | discriminate].
    + destruct (ctxDone (pool r)); [|discriminate]. by injection H as <-.
    + destruct (send_ready (pool r) || ctxDone (pool r)); [discriminate|].
      by injection H as <-.
  - destruct (running (pool r) !! i) as [[|m|]|] eqn:Ei; try discriminate.
    destruct (tasks (pool r)) as [|[m|] q] eqn:Eq; [discriminate| |].
    + injection H as <-. cbn. rewrite (busy_insert _ _ _ _ Ei). cbn.
      unfold qlen in *. simpl in Hacc. split; [by inversion Hq | lia].
    + inversion Hq as [|? ? [? ?]]. discriminate.
  - destruct (running (pool r) !! i) as [[|m|]|] eqn:Ei; try discriminate.
    rewrite (incr64_small (Processed (pool r))), (incr64_small (Errors (pool r))) in H
      by lia.
    destruct ok; cbn [andb] in H.
    + destruct (Z.eqb_spec (Processed (pool r) + 1) 0); [lia|].
      injection H as <-. cbn.
      destruct (qlen (results (pool r)) <? bufferSize (pool r)); cbn;
        rewrite (busy_insert _ _ _ _ Ei); cbn; (split; [done | lia]).
    + injection H as <-. cbn.
      destruct (qlen (results (pool r)) <? bufferSize (pool r)); cbn;
        rewrite (busy_insert _ _ _ _ Ei); cbn; (split; [done | lia]).
  - destruct (running (pool r) !! i) as [[|m|]|] eqn:Ei; try discriminate.
    destruct (ctxDone (pool r)); [|discriminate]. injection H as <-. cbn.
    rewrite (busy_insert _ _ _ _ Ei). cbn. split; [done | lia].
  - destruct (results (pool r)); [discriminate|]. by injection H as <-.
  - by injection H as <-.
  - destruct (_ && _); [|discriminate]. by injection H as <-.
  - exfalso. by eapply Hplain.
Qed.

(** The pool has not been cancelled: its channels are open, nothing has
    panicked, and every [Submit] or [SubmitBlocking] call that returned was
    accepted or counted as dropped. *)
Definition open (r : Run) : Prop :=
  ctxDone (pool r) = false ∧ tasksClosed (pool r) = false ∧ panicked r = false
  ∧ Dropped (pool r) + accepted r = submits r.

Lemma exec_open n r e r' :
  is_cancel e = false → n < 2 ^ 63 - 1 → within n r →
  exec r e = Some r' → open r → open r'.
Proof.
  intros Hc Hn (Hp & He & Hdr & Hsum) H.
  rewrite <- is_cancel_as_submit in Hc. revert Hc.
  plain_step H e. intros Hplain H Hc.
  unfold exec, open in *. destruct (panicked r) eqn:Hpan; [discriminate|].
  intros (Hd & Ht & _ & Hsub).
  destruct e as [msg c | i | i ok | i | | | | msg c]; [| | | | |discriminate| |].
  - unfold Submit, send_ready in H. rewrite Hd, Ht in H. destruct c.
    + destruct (qlen (tasks (pool r)) <? bufferSize (pool r)); [|discriminate].
      injection H as <-. cbn. repeat split; first [done | lia].
    + discriminate.
    + cbn [orb] in H. rewrite orb_false_r in H.
      destruct (qlen (tasks (pool r)) <? bufferSize (pool r)); [discriminate|].
      injection H as <-. cbn. rewrite incr64_small by lia.
      repeat split; first [done | lia].
  - destruct (running (pool r) !! i) as [[|m|]|] eqn:Ei; try discriminate.
    destruct (tasks (pool r)) as [|[m|] q] eqn:Eq; [discriminate| |];
      injection H as <-; cbn; done.
  - destruct (running (pool r) !! i) as [[|m|]|] eqn:Ei; try discriminate.
    rewrite (incr64_small (Processed (pool r))) in H by lia.
    destruct ok; cbn [andb] in H.
    + destruct (Z.eqb_spec (Processed (pool r) + 1) 0); [lia|].
      injection H as <-. cbn.
      destruct (qlen (results (pool r)) <? bufferSize (pool r)); cbn; done.
    + injection H as <-. cbn.
      destruct (qlen (results (pool r)) <? bufferSize (pool r)); cbn; done.
  - destruct (running (pool r) !! i) as [[|m|]|] eqn:Ei; try discriminate.
    rewrite Hd in H. discriminate.
  - destruct (results (pool r)); [discriminate|]. injection H as <-. cbn. done.
  - rewrite Hd in H. discriminate.
  - exfalso. by eapply Hplain.
Qed.

(** X18.  Exact accounting.  In a run of fewer than [2^63] steps of a started
    pool, in which no counter can wrap around, and in which no nil message
    is submitted, the [Submit] and [SubmitBlocking] calls that returned true
    are exactly the messages counted as processed, counted as errors, with a
    handler, or still queued.  As long as the pool has not been cancelled,
    moreover, nothing panics and each call that returned was accepted or
    counted as dropped. *)
Theorem pool_accounts_for_every_message
        (config : PoolConfig) (es : list event) (r : Run) :
  execs (fresh config) es = Some r →
  Z.of_nat (List.length es) < 2 ^ 63 →
  existsb nil_submit es = false →
  Processed (pool r) + Errors (pool r) + busy (running (pool r)) + QueueSize (pool r)
  = accepted r
  ∧ (existsb is_cancel es = false →
     panicked r = false ∧ Dropped (pool r) + accepted r = submits r).
Proof.
  intros H Hlen Hnil. split.
  - eapply (execs_bounded accounted nil_submit exec_accounted es 0);
      [done | lia | apply fresh_within | done |].
    unfold accounted, fresh, Start, NewWorkerPool. cbn.
    rewrite busy_replicate_idle. split; [constructor | done].
  - intros Hc.
    destruct (execs_bounded open is_cancel exec_open es 0 _ _ Hc ltac:(lia)
                (fresh_within config) H) as ((_ & _ & Hp & Hs) & _); [|done].
    unfold open, fresh, Start, NewWorkerPool. cbn. done.
Qed.

(** [Submit] accepts a message and drops the next one on the full buffer;
    then a call of [Batch] with one message: its [SubmitBlocking] call is
    accepted once the worker has taken the first message, the handler fails
    on that message, and [Batch] receives the result. *)
Definition busy_run : list event :=
  [EvSubmit a_message CaseSend; EvSubmit a_message CaseDefault;
   EvReceive 0; EvSubmitBlocking a_message CaseSend; EvHandled 0 false;
   EvReadResult].

Lemma pool_accounts_for_every_message_witness :
  ∃ r, execs (fresh small_pool) busy_run = Some r
       ∧ Processed (pool r) + Errors (pool r) + busy (running (pool r))
         + QueueSize (pool r) = accepted r
       ∧ (existsb is_cancel busy_run = false →
          panicked r = false ∧ Dropped (pool r) + accepted r = submits r).
Proof.
  eexists. split; [vm_compute; reflexivity|].
  apply (pool_accounts_for_every_message small_pool busy_run);
    vm_compute; reflexivity.
Defined.

(** ** After [Stop] *)









(* ===================================================================== *)
(** * The baseline of the anomaly service *)
(* ===================================================================== *)

Import PrimFloat Anomaly.

(** The guard of [calculateBaseline] replaces a standard deviation that
    compares equal to zero, and nothing else. *)
Lemma calculateBaseline_nonzero points :
  PrimFloat.eqb (StdDev (calculateBaseline points)) 0%float = false.
Proof.
  unfold calculateBaseline. destruct (_ =? 0); [reflexivity|]. cbn [StdDev].
  match goal with
  | |- PrimFloat.eqb (if PrimFloat.eqb ?s _ then _ else _) _ = false =>
    destruct (PrimFloat.eqb s 0%float) eqn:E; [reflexivity | exact E]
  end.
Qed.

(** A cached baseline was computed by [calculateBaseline] from at least
    ten points. *)
Definition cached_ok (m : gmap string Baseline) : Prop :=
  ∀ key b, m !! key = Some b →
           ∃ points, b = calculateBaseline points ∧ (10 ≤ List.length points)%nat.

(** What a call does to the cache: nothing, or one new entry. *)
Definition cache_step (m m' : gmap string Baseline) : Prop :=
  m' = m
  ∨ ∃ key points, m !! key = None ∧ (10 ≤ List.length points)%nat
                  ∧ m' = <[key := calculateBaseline points]> m.

Lemma send_alert_baselines s a : baselines (send_alert s a) = baselines s.
Proof. unfold send_alert. by destruct (_ <? 100). Qed.

Lemma baseline_of_step s key points :
  (10 ≤ List.length points)%nat →
  cache_step (baselines s) (baselines (baseline_of s key points).1)
  ∧ config (baseline_of s key points).1 = config s.
Proof.
  intros Hn. unfold baseline_of. destruct (baselines s !! key) eqn:E; cbn.
  - split; [by left | done].
  - split; [|done]. right. by exists key, points.
Qed.

Lemma checkErrorAnomaly_step s templateID now :
  cache_step (baselines s) (baselines (checkErrorAnomaly s templateID now)).
Proof.
  unfold checkErrorAnomaly.
  destruct (Z.ltb_spec (Z.of_nat (List.length (default [] (errorCounts s !! templateID)))) 10);
    [by left|].
  destruct (baseline_of_step s ("error:" ++ templateID)
              (default [] (errorCounts s !! templateID))) as [Hstep _]; [lia|].
  destruct (baseline_of s _ _) as [s1 baseline]. cbn [fst] in Hstep.
  destruct (PrimFloat.ltb 0%float (StdDev baseline)); [|done].
  destruct (PrimFloat.ltb _ _); [|done]. by rewrite send_alert_baselines.
Qed.

Lemma checkVolumeAnomaly_step s source now :
  cache_step (baselines s) (baselines (checkVolumeAnomaly s source now)).
Proof.
  unfold checkVolumeAnomaly.
  destruct (Z.ltb_spec (Z.of_nat (List.length (default [] (volumeCounts s !! source)))) 10);
    [by left|].
  destruct (fold_left _ _ _) as [recentVolume count].
  destruct (baseline_of_step s ("volume:" ++ source)
              (default [] (volumeCounts s !! source))) as [Hstep _]; [lia|].
  destruct (baseline_of s _ _) as [s1 baseline]. cbn [fst] in Hstep.
  destruct (PrimFloat.ltb 0%float (StdDev baseline)); [|done].
  destruct (PrimFloat.ltb _ _); [|done]. by rewrite send_alert_baselines.
Qed.

Lemma apply_call_step s c : cache_step (baselines s) (baselines (apply_call s c)).
Proof.
  destruct c; cbn [apply_call]; unfold RecordError, RecordVolume.
  - apply (checkErrorAnomaly_step
             {| config := config s; errorCounts := _; volumeCounts := volumeCounts s;
                baselines := baselines s; alertChan := alertChan s |}).
  - apply (checkVolumeAnomaly_step
             {| config := config s; errorCounts := errorCounts s; volumeCounts := _;
                baselines := baselines s; alertChan := alertChan s |}).
  - by left.
Qed.

Lemma cache_step_ok m m' : cache_step m m' → cached_ok m → cached_ok m'.
Proof.
  intros [->|(key & points & Hnone & Hn & ->)] Hok; [done|].
  intros k b Hk. destruct (decide (key = k)) as [->|Hne].
  - rewrite lookup_insert_eq in Hk. injection Hk as <-. by exists points.
  - rewrite lookup_insert_ne in Hk by done. by eapply Hok.
Qed.

Lemma cache_step_kept m m' key b : cache_step m m' → m !! key = Some b → m' !! key = Some b.
Proof.
  intros [->|(k & points & Hnone & Hn & ->)] Hk; [done|].
  rewrite lookup_insert_ne; [done|]. congruence.
Qed.

Lemma fold_calls_ok calls s :
  cached_ok (baselines s) → cached_ok (baselines (fold_left apply_call calls s)).
Proof.
  revert s. induction calls as [|c calls IH]; intros s Hok; [done|].
  simpl. apply IH. eapply cache_step_ok; [apply apply_call_step | done].
Qed.

Lemma fold_calls_kept calls s key b :
  baselines s !! key = Some b →
  baselines (fold_left apply_call calls s) !! key = Some b.
Proof.
  revert s. induction calls as [|c calls IH]; intros s Hk; [done|].
  simpl. apply IH. eapply cache_step_kept; [apply apply_call_step | done].
Qed.

(** C5, as the code has it.  A baseline cached by the service was computed
    by [calculateBaseline] from the points present at the first check, at
    least ten; its [StdDev] never compares equal to zero (it is the standard
    deviation of the points, or 1 when that is zero), so the z-score never
    divides by zero; and the cached baseline is not recomputed by later
    calls. *)
Theorem cached_baseline_std_dev_nonzero
        (config : Config) (calls : list call) (key : string) (b : Baseline) :
  baselines (serve config calls) !! key = Some b →
  PrimFloat.eqb (StdDev b) 0%float = false
  ∧ (∃ points, b = calculateBaseline points ∧ (10 ≤ List.length points)%nat)
  ∧ ∀ more, baselines (serve config (calls ++ more)) !! key = Some b.
Proof.
  intros Hk.
  assert (Hok : cached_ok (baselines (serve config calls))).
  { apply fold_calls_ok. intros k b0 H0.
    cbn [baselines NewAnomalyService] in H0. by rewrite lookup_empty in H0. }
  destruct (Hok key b Hk) as (points & -> & Hn).
  split; [apply calculateBaseline_nonzero|]. split; [by exists points|].
  intros more. unfold serve. rewrite fold_left_app. by apply fold_calls_kept.
Qed.

Definition default_thresholds : Config :=
  {| AnomalyWindow := 5 * minute; ErrorThreshold := 3; VolumeThreshold := 3 |}.

(** Ten volume reports of one source, one a minute: five of 0 lines, then
    five of 1 line. *)
Definition quiet_source : list call :=
  map (fun i => CallRecordVolume "web" (if i <? 5 then 0%float else 1%float)
                                 (i * minute) (i * minute))
      [0; 1; 2; 3; 4; 5; 6; 7; 8; 9].

(** Ten errors of one template, one a minute. *)
Definition steady_errors : list call :=
  map (fun i => CallRecordError "tmpl_1" (i * minute) (i * minute))
      [0; 1; 2; 3; 4; 5; 6; 7; 8; 9].

Lemma cached_baseline_std_dev_nonzero_witness :
  baselines (serve default_thresholds steady_errors) !! "error:tmpl_1"
  = Some {| Mean := 1; StdDev := 1; Count := 10 |}
  ∧ PrimFloat.eqb 1%float 0%float = false.
Proof.
  assert (H : baselines (serve default_thresholds steady_errors) !! "error:tmpl_1"
              = Some {| Mean := 1; StdDev := 1; Count := 10 |})
    by (vm_compute; reflexivity).
  split; [exact H|].
  exact (proj1 (cached_baseline_std_dev_nonzero default_thresholds steady_errors
                  "error:tmpl_1" {| Mean := 1; StdDev := 1; Count := 10 |} H)).
Defined.

(** The claim as the specification states it fails: the baseline cached at
    the first check of this volume series has a standard deviation of 0.5,
    which is below 1.0. *)
Lemma cached_baseline_below_one :
  baselines (serve default_thresholds quiet_source) !! "volume:web"
  = Some {| Mean := 0.5; StdDev := 0.5; Count := 10 |}
  ∧ PrimFloat.ltb 0.5%float 1%float = true
  ∧ PrimFloat.leb 1%float 0.5%float = false.
Proof.
  split; [vm_compute; reflexivity|]. split; reflexivity.
Qed.

(* ===================================================================== *)
(** * Baselines and alerts of the anomaly service *)
(* ===================================================================== *)

(** The points that the calls record for one template, and for one
    source. *)
Fixpoint recorded_errors (templateID : string) (calls : list call) : list TimePoint :=
  match calls with
  | [] => []
  | CallRecordError t timestamp _ :: rest =>
    if bool_decide (t = templateID)
    then {| Timestamp := timestamp; Value := 1 |} :: recorded_errors templateID rest
    else recorded_errors templateID rest
  | CallRecordVolume _ _ _ _ :: rest => recorded_errors templateID rest
  | CallReceiveAlert :: rest => recorded_errors templateID rest
  end.

Fixpoint recorded_volumes (source : string) (calls : list call) : list TimePoint :=
  match calls with
  | [] => []
  | CallRecordVolume s count timestamp _ :: rest =>
    if bool_decide (s = source)
    then {| Timestamp := timestamp; Value := count |} :: recorded_volumes source rest
    else recorded_volumes source rest
  | CallRecordError _ _ _ :: rest => recorded_volumes source rest
  | CallReceiveAlert :: rest => recorded_volumes source rest
  end.

(** The baseline of a series: none before the tenth point, then that of
    the first ten points. *)
Definition first_ten (points : list TimePoint) : option Baseline :=
  if 10 <=? Z.of_nat (List.length points)
  then Some (calculateBaseline (take 10 points)) else None.

Lemma error_key_inj a b : "error:" ++ a = "error:" ++ b → a = b.
Proof. intros H. vm_compute in H. by injection H. Qed.

Lemma volume_key_inj a b : "volume:" ++ a = "volume:" ++ b → a = b.
Proof. intros H. vm_compute in H. by injection H. Qed.

Lemma error_key_volume a b : "error:" ++ a ≠ "volume:" ++ b.
Proof. intros H. vm_compute in H. discriminate. Qed.

Lemma baseline_of_spec s key points s1 b :
  baseline_of s key points = (s1, b) →
  config s1 = config s ∧ errorCounts s1 = errorCounts s
  ∧ volumeCounts s1 = volumeCounts s ∧ alertChan s1 = alertChan s
  ∧ baselines s1 !! key = Some b
  ∧ (∀ k, k ≠ key → baselines s1 !! k = baselines s !! k)
  ∧ match baselines s !! key with
    | Some b0 => b = b0
    | None => b = calculateBaseline points
    end.
Proof.
  unfold baseline_of. destruct (baselines s !! key) as [b0|] eqn:E;
    intros [= <- <-]; cbn.
  - done.
  - rewrite lookup_insert_eq. repeat split; try done.
    intros k Hk. by rewrite lookup_insert_ne.
Qed.

Lemma send_alert_spec s a :
  config (send_alert s a) = config s ∧ errorCounts (send_alert s a) = errorCounts s
  ∧ volumeCounts (send_alert s a) = volumeCounts s
  ∧ baselines (send_alert s a) = baselines s
  ∧ (alertChan (send_alert s a) = alertChan s
     ∨ (alertChan (send_alert s a) = (alertChan s ++ [a])%list
        ∧ Z.of_nat (List.length (alertChan s)) < 100)).
Proof.
  unfold send_alert. destruct (Z.ltb_spec (Z.of_nat (List.length (alertChan s))) 100); cbn.
  - repeat split; try done. by right.
  - repeat split; try done. by left.
Qed.

(** What justifies an alert: the baseline of its series has a positive
    standard deviation and the z-score of the reported value exceeds the
    threshold of the configuration. *)
Definition error_justified (cfg : Config) (b : Baseline) (a : Alert) : Prop :=
  let zScore := ((AlertValue a - Mean b) / StdDev b)%float in
  Type_ a = "error_spike"
  ∧ (0 <? StdDev b)%float = true
  ∧ (ErrorThreshold cfg <? zScore)%float = true
  ∧ Severity a = getSeverity zScore
  ∧ Threshold a = (Mean b + StdDev b * ErrorThreshold cfg)%float.

Definition volume_justified (cfg : Config) (b : Baseline) (a : Alert) : Prop :=
  let zScore := abs ((AlertValue a - Mean b) / StdDev b) in
  Type_ a = (if (AlertValue a <? Mean b)%float then "volume_drop" else "volume_spike")
  ∧ (0 <? StdDev b)%float = true
  ∧ (VolumeThreshold cfg <? zScore)%float = true
  ∧ Severity a = getSeverity zScore
  ∧ Threshold a = Mean b.

Definition justified (cfg : Config) (m : gmap string Baseline) (a : Alert) : Prop :=
  (∃ b, m !! ("error:" ++ TemplateID a) = Some b ∧ error_justified cfg b a)
  ∨ (∃ b, m !! ("volume:" ++ Source a) = Some b ∧ volume_justified cfg b a).

(** The effect of a check: the points are left alone, at most the
    baseline of the series is cached, and at most one alert is queued, which
    the baseline of the series justifies. *)
Definition check_effect (key : string) (points : list TimePoint)
           (s s' : AnomalyService) : Prop :=
  config s' = config s ∧ errorCounts s' = errorCounts s
  ∧ volumeCounts s' = volumeCounts s
  ∧ (∀ k, k ≠ key → baselines s' !! k = baselines s !! k)
  ∧ baselines s' !! key
    = match baselines s !! key with
      | Some b0 => Some b0
      | None => if Z.of_nat (List.length points) <? 10 then None
                else Some (calculateBaseline points)
      end
  ∧ (alertChan s' = alertChan s
     ∨ ∃ a, alertChan s' = (alertChan s ++ [a])%list
            ∧ Z.of_nat (List.length (alertChan s)) < 100
            ∧ justified (config s') (baselines s') a).

Lemma checkErrorAnomaly_effect s templateID now :
  check_effect ("error:" ++ templateID) (default [] (errorCounts s !! templateID))
               s (checkErrorAnomaly s templateID now).
Proof.
  unfold checkErrorAnomaly, check_effect.
  set (points := default [] (errorCounts s !! templateID)).
  destruct (Z.ltb_spec (Z.of_nat (List.length points)) 10) as [Hlt|Hge].
  { repeat split; try done; [by destruct (baselines s !! ("error:" ++ templateID)) | by left]. }
  destruct (baseline_of s ("error:" ++ templateID) points) as [s1 b] eqn:Eb.
  destruct (baseline_of_spec _ _ _ _ _ Eb) as (Hc & He & Hv & Ha & Hk & Hne & Hb).
  assert (Hkey : baselines s1 !! ("error:" ++ templateID)
                 = match baselines s !! ("error:" ++ templateID) with
                   | Some b0 => Some b0
                   | None => Some (calculateBaseline points)
                   end).
  { rewrite Hk. by destruct (baselines s !! ("error:" ++ templateID)); rewrite Hb. }
  destruct (0 <? StdDev b)%float eqn:Esd;
    [|repeat split; try done; by left].
  destruct (ErrorThreshold (config s1) <? _)%float eqn:Ez;
    [|repeat split; try done; by left].
  match goal with |- context [send_alert s1 ?x] => set (a := x) end.
  destruct (send_alert_spec s1 a) as (Hc' & He' & Hv' & Hb' & Hq).
  rewrite Hc', He', Hv', Hb'. repeat split; try done; try congruence.
  destruct Hq as [->|[-> Hlen]]; [left; congruence|].
  right. exists a. rewrite Ha in Hlen |- *. split; [done|]. split; [done|].
  left. exists b. split; [done|]. unfold error_justified. subst a. cbn.
  rewrite Hc in *. done.
Qed.

Lemma checkVolumeAnomaly_effect s source now :
  check_effect ("volume:" ++ source) (default [] (volumeCounts s !! source))
               s (checkVolumeAnomaly s source now).
Proof.
  unfold checkVolumeAnomaly, check_effect.
  set (points := default [] (volumeCounts s !! source)).
  destruct (Z.ltb_spec (Z.of_nat (List.length points)) 10) as [Hlt|Hge].
  { repeat split; try done; [by destruct (baselines s !! ("volume:" ++ source)) | by left]. }
  destruct (fold_left _ points (0%float, 0)) as [recentVolume count].
  set (recent := if 0 <? count then (recentVolume / float_of_Z count)%float
                 else recentVolume).
  destruct (baseline_of s ("volume:" ++ source) points) as [s1 b] eqn:Eb.
  destruct (baseline_of_spec _ _ _ _ _ Eb) as (Hc & He & Hv & Ha & Hk & Hne & Hb).
  assert (Hkey : baselines s1 !! ("volume:" ++ source)
                 = match baselines s !! ("volume:" ++ source) with
                   | Some b0 => Some b0
                   | None => Some (calculateBaseline points)
                   end).
  { rewrite Hk. by destruct (baselines s !! ("volume:" ++ source)); rewrite Hb. }
  destruct (0 <? StdDev b)%float eqn:Esd;
    [|repeat split; try done; by left].
  destruct (VolumeThreshold (config s1) <? _)%float eqn:Ez;
    [|repeat split; try done; by left].
  match goal with |- context [send_alert s1 ?x] => set (a := x) end.
  destruct (send_alert_spec s1 a) as (Hc' & He' & Hv' & Hb' & Hq).
  rewrite Hc', He', Hv', Hb'. repeat split; try done; try congruence.
  destruct Hq as [->|[-> Hlen]]; [left; congruence|].
  right. exists a. rewrite Ha in Hlen |- *. split; [done|]. split; [done|].
  right. exists b. split; [done|]. unfold volume_justified. subst a. cbn.
  rewrite Hc in *. done.
Qed.

(** ** The cached baseline is that of the first ten points *)

Definition error_points (s : AnomalyService) (t : string) : list TimePoint :=
  default [] (errorCounts s !! t).

Definition volume_points (s : AnomalyService) (t : string) : list TimePoint :=
  default [] (volumeCounts s !! t).

Definition cache_exact (s : AnomalyService) : Prop :=
  ∀ t, baselines s !! ("error:" ++ t) = first_ten (error_points s t)
       ∧ baselines s !! ("volume:" ++ t) = first_ten (volume_points s t).

Lemma first_ten_snoc points p :
  first_ten (points ++ [p])
  = match first_ten points with
    | Some b => Some b
    | None => if Z.of_nat (List.length (points ++ [p])) <? 10 then None
              else Some (calculateBaseline (points ++ [p]))
    end.
Proof.
  unfold first_ten. rewrite length_app. cbn [List.length].
  destruct (Z.leb_spec 10 (Z.of_nat (List.length points))) as [H|H].
  - destruct (Z.leb_spec 10 (Z.of_nat (List.length points + 1))); [|lia].
    by rewrite take_app_le by lia.
  - destruct (Z.leb_spec 10 (Z.of_nat (List.length points + 1))) as [H'|H'];
      destruct (Z.ltb_spec (Z.of_nat (List.length points + 1)) 10); try lia; [|done].
    rewrite take_ge; [done|]. rewrite length_app. simpl. lia.
Qed.

Lemma apply_call_points s c t :
  error_points (apply_call s c) t = (error_points s t ++ recorded_errors t [c])%list
  ∧ volume_points (apply_call s c) t = (volume_points s t ++ recorded_volumes t [c])%list.
Proof.
  unfold error_points, volume_points.
  destruct c as [t' ts now | t' count ts now | ];
    cbn [apply_call recorded_errors recorded_volumes].
  - unfold RecordError.
    match goal with |- context [checkErrorAnomaly ?x _ _] => set (s0 := x) end.
    destruct (checkErrorAnomaly_effect s0 t' now) as (_ & He & Hv & _).
    rewrite He, Hv. subst s0. cbn [errorCounts volumeCounts].
    split; [|by rewrite app_nil_r].
    case_bool_decide as E.
    + subst t'. by rewrite lookup_insert_eq.
    + rewrite lookup_insert_ne by done. by rewrite app_nil_r.
  - unfold RecordVolume.
    match goal with |- context [checkVolumeAnomaly ?x _ _] => set (s0 := x) end.
    destruct (checkVolumeAnomaly_effect s0 t' now) as (_ & He & Hv & _).
    rewrite He, Hv. subst s0. cbn [errorCounts volumeCounts].
    split; [by rewrite app_nil_r|].
    case_bool_decide as E.
    + subst t'. by rewrite lookup_insert_eq.
    + rewrite lookup_insert_ne by done. by rewrite app_nil_r.
  - cbn [receive_alert errorCounts volumeCounts]. by rewrite !app_nil_r.
Qed.

Lemma apply_call_cache_exact s c : cache_exact s → cache_exact (apply_call s c).
Proof.
  intros Hs t. destruct (apply_call_points s c t) as [Hpe Hpv]. rewrite Hpe, Hpv.
  destruct (Hs t) as [Hse Hsv].
  destruct c as [t' ts now | t' count ts now | ];
    cbn [apply_call recorded_errors recorded_volumes].
  - unfold RecordError.
    match goal with |- context [checkErrorAnomaly ?x _ _] => set (s0 := x) end.
    destruct (checkErrorAnomaly_effect s0 t' now) as (_ & _ & _ & Hne & Hk & _).
    subst s0. cbn [baselines errorCounts] in *. rewrite lookup_insert_eq in Hk.
    cbn [default] in Hk. split.
    + case_bool_decide as E.
      * subst t'. rewrite Hk, first_ten_snoc.
        destruct (Hs t) as [-> _]. done.
      * rewrite app_nil_r, Hne; [done|]. intros Heq. by apply error_key_inj in Heq.
    + rewrite app_nil_r, Hne; [done|]. intros Heq. symmetry in Heq.
      by apply error_key_volume in Heq.
  - unfold RecordVolume.
    match goal with |- context [checkVolumeAnomaly ?x _ _] => set (s0 := x) end.
    destruct (checkVolumeAnomaly_effect s0 t' now) as (_ & _ & _ & Hne & Hk & _).
    subst s0. cbn [baselines volumeCounts] in *. rewrite lookup_insert_eq in Hk.
    cbn [default] in Hk. split.
    + rewrite app_nil_r, Hne; [done|]. by apply error_key_volume.
    + case_bool_decide as E.
      * subst t'. rewrite Hk, first_ten_snoc.
        destruct (Hs t) as [_ ->]. done.
      * rewrite app_nil_r, Hne; [done|]. intros Heq. by apply volume_key_inj in Heq.
  - cbn [receive_alert baselines]. by rewrite !app_nil_r.
Qed.

Lemma recorded_errors_cons t c calls :
  recorded_errors t (c :: calls) = (recorded_errors t [c] ++ recorded_errors t calls)%list.
Proof. destruct c; cbn [recorded_errors]; [by case_bool_decide | done | done]. Qed.

Lemma recorded_volumes_cons t c calls :
  recorded_volumes t (c :: calls) = (recorded_volumes t [c] ++ recorded_volumes t calls)%list.
Proof. destruct c; cbn [recorded_volumes]; [done | by case_bool_decide | done]. Qed.

Lemma fold_calls_exact calls s t :
  cache_exact s →
  cache_exact (fold_left apply_call calls s)
  ∧ error_points (fold_left apply_call calls s) t
    = (error_points s t ++ recorded_errors t calls)%list
  ∧ volume_points (fold_left apply_call calls s) t
    = (volume_points s t ++ recorded_volumes t calls)%list.
Proof.
  revert s. induction calls as [|c calls IH]; intros s Hs.
  - cbn. by rewrite !app_nil_r.
  - cbn [fold_left].
    destruct (IH (apply_call s c) (apply_call_cache_exact s c Hs)) as (H1 & H2 & H3).
    destruct (apply_call_points s c t) as [Hpe Hpv].
    split; [done|].
    rewrite H2, H3, Hpe, Hpv, (recorded_errors_cons t c calls), (recorded_volumes_cons t c calls).
    by rewrite <- !app_assoc.
Qed.

Lemma serve_cache_exact config calls t :
  baselines (serve config calls) !! ("error:" ++ t)
  = first_ten (recorded_errors t calls)
  ∧ baselines (serve config calls) !! ("volume:" ++ t)
    = first_ten (recorded_volumes t calls)
  ∧ default [] (errorCounts (serve config calls) !! t) = recorded_errors t calls
  ∧ default [] (volumeCounts (serve config calls) !! t) = recorded_volumes t calls.
Proof.
  destruct (fold_calls_exact calls (NewAnomalyService config) t) as (Hc & He & Hv).
  { intros t'. unfold first_ten, error_points, volume_points.
    cbn [NewAnomalyService baselines errorCounts volumeCounts].
    by rewrite !lookup_empty. }
  unfold error_points, volume_points in He, Hv.
  cbn [NewAnomalyService errorCounts volumeCounts] in He, Hv.
  rewrite !lookup_empty in He, Hv. cbn [default] in He, Hv.
  rewrite app_nil_l in He, Hv. fold (serve config calls) in Hc, He, Hv.
  destruct (Hc t) as [H1 H2]. unfold error_points, volume_points in H1, H2.
  rewrite He in H1. rewrite Hv in H2. done.
Qed.

(** X20.  A baseline is cached for a template, or for a source, exactly from its
    tenth recorded point on, and it is the baseline of its first ten points:
    points recorded later never change it. *)
Theorem baseline_is_of_the_first_ten_points
        (config : Config) (calls : list call) (t : string) :
  baselines (serve config calls) !! ("error:" ++ t)
  = (if 10 <=? Z.of_nat (List.length (recorded_errors t calls))
     then Some (calculateBaseline (take 10 (recorded_errors t calls))) else None)
  ∧ baselines (serve config calls) !! ("volume:" ++ t)
    = (if 10 <=? Z.of_nat (List.length (recorded_volumes t calls))
       then Some (calculateBaseline (take 10 (recorded_volumes t calls))) else None)
  ∧ default [] (errorCounts (serve config calls) !! t) = recorded_errors t calls
  ∧ default [] (volumeCounts (serve config calls) !! t) = recorded_volumes t calls.
Proof. apply serve_cache_exact. Qed.

(** ** The baseline of an error series *)

Lemma recorded_errors_ones t calls :
  Forall (fun p => Value p = 1%float) (recorded_errors t calls).
Proof.
  induction calls as [|c calls IH]; [constructor|].
  destruct c; cbn [recorded_errors]; [|done|done].
  case_bool_decide; [by constructor | done].
Qed.

Lemma calculateBaseline_ten_ones points :
  List.length points = 10%nat → Forall (fun p => Value p = 1%float) points →
  calculateBaseline points = {| Mean := 1; StdDev := 1; Count := 10 |}.
Proof.
  intros Hlen Hall.
  do 10 (destruct points as [|[? ?] points]; [discriminate|];
         apply Forall_cons_1 in Hall as [Hv Hall]; cbn [Value] in Hv; subst).
  destruct points; [|discriminate]. vm_compute. reflexivity.
Qed.

(** X21.  Every error point has the value 1, so the baseline of a template is
    always the same: mean 1, standard deviation 1 (the value that replaces a
    standard deviation of zero), computed from ten points.  The z-score of
    [checkErrorAnomaly] is therefore the number of recent errors minus
    one. *)
Theorem error_baseline_is_constant
        (config : Config) (calls : list call) (templateID : string) (b : Baseline) :
  baselines (serve config calls) !! ("error:" ++ templateID) = Some b →
  b = {| Mean := 1; StdDev := 1; Count := 10 |}
  ∧ (10 ≤ List.length (recorded_errors templateID calls))%nat.
Proof.
  intros Hb. destruct (serve_cache_exact config calls templateID) as (H1 & _).
  rewrite H1 in Hb. unfold first_ten in Hb.
  destruct (Z.leb_spec 10 (Z.of_nat (List.length (recorded_errors templateID calls))));
    [|discriminate].
  injection Hb as <-. split; [|lia].
  apply calculateBaseline_ten_ones.
  - rewrite length_take. lia.
  - apply Forall_take, recorded_errors_ones.
Qed.

Lemma error_baseline_is_constant_witness :
  {| Mean := 1; StdDev := 1; Count := 10 |} = {| Mean := 1; StdDev := 1; Count := 10 |}
  ∧ (10 ≤ List.length (recorded_errors "tmpl_1" steady_errors))%nat.
Proof.
  apply (error_baseline_is_constant default_thresholds steady_errors "tmpl_1").
  vm_compute. reflexivity.
Defined.

(** ** Alerts *)

Definition alerts_ok (s : AnomalyService) : Prop :=
  Forall (justified (config s) (baselines s)) (alertChan s)
  ∧ Z.of_nat (List.length (alertChan s)) ≤ 100.

Lemma justified_mono cfg m m' a :
  (∀ k b, m !! k = Some b → m' !! k = Some b) →
  justified cfg m a → justified cfg m' a.
Proof.
  intros Hm [(b & Hb & Hj)|(b & Hb & Hj)]; [left | right]; exists b; auto.
Qed.

(** What one step does to the queue: a receive takes the oldest alert, a
    call appends at most one alert, and none to a full queue. *)
Definition queue_step (c : call) (q q' : list Alert) : Prop :=
  match c with
  | CallReceiveAlert => q' = tail q
  | _ => q' = q ∨ ∃ a, q' = (q ++ [a])%list ∧ Z.of_nat (List.length q) < 100
  end.

Lemma check_effect_alerts key points s s' :
  check_effect key points s s' →
  alerts_ok s →
  alerts_ok s'
  ∧ (alertChan s' = alertChan s
     ∨ ∃ a, alertChan s' = (alertChan s ++ [a])%list
            ∧ Z.of_nat (List.length (alertChan s)) < 100).
Proof.
  intros (Hc & _ & _ & Hne & Hk & Hq) [Hall Hlen].
  assert (Hm : ∀ k b, baselines s !! k = Some b → baselines s' !! k = Some b).
  { intros k b Hb. destruct (decide (k = key)) as [->|Hkk].
    - rewrite Hk, Hb. done.
    - by rewrite Hne. }
  assert (Hall' : Forall (justified (config s') (baselines s')) (alertChan s)).
  { rewrite Hc. eapply Forall_impl; [exact Hall|]. intros a. by apply justified_mono. }
  unfold alerts_ok. destruct Hq as [Hq|(a & Hq & Hlt & Hj)]; rewrite Hq.
  - split; [done | by left].
  - split; [|right; by exists a].
    split; [apply Forall_app; split; [done | by constructor]|].
    rewrite length_app. simpl. lia.
Qed.

Lemma apply_call_alerts s c :
  alerts_ok s →
  alerts_ok (apply_call s c)
  ∧ queue_step c (alertChan s) (alertChan (apply_call s c))
  ∧ config (apply_call s c) = config s.
Proof.
  intros Hs. destruct c as [t ts now | t count ts now | ]; cbn [apply_call queue_step].
  - unfold RecordError.
    match goal with |- context [checkErrorAnomaly ?x _ _] => set (s0 := x) end.
    pose proof (checkErrorAnomaly_effect s0 t now) as He.
    destruct (check_effect_alerts _ _ _ _ He Hs) as [H1 H2].
    destruct He as (Hc & _). done.
  - unfold RecordVolume.
    match goal with |- context [checkVolumeAnomaly ?x _ _] => set (s0 := x) end.
    pose proof (checkVolumeAnomaly_effect s0 t now) as He.
    destruct (check_effect_alerts _ _ _ _ He Hs) as [H1 H2].
    destruct He as (Hc & _). done.
  - destruct Hs as [Hall Hlen]. unfold alerts_ok, receive_alert.
    cbn [config baselines alertChan]. split; [|done].
    destruct (alertChan s) as [|a q]; [done|]. cbn [tail List.length] in *.
    split; [by inversion Hall | lia].
Qed.

Lemma fold_calls_alerts calls s :
  alerts_ok s →
  alerts_ok (fold_left apply_call calls s)
  ∧ config (fold_left apply_call calls s) = config s.
Proof.
  revert s. induction calls as [|c calls IH]; intros s Hs; [done|].
  cbn [fold_left]. destruct (apply_call_alerts s c Hs) as (H1 & _ & H3).
  destruct (IH _ H1) as (H4 & H6).
  split; [done | congruence].
Qed.

(** X22.  At every moment of a running service, whatever the calls and the
    receives from the channel so far, every alert in the queue is justified
    by the cached baseline of its series: an error alert by a z-score of its
    value above [ErrorThreshold], a volume alert by an absolute z-score
    above [VolumeThreshold], with the severity of that score; the baseline
    has a positive standard deviation.  The queue never holds more than 100
    alerts.  A receive takes the oldest alert, and a call appends at most
    one alert, and none when the queue is full. *)
Theorem alerts_are_justified (config : Config) (calls : list call) :
  Z.of_nat (List.length (alertChan (serve config calls))) ≤ 100
  ∧ (∀ c, queue_step c (alertChan (serve config calls))
                       (alertChan (serve config (calls ++ [c]))))
  ∧ ∀ a, a ∈ alertChan (serve config calls) →
      (∃ b, baselines (serve config calls) !! ("error:" ++ TemplateID a) = Some b
            ∧ Type_ a = "error_spike"
            ∧ (0 <? StdDev b)%float = true
            ∧ (ErrorThreshold config <? (AlertValue a - Mean b) / StdDev b)%float = true
            ∧ Severity a = getSeverity ((AlertValue a - Mean b) / StdDev b)
            ∧ Threshold a = (Mean b + StdDev b * ErrorThreshold config)%float)
      ∨ (∃ b, baselines (serve config calls) !! ("volume:" ++ Source a) = Some b
              ∧ Type_ a = (if (AlertValue a <? Mean b)%float
                           then "volume_drop" else "volume_spike")
              ∧ (0 <? StdDev b)%float = true
              ∧ (VolumeThreshold config
                 <? abs ((AlertValue a - Mean b) / StdDev b))%float = true
              ∧ Severity a = getSeverity (abs ((AlertValue a - Mean b) / StdDev b))
              ∧ Threshold a = Mean b).
Proof.
  assert (H0 : alerts_ok (NewAnomalyService config)).
  { split; [constructor | cbn; lia]. }
  destruct (fold_calls_alerts calls _ H0) as (Hok & Hc).
  fold (serve config calls) in Hok, Hc.
  split; [by destruct Hok|]. split.
  - intros c. unfold serve at 2. rewrite fold_left_app. fold (serve config calls).
    cbn [fold_left]. by apply apply_call_alerts.
  - destruct Hok as [Hall Hlen].
    intros a Ha. rewrite Forall_forall in Hall. specialize (Hall a Ha).
    rewrite Hc in Hall. cbn [NewAnomalyService Anomaly.config] in Hall.
    destruct Hall as [(b & Hb & Hj)|(b & Hb & Hj)]; [left | right];
      exists b; (split; [done|]); exact Hj.
Qed.

(** Ten errors of one template, one a minute, with the thresholds of the
    command line: the tenth call queues an alert of medium severity, which
    the alert processor then takes. *)
Lemma alerts_are_justified_witness :
  ∃ a,
    alertChan (serve default_thresholds steady_errors) = [a]
    ∧ alertChan (serve default_thresholds (steady_errors ++ [CallReceiveAlert])) = []
    ∧ Severity a = "medium" ∧ AlertValue a = 5%float
    ∧ ((∃ b, baselines (serve default_thresholds steady_errors)
               !! ("error:" ++ TemplateID a) = Some b
             ∧ Type_ a = "error_spike"
             ∧ (0 <? StdDev b)%float = true
             ∧ (ErrorThreshold default_thresholds
                <? (AlertValue a - Mean b) / StdDev b)%float = true
             ∧ Severity a = getSeverity ((AlertValue a - Mean b) / StdDev b)
             ∧ Threshold a
               = (Mean b + StdDev b * ErrorThreshold default_thresholds)%float)
       ∨ (∃ b, baselines (serve default_thresholds steady_errors)
                 !! ("volume:" ++ Source a) = Some b
               ∧ Type_ a = (if (AlertValue a <? Mean b)%float
                            then "volume_drop" else "volume_spike")
               ∧ (0 <? StdDev b)%float = true
               ∧ (VolumeThreshold default_thresholds
                  <? abs ((AlertValue a - Mean b) / StdDev b))%float = true
               ∧ Severity a = getSeverity (abs ((AlertValue a - Mean b) / StdDev b))
               ∧ Threshold a = Mean b)).
Proof.
  eexists.
  assert (E : alertChan (serve default_thresholds steady_errors) = [_])
    by (vm_compute; reflexivity).
  split; [exact E|]. split; [vm_compute; reflexivity|].
  split; [reflexivity|]. split; [reflexivity|].
  apply (proj2 (proj2 (alerts_are_justified default_thresholds steady_errors))).
  rewrite E. apply list_elem_of_here.
Defined.
